(** * GraphRAG Explorer: retrieval, streaming, highlight and layout

    A shallow embedding of the TypeScript sources of the GraphRAG Explorer
    (App.tsx, lib/utils.ts, types/index.ts, data/sampleGraph.ts,
    components/GraphVisualization.tsx) together with the properties the
    specification states about them.

    Conventions.
    - A JavaScript string is a [string]: a sequence of code units.  The
      operations used by the sources ([split], [join], [includes],
      [length], [+]) work on code units and are modelled exactly.
    - [String.prototype.toLowerCase] is a parameter of the development
      ([toLowerCase]); the concrete evaluations use [ascii_toLowerCase],
      its restriction to the ASCII letters.
    - A value of type [unknown] stored in a property bag is a [JsValue].
    - [await new Promise(resolve => setTimeout(resolve, d))] suspends the
      running handler; the event loop is modelled by an explicit queue of
      timers carrying the suspended continuations. *)

From Stdlib Require Import String Ascii List Bool Arith NArith ZArith QArith.
From Stdlib Require Import Lia Lqa Permutation Sorted DecimalString DecimalPos DecimalN.
Import ListNotations.

Set Warnings "-register-all,-notation-for-abbreviation".

Open Scope string_scope.
Open Scope list_scope.

(* ================================================================== *)
(** * JavaScript built-ins used by the sources *)
(* ================================================================== *)

Module JS.

(** [s.split(sep)] for a one-character separator: the pieces between
    the occurrences of [sep], empty pieces included; never empty. *)
Fixpoint split (sep : ascii) (s : string) : list string :=
  match s with
  | EmptyString => [EmptyString]
  | String c rest =>
      if Ascii.eqb c sep then EmptyString :: split sep rest
      else match split sep rest with
           | w :: ws => String c w :: ws
           | [] => [String c EmptyString]
           end
  end.

(** [a.join(sep)]. *)
Fixpoint join (sep : string) (a : list string) : string :=
  match a with
  | [] => EmptyString
  | [w] => w
  | w :: ws => (w ++ sep ++ join sep ws)%string
  end.

(** [s.includes(sub)]: [sub] occurs in [s] as a contiguous run. *)
Fixpoint includes (s sub : string) : bool :=
  String.prefix sub s ||
  match s with
  | EmptyString => false
  | String _ rest => includes rest sub
  end.

(** [a.slice(0, n)]. *)
Definition slice0 {A : Type} (n : nat) (a : list A) : list A := firstn n a.

(** [a.some(p)], [a.filter(p)], [a.find(p)], [a.map(f)] are [existsb],
    [filter], [find] and [map] of the standard library. *)
Definition some {A : Type} (p : A -> bool) (a : list A) : bool := existsb p a.

(** [a.includes(x)] on an array of strings, for a string [x]. *)
Definition array_includes (a : list string) (x : string) : bool :=
  existsb (String.eqb x) a.

(** Decimal rendering of a non-negative integer ([`${n}`]). *)
Definition string_of_N (n : N) : string :=
  NilZero.string_of_uint (N.to_uint n).

(** Decimal rendering of an integer. *)
Definition string_of_Z (z : Z) : string :=
  match z with
  | Zneg p => ("-" ++ string_of_N (Npos p))%string
  | _ => string_of_N (Z.to_N z)
  end.

(** The double quote character. *)
Definition dquote : string := String (ascii_of_nat 34) EmptyString.

(** ** Values of type [unknown] held in a property bag

    [JsNumber] carries the integral numbers (printed in plain decimal by
    JavaScript); an object lists its own enumerable properties in
    enumeration order. *)
Inductive JsValue : Type :=
| JsString (s : string)
| JsNumber (z : Z)
| JsBool (b : bool)
| JsNull
| JsArray (items : list JsValue)
| JsObject (props : list (string * JsValue)).

Definition hex_digit (n : nat) : ascii :=
  if (n <? 10)%nat then ascii_of_nat (48 + n) else ascii_of_nat (87 + n).

(** QuoteJSONString on one code unit. *)
Definition json_escape_char (c : ascii) : string :=
  let n := nat_of_ascii c in
  if (n =? 34)%nat then ("\" ++ dquote)%string
  else if (n =? 92)%nat then "\\"
  else if (n =? 8)%nat then "\b"
  else if (n =? 9)%nat then "\t"
  else if (n =? 10)%nat then "\n"
  else if (n =? 12)%nat then "\f"
  else if (n =? 13)%nat then "\r"
  else if (n <? 32)%nat then
    ("\u00" ++ String (hex_digit (n / 16)) (String (hex_digit (n mod 16)) EmptyString))%string
  else String c EmptyString.

Fixpoint json_escape (s : string) : string :=
  match s with
  | EmptyString => EmptyString
  | String c rest => (json_escape_char c ++ json_escape rest)%string
  end.

Definition json_quote (s : string) : string :=
  (dquote ++ json_escape s ++ dquote)%string.

(** [JSON.stringify(v)] without indentation. *)
Fixpoint JSON_stringify (v : JsValue) : string :=
  match v with
  | JsString s => json_quote s
  | JsNumber z => string_of_Z z
  | JsBool true => "true"
  | JsBool false => "false"
  | JsNull => "null"
  | JsArray items =>
      ("[" ++ join "," (map JSON_stringify items) ++ "]")%string
  | JsObject props =>
      ("{" ++ join ","
         (map (fun kv => (json_quote (fst kv) ++ ":" ++ JSON_stringify (snd kv))%string)
              props) ++ "}")%string
  end.

(** ToString, as applied by a template literal [`${v}`]. *)
Fixpoint toString (v : JsValue) : string :=
  match v with
  | JsString s => s
  | JsNumber z => string_of_Z z
  | JsBool true => "true"
  | JsBool false => "false"
  | JsNull => "null"
  | JsArray items =>
      join "," (map (fun x => match x with JsNull => EmptyString | _ => toString x end) items)
  | JsObject _ => "[object Object]"
  end.

(** ToBoolean, as applied by [||]. *)
Definition truthy (v : JsValue) : bool :=
  match v with
  | JsString s => negb (String.eqb s EmptyString)
  | JsNumber z => negb (Z.eqb z 0)
  | JsBool b => b
  | JsNull => false
  | JsArray _ => true
  | JsObject _ => true
  end.

(** [o.key] on a plain object: [None] is [undefined]. *)
Fixpoint get (props : list (string * JsValue)) (key : string) : option JsValue :=
  match props with
  | [] => None
  | (k, v) :: rest => if String.eqb k key then Some v else get rest key
  end.

(** [String.prototype.toLowerCase] restricted to the ASCII letters. *)
Definition ascii_lower (c : ascii) : ascii :=
  let n := nat_of_ascii c in
  if ((65 <=? n)%nat && (n <=? 90)%nat)%bool then ascii_of_nat (n + 32) else c.

Fixpoint ascii_toLowerCase (s : string) : string :=
  match s with
  | EmptyString => EmptyString
  | String c rest => String (ascii_lower c) (ascii_toLowerCase rest)
  end.


(** WhiteSpace and LineTerminator among the code units below 256: tab,
    line feed, vertical tab, form feed, carriage return, space and
    no-break space. *)
Definition isWhiteSpace (c : ascii) : bool :=
  let n := nat_of_ascii c in
  ((n =? 9) || (n =? 10) || (n =? 11) || (n =? 12) || (n =? 13) || (n =? 32)
   || (n =? 160))%nat.

(** [s.trimStart()]. *)
Fixpoint trimStart (s : string) : string :=
  match s with
  | EmptyString => EmptyString
  | String c rest => if isWhiteSpace c then trimStart rest else s
  end.

(** [s.trimEnd()]. *)
Fixpoint trimEnd (s : string) : string :=
  match s with
  | EmptyString => EmptyString
  | String c rest =>
      match trimEnd rest with
      | EmptyString => if isWhiteSpace c then EmptyString else String c EmptyString
      | kept => String c kept
      end
  end.

(** [s.trim()]. *)
Definition trim (s : string) : string := trimEnd (trimStart s).

End JS.

(* ================================================================== *)
(** * The regular expressions of the sources *)
(* ================================================================== *)

Module RegExp.

(** A pattern read at the start of a text: the text it matches and the
    text left, [None] when it does not match there.  The patterns of the
    sources are sequences of literal characters and of greedy runs of a
    character class, each run followed by a character outside the class,
    and alternatives none of which is a prefix of another: such a
    pattern matches at a position in one way at most, so that the match
    the backtracking search of JavaScript finds first is the one read
    here. *)
Definition Matcher : Type := string -> option (string * string).

(** A literal character. *)
Definition char (c : ascii) : Matcher := fun text =>
  match text with
  | String d rest => if Ascii.eqb d c then Some (String d EmptyString, rest) else None
  | EmptyString => None
  end.

(** One character of a class, [[...]]. *)
Definition oneOf (class : ascii -> bool) : Matcher := fun text =>
  match text with
  | String d rest => if class d then Some (String d EmptyString, rest) else None
  | EmptyString => None
  end.

(** The longest run of characters of a class, and the text after it. *)
Fixpoint span (class : ascii -> bool) (text : string) : string * string :=
  match text with
  | String d rest =>
      if class d then let (run, left) := span class rest in (String d run, left)
      else (EmptyString, text)
  | EmptyString => (EmptyString, EmptyString)
  end.

(** [[...]+]: one character of the class at least, and as many as there
    are. *)
Definition plus (class : ascii -> bool) : Matcher := fun text =>
  match text with
  | String d rest =>
      if class d then let (run, left) := span class rest in Some (String d run, left)
      else None
  | EmptyString => None
  end.

(** Patterns in a row. *)
Fixpoint sequence (ps : list Matcher) : Matcher := fun text =>
  match ps with
  | [] => Some (EmptyString, text)
  | p :: ps' =>
      match p text with
      | Some (m, rest) =>
          match sequence ps' rest with
          | Some (m', rest') => Some ((m ++ m')%string, rest')
          | None => None
          end
      | None => None
      end
  end.

(** A literal word, character by character. *)
Fixpoint chars (word : string) : list Matcher :=
  match word with
  | EmptyString => []
  | String c word' => char c :: chars word'
  end.

Definition literal (word : string) : Matcher := sequence (chars word).

(** [a|b|...]: the first alternative that matches. *)
Fixpoint alternatives (ps : list Matcher) : Matcher := fun text =>
  match ps with
  | [] => None
  | p :: ps' =>
      match p text with
      | Some found => Some found
      | None => alternatives ps' text
      end
  end.

(** [text.replace(/(p)/g, before + '$1' + after)] from the current
    position on, for a pattern [p] that matches no empty text: where [p]
    matches, the match is put between [before] and [after] and the
    search goes on after it; where it does not, the character is copied
    and the search goes on at the next one.  [fuel] bounds the positions
    tried. *)
Fixpoint replaceFrom (fuel : nat) (p : Matcher) (before after text : string) : string :=
  match fuel with
  | O => text
  | S fuel' =>
      match p text with
      | Some (matched, rest) =>
          (before ++ matched ++ after ++ replaceFrom fuel' p before after rest)%string
      | None =>
          match text with
          | EmptyString => EmptyString
          | String c rest => String c (replaceFrom fuel' p before after rest)
          end
      end
  end.

(** The whole replacement: a text has one position more than it has
    characters. *)
Definition replaceAll (p : Matcher) (before after text : string) : string :=
  replaceFrom (S (String.length text)) p before after text.

(** [[a-z]], [[A-Z]] and [[a-zA-Z]]. *)
Definition isLower (c : ascii) : bool :=
  let n := nat_of_ascii c in ((97 <=? n) && (n <=? 122))%nat.

Definition isUpper (c : ascii) : bool :=
  let n := nat_of_ascii c in ((65 <=? n) && (n <=? 90))%nat.

Definition isLetter (c : ascii) : bool := isLower c || isUpper c.

End RegExp.

(* ================================================================== *)
(** * types/index.ts *)
(* ================================================================== *)

Inductive NodeType : Type := Person | Company | Technology | Concept | Document.

(** [GraphNode].  The optional numeric fields are the ones the layout
    writes; [None] stands for an absent (or [null]) field. *)
Module GraphNode.
Record t : Type := Build_t
  { id : string;
    label : string;
    type : NodeType;
    properties : list (string * JS.JsValue);
    x : option Q;
    y : option Q;
    vx : option Q;
    vy : option Q;
    fx : option Q;
    fy : option Q }.
End GraphNode.

(** [source: string | GraphNode]: an endpoint of a relationship is an id
    or a reference to a node object. *)
Inductive Endpoint : Type :=
| EndId (nodeId : string)
| EndNode (node : GraphNode.t).

Module GraphRelationship.
Record t : Type := Build_t
  { id : string;
    source : Endpoint;
    target : Endpoint;
    type : string;
    properties : option (list (string * JS.JsValue)) }.
End GraphRelationship.

Module GraphData.
Record t : Type := Build_t
  { nodes : list GraphNode.t;
    relationships : list GraphRelationship.t }.
End GraphData.

Inductive Role : Type := user | assistant.

Module Message.
Record t : Type := Build_t
  { id : string;
    role : Role;
    content : string;
    timestamp : N;
    sources : option (list GraphNode.t);
    cypherQuery : option string;
    isStreaming : option bool }.
End Message.

(* ================================================================== *)
(** * data/sampleGraph.ts *)
(* ================================================================== *)

Module SampleQuery.
Record t : Type := Build_t
  { natural : string;
    cypher : string;
    explanation : string }.
End SampleQuery.

(** A node literal of the data set: no layout field is present. *)
Definition mkNode (id label : string) (type : NodeType)
    (properties : list (string * JS.JsValue)) : GraphNode.t :=
  GraphNode.Build_t id label type properties None None None None None None.

(** A relationship literal of the data set: both endpoints are ids. *)
Definition mkRel (id source target type : string)
    (properties : option (list (string * JS.JsValue))) : GraphRelationship.t :=
  GraphRelationship.Build_t id (EndId source) (EndId target) type properties.

Definition sampleNodes : list GraphNode.t :=
  [ mkNode "genai" "Generative AI" Concept
      [ ("description", JS.JsString "AI systems that can generate new content based on training data")
      ; ("challenges", JS.JsString "Hallucinations, lack of transparency, factual accuracy") ]
  ; mkNode "rag" "RAG (Retrieval Augmented Generation)" Technology
      [ ("description", JS.JsString "Architecture pattern that grounds LLMs with retrieved contextual information")
      ; ("benefit", JS.JsString "Reduces hallucinations by 40-60%") ]
  ; mkNode "graphrag" "GraphRAG" Technology
      [ ("description", JS.JsString "RAG enhanced with graph database for relationship-aware context retrieval")
      ; ("advantage", JS.JsString "Understands complex multi-hop relationships between entities") ]
  ; mkNode "llm" "Large Language Model" Technology
      [ ("description", JS.JsString "Neural network trained on vast amounts of text data")
      ; ("examples", JS.JsString "GPT-4, Claude, Llama") ]
  ; mkNode "neo4j" "Neo4j" Technology
      [ ("description", JS.JsString "Leading graph database platform")
      ; ("strength", JS.JsString "Optimized for relationship traversal and pattern matching") ]
  ; mkNode "vectordb" "Vector Database" Technology
      [ ("description", JS.JsString "Database optimized for similarity search using embeddings")
      ; ("limitation", JS.JsString "Does not capture semantic relationships between entities") ]
  ; mkNode "cypher" "Cypher" Technology
      [ ("description", JS.JsString "Neo4j's declarative graph query language")
      ; ("feature", JS.JsString "Pattern matching syntax for intuitive relationship queries") ]
  ; mkNode "knowledge-management" "Enterprise Knowledge Management" Concept
      [ ("useCase", JS.JsString "Connecting siloed information across departments")
      ; ("benefit", JS.JsString "Enables AI to answer questions requiring cross-domain knowledge") ]
  ; mkNode "recommendation" "Intelligent Recommendations" Concept
      [ ("useCase", JS.JsString "Personalized suggestions based on user behavior and item relationships")
      ; ("example", JS.JsString "E-commerce product recommendations") ]
  ; mkNode "fraud-detection" "Fraud Detection" Concept
      [ ("useCase", JS.JsString "Identifying suspicious patterns in transaction networks")
      ; ("advantage", JS.JsString "Detects complex fraud rings through relationship analysis") ]
  ; mkNode "nasa" "NASA" Company
      [ ("achievement", JS.JsString "Got to Mars 2 years earlier using Neo4j")
      ; ("application", JS.JsString "Mission planning and resource optimization") ]
  ; mkNode "icij" "ICIJ" Company
      [ ("achievement", JS.JsString "Broke Panama Papers story")
      ; ("application", JS.JsString "Uncovering hidden financial networks") ]
  ; mkNode "explainability" "AI Explainability" Concept
      [ ("description", JS.JsString "Ability to trace and understand AI decision-making process")
      ; ("importance", JS.JsString "Critical for regulated industries and trust") ]
  ; mkNode "accuracy" "Response Accuracy" Concept
      [ ("description", JS.JsString "Correctness and factual grounding of AI-generated content")
      ; ("challenge", JS.JsString "LLMs tend to hallucinate without proper grounding") ]
  ; mkNode "context" "Contextual Understanding" Concept
      [ ("description", JS.JsString "Comprehension of relationships and semantic connections")
      ; ("graphAdvantage", JS.JsString "Graphs naturally encode context through relationships") ] ].

Definition sampleRelationships : list GraphRelationship.t :=
  [ mkRel "r1" "genai" "llm" "POWERED_BY" None
  ; mkRel "r2" "rag" "genai" "IMPROVES" None
  ; mkRel "r3" "graphrag" "rag" "ENHANCES" None
  ; mkRel "r4" "graphrag" "neo4j" "USES" None
  ; mkRel "r5" "rag" "vectordb" "OFTEN_USES" None
  ; mkRel "r6" "neo4j" "cypher" "PROVIDES" None
  ; mkRel "r7" "graphrag" "cypher" "QUERIES_WITH" None
  ; mkRel "r8" "graphrag" "accuracy" "IMPROVES" None
  ; mkRel "r9" "graphrag" "explainability" "ENABLES" None
  ; mkRel "r10" "graphrag" "context" "CAPTURES" None
  ; mkRel "r11" "neo4j" "context" "EXCELS_AT" None
  ; mkRel "r12" "knowledge-management" "graphrag" "LEVERAGES" None
  ; mkRel "r13" "recommendation" "neo4j" "POWERED_BY" None
  ; mkRel "r14" "fraud-detection" "neo4j" "RELIES_ON" None
  ; mkRel "r15" "nasa" "neo4j" "USES" None
  ; mkRel "r16" "icij" "neo4j" "USES" None
  ; mkRel "r17" "nasa" "knowledge-management" "APPLIED_FOR" None
  ; mkRel "r18" "icij" "fraud-detection" "APPLIED_FOR" None
  ; mkRel "r19" "accuracy" "genai" "CHALLENGE_FOR" (Some [("severity", JS.JsString "high")])
  ; mkRel "r20" "explainability" "genai" "CHALLENGE_FOR" (Some [("severity", JS.JsString "high")])
  ; mkRel "r21" "neo4j" "vectordb" "COMPLEMENTS" None
  ; mkRel "r22" "context" "accuracy" "LEADS_TO" None ].

Definition sampleQueries : list SampleQuery.t :=
  [ SampleQuery.Build_t
      "How does GraphRAG improve AI accuracy?"
      "MATCH path = (graphrag:Technology {label: 'GraphRAG'})-[*1..3]-(accuracy:Concept {label: 'Response Accuracy'})
RETURN path"
      "Multi-hop pattern matching to find all paths between GraphRAG and Accuracy"
  ; SampleQuery.Build_t
      "What companies use Neo4j and for what purpose?"
      "MATCH (company:Company)-[:USES]->(neo4j:Technology {label: 'Neo4j'})
MATCH (company)-[:APPLIED_FOR]->(useCase)
RETURN company.label as Company, useCase.label as UseCase, company.achievement as Achievement"
      "Relationship traversal to connect companies with their use cases"
  ; SampleQuery.Build_t
      "How is GraphRAG different from regular RAG?"
      "MATCH (graphrag:Technology {label: 'GraphRAG'})-[:ENHANCES]->(rag:Technology)
MATCH (graphrag)-[:USES]->(tech)
MATCH (rag)-[:OFTEN_USES]->(altTech)
RETURN graphrag, rag, tech, altTech"
      "Pattern comparison showing architectural differences"
  ; SampleQuery.Build_t
      "What are the main challenges facing GenAI?"
      "MATCH (challenge)-[r:CHALLENGE_FOR]->(genai:Concept {label: 'Generative AI'})
RETURN challenge.label as Challenge, challenge.description as Description, r.severity as Severity
ORDER BY r.severity DESC"
      "Relationship properties used for filtering and sorting" ].

Definition sampleGraphData : GraphData.t :=
  GraphData.Build_t sampleNodes sampleRelationships.

(* ================================================================== *)
(** * lib/utils.ts *)
(* ================================================================== *)

Module Utils.

(** What an async generator does, in order: it waits on a timer or hands
    a chunk to its consumer. *)
Inductive StreamEvent : Type :=
| Wait (delayMs : Z)
| Yield (chunk : string).

(** The chunk of iteration [i]:
    [words[i] + (i < words.length - 1 ? ' ' : '')]. *)
Definition chunk (words : list string) (i : nat) : string :=
  (nth i words EmptyString ++
   (if (i <? List.length words - 1)%nat then " " else EmptyString))%string.

(** The loop [for (let i = 0; i < words.length; i++)] started at [i],
    with [n] iterations left. *)
Fixpoint streamLoop (words : list string) (delayMs : Z) (i n : nat) : list StreamEvent :=
  match n with
  | O => []
  | S n' => Wait delayMs :: Yield (chunk words i) :: streamLoop words delayMs (S i) n'
  end.

(** [streamText(text, delayMs)]: the trace of the generator run to its
    end. *)
Definition streamText (text : string) (delayMs : Z) : list StreamEvent :=
  let words := JS.split " " text in
  streamLoop words delayMs 0 (List.length words).

(** The chunks a consumer receives, in order. *)
Fixpoint yielded (trace : list StreamEvent) : list string :=
  match trace with
  | [] => []
  | Wait _ :: rest => yielded rest
  | Yield c :: rest => c :: yielded rest
  end.

(** [let s = ''; for await (const c of g) s += c]. *)
Definition collect (trace : list StreamEvent) : string :=
  fold_left (fun acc c => (acc ++ c)%string) (yielded trace) EmptyString.


(** ** [formatCypherQuery] *)

(** [/(MATCH|WHERE|RETURN|CREATE|WITH|ORDER BY|LIMIT)/g]. *)
Definition keyword : RegExp.Matcher :=
  RegExp.alternatives
    (map RegExp.literal ["MATCH"; "WHERE"; "RETURN"; "CREATE"; "WITH"; "ORDER BY"; "LIMIT"]).

(** [/(\([a-z]+:[A-Z][a-zA-Z]+\))/g]. *)
Definition labelledNode : RegExp.Matcher :=
  RegExp.sequence
    [ RegExp.char "("; RegExp.plus RegExp.isLower; RegExp.char ":";
      RegExp.oneOf RegExp.isUpper; RegExp.plus RegExp.isLetter; RegExp.char ")" ].

(** [/(\{[^}]+\})/g]. *)
Definition propertyMap : RegExp.Matcher :=
  RegExp.sequence
    [ RegExp.char "{"; RegExp.plus (fun c => negb (Ascii.eqb c "}")); RegExp.char "}" ].

(** The opening tag of a span of a class, and the closing tag. *)
Definition spanOpen (className : string) : string :=
  ("<span class=" ++ JS.dquote ++ className ++ JS.dquote ++ ">")%string.

Definition spanClose : string := "</span>".

(** [formatCypherQuery(query)]: the three replacements, each on the
    result of the one before. *)
Definition formatCypherQuery (query : string) : string :=
  RegExp.replaceAll propertyMap (spanOpen "text-neo4j-purple") spanClose
    (RegExp.replaceAll labelledNode (spanOpen "text-neo4j-green") spanClose
       (RegExp.replaceAll keyword (spanOpen "text-neo4j-blue font-semibold") spanClose
          query)).

End Utils.

(* ================================================================== *)
(** * lib/utils.ts: [debounce] *)
(* ================================================================== *)

Module Debounce.
Section WithArguments.

(** The arguments [func] is called with. *)
Variable Args : Type.

(** A pending timer of the host: its handle, when it is due, and the
    arguments its callback [() => func(...args)] holds. *)
Record Timer : Type := Build_Timer
  { handle : positive;
    due : N;
    args : Args }.

(** The variable [timeout] of the closure, the timers of the host (a
    handle is a positive number, never given out twice), its clock, and
    the calls of [func] made so far, each with its time. *)
Record State : Type := Build_State
  { timeout : option positive;
    nextHandle : positive;
    now : N;
    timers : list Timer;
    calls : list (N * Args) }.

(** [let timeout = null], no timer pending. *)
Definition initial : State := Build_State None 1 0 [] [].

(** [clearTimeout(h)]: the timer of that handle, if it is pending, is
    dropped. *)
Definition clearTimeout (h : positive) (st : State) : State :=
  Build_State (timeout st) (nextHandle st) (now st)
    (filter (fun tm => negb (Pos.eqb (handle tm) h)) (timers st)) (calls st).

(** The function that [debounce(func, waitMs)] returns, called with [a]:
    [if (timeout) clearTimeout(timeout);
     timeout = setTimeout(() => func(...args), waitMs)]. *)
Definition debounced (waitMs : N) (a : Args) (st : State) : State :=
  let st1 := match timeout st with
             | Some h => clearTimeout h st
             | None => st
             end in
  let h := nextHandle st1 in
  Build_State (Some h) (Pos.succ h) (now st1)
    (timers st1 ++ [Build_Timer h (now st1 + waitMs)%N a]) (calls st1).

(** The timer to fire next: the earliest due, the first set among
    equals; and the timers left. *)
Fixpoint popEarliest (ts : list Timer) : option (Timer * list Timer) :=
  match ts with
  | [] => None
  | t :: rest =>
      match popEarliest rest with
      | None => Some (t, [])
      | Some (m, rest') =>
          if (due m <? due t)%N then Some (m, t :: rest') else Some (t, rest)
      end
  end.

(** A timer fires: [func(...args)] is called. *)
Definition fireTimer (tm : Timer) (rest : list Timer) (st : State) : State :=
  let t := N.max (now st) (due tm) in
  Build_State (timeout st) (nextHandle st) t rest (calls st ++ [(t, args tm)]).

(** The timers due by [t] fire, in order; a callback sets no timer, so
    there are as many turns at most as timers pending. *)
Fixpoint fireDue (turns : nat) (t : N) (st : State) : State :=
  match turns with
  | O => st
  | S turns' =>
      match popEarliest (timers st) with
      | Some (tm, rest) =>
          if (due tm <=? t)%N then fireDue turns' t (fireTimer tm rest st) else st
      | None => st
      end
  end.

(** Let the clock reach [t]. *)
Definition advance (t : N) (st : State) : State :=
  let st' := fireDue (List.length (timers st)) t st in
  Build_State (timeout st') (nextHandle st') (N.max (now st') t) (timers st') (calls st').

(** Let every pending timer fire. *)
Fixpoint settleLoop (turns : nat) (st : State) : State :=
  match turns with
  | O => st
  | S turns' =>
      match popEarliest (timers st) with
      | Some (tm, rest) => settleLoop turns' (fireTimer tm rest st)
      | None => st
      end
  end.

Definition settle (st : State) : State := settleLoop (List.length (timers st)) st.

(** The calls of the debounced function of a schedule, each at its
    time, the timers due by then fired first. *)
Fixpoint run (waitMs : N) (schedule : list (N * Args)) (st : State) : State :=
  match schedule with
  | [] => st
  | (t, a) :: rest => run waitMs rest (debounced waitMs a (advance t st))
  end.

End WithArguments.

Arguments Build_Timer {Args}.
Arguments handle {Args}.
Arguments due {Args}.
Arguments args {Args}.
Arguments Build_State {Args}.
Arguments timeout {Args}.
Arguments nextHandle {Args}.
Arguments now {Args}.
Arguments timers {Args}.
Arguments calls {Args}.
Arguments initial {Args}.
Arguments clearTimeout {Args}.
Arguments debounced {Args}.
Arguments popEarliest {Args}.
Arguments fireTimer {Args}.
Arguments fireDue {Args}.
Arguments advance {Args}.
Arguments settleLoop {Args}.
Arguments settle {Args}.
Arguments run {Args}.

End Debounce.

(* ================================================================== *)
(** * App.tsx *)
(* ================================================================== *)

Module App.

(** The table [responses] of [generateResponse]. *)
Definition responses : list (string * string) :=
  [ ("How does GraphRAG improve AI accuracy?",
     "GraphRAG significantly improves AI accuracy by leveraging graph databases to provide relationship-aware context to language models. Unlike traditional RAG systems that retrieve isolated documents, GraphRAG understands how entities are connected. This enables the AI to:

1. Follow multi-hop relationships to find relevant context
2. Understand semantic connections between concepts
3. Provide citations that show the reasoning path
4. Reduce hallucinations by grounding responses in structured knowledge

The graph structure naturally encodes the relationships that make responses more accurate and explainable.")
  ; ("What companies use Neo4j and for what purpose?",
     "Several leading organizations use Neo4j for mission-critical applications:

NASA uses Neo4j for mission planning and resource optimization, which helped them reach Mars 2 years earlier than originally planned. The graph database's ability to model complex relationships between resources, schedules, and constraints was essential.

The International Consortium of Investigative Journalists (ICIJ) used Neo4j to break the Panama Papers story, uncovering hidden financial networks by traversing relationships between shell companies, individuals, and transactions.

These use cases demonstrate how graph databases excel at revealing patterns in highly connected data.")
  ; ("How is GraphRAG different from regular RAG?",
     "GraphRAG enhances traditional RAG by replacing or augmenting vector databases with graph databases:

Traditional RAG typically uses vector databases for similarity-based retrieval, which finds semantically similar documents but doesn't capture relationships between entities.

GraphRAG uses Neo4j's graph structure to:
- Query with Cypher for precise pattern matching
- Traverse relationships to find multi-hop context
- Understand how entities are connected
- Provide transparent reasoning paths

While vector databases are great for similarity search, they miss the semantic relationships that graphs naturally encode. The ideal architecture often combines both: vectors for similarity, graphs for relationships.")
  ; ("What are the main challenges facing GenAI?",
     "Generative AI faces several critical challenges that graph databases help address:

1. **Response Accuracy**: LLMs tend to hallucinate or generate plausible-sounding but incorrect information. GraphRAG grounds responses in factual, structured knowledge from the graph.

2. **AI Explainability**: Understanding how an AI arrived at a conclusion is crucial for trust and compliance. Graphs provide transparent reasoning paths by showing the relationships traversed to generate a response.

3. **Contextual Understanding**: Comprehending complex relationships between entities is difficult for traditional approaches. Graphs naturally encode context through their relationship structure.

These challenges are especially severe in regulated industries where accuracy and explainability are mandatory.") ].

(** The fallback sentence of the generic answer. *)
Definition interconnected : string :=
  "These concepts are interconnected in the graph, showing how they relate to your question.".

(** The answer of [generateResponse] for an empty list of sources. *)
Definition noInformation (query : string) : string :=
  ("I searched the knowledge graph but couldn't find specific information about "
   ++ JS.dquote ++ query ++ JS.dquote
   ++ ". The graph contains information about GenAI, graph databases, and their real-world applications. Try asking about GraphRAG, Neo4j use cases, or how graphs improve AI accuracy.")%string.

(** [sources[0].properties.description || '...'], rendered by the
    template literal. *)
Definition descriptionOr (first : GraphNode.t) : string :=
  match JS.get (GraphNode.properties first) "description" with
  | Some v => if JS.truthy v then JS.toString v else interconnected
  | None => interconnected
  end.

(** The generic answer of [generateResponse] (lines 298-304). *)
Definition genericResponse (query : string) (sources : list GraphNode.t) : string :=
  match sources with
  | [] => noInformation query
  | first :: _ =>
      let sourceNames := JS.join ", " (map GraphNode.label sources) in
      ("Based on the knowledge graph, I found relevant information in " ++ sourceNames
       ++ ". " ++ descriptionOr first
       ++ " The graph structure helps me understand these relationships and provide more accurate, explainable responses.")%string
  end.

(** [generateResponse(query, sources, matchingQuery)]. *)
Definition generateResponse (query : string) (sources : list GraphNode.t)
    (matchingQuery : option SampleQuery.t) : string :=
  match matchingQuery with
  | Some q =>
      match find (fun entry => JS.includes (SampleQuery.natural q) (fst entry)) responses with
      | Some matchingResponse => snd matchingResponse
      | None => genericResponse query sources
      end
  | None => genericResponse query sources
  end.

Section WithLowerCase.

(** [String.prototype.toLowerCase]. *)
Variable toLowerCase : string -> string.

(** [`${node.label} ${JSON.stringify(node.properties)}`.toLowerCase()]. *)
Definition nodeText (node : GraphNode.t) : string :=
  toLowerCase (GraphNode.label node ++ " "
               ++ JS.JSON_stringify (JS.JsObject (GraphNode.properties node)))%string.

(** [keyword.length > 3 && nodeText.includes(keyword)]. *)
Definition keywordHits (text keyword : string) : bool :=
  (3 <? String.length keyword)%nat && JS.includes text keyword.

(** The predicate given to [filter]. *)
Definition nodeMatches (keywords : list string) (node : GraphNode.t) : bool :=
  JS.some (keywordHits (nodeText node)) keywords.

(** [simulateGraphRetrieval(query, graphData)], the value its promise
    resolves to (the 500 ms wait is a timer of the event loop below). *)
Definition simulateGraphRetrieval (query : string) (graphData : GraphData.t)
    : list GraphNode.t :=
  let keywords := JS.split " " (toLowerCase query) in
  JS.slice0 3 (filter (nodeMatches keywords) (GraphData.nodes graphData)).

(** [q.natural.toLowerCase().split(' ').slice(0, 3).join(' ').toLowerCase()]. *)
Definition firstThreeWords (q : SampleQuery.t) : string :=
  toLowerCase (JS.join " " (JS.slice0 3 (JS.split " " (toLowerCase (SampleQuery.natural q))))).

(** [sampleQueries.find(q => content.toLowerCase().includes(...))]. *)
Definition findMatchingQuery (content : string) : option SampleQuery.t :=
  find (fun q => JS.includes (toLowerCase content) (firstThreeWords q)) sampleQueries.

(** [matchingQuery?.cypher]. *)
Definition cypherOf (matchingQuery : option SampleQuery.t) : option string :=
  option_map SampleQuery.cypher matchingQuery.

(** ** The component state and the event loop *)

(** [const [graphData] = useState(sampleGraphData)]: never set again. *)
Variable graphData : GraphData.t.

(** The suspended continuations of [handleSendMessage], one per timer it
    waits on, and the callback of line 110. *)
Inductive Task : Type :=
| AfterProcessingDelay (content : string)
| AfterRetrievalDelay (content : string) (matchingQuery : option SampleQuery.t)
| StreamNext (assistantId : string) (words : list string) (i : nat) (streamedContent : string)
| ClearHighlights.

Record World : Type := Build_World
  { messages : list Message.t;
    selectedNode : option GraphNode.t;
    highlightedNodes : list string;
    isLoading : bool;
    now : N;
    timers : list (N * Task) }.

Definition initialWorld : World := Build_World [] None [] false 0%N [].

Definition setMessages (f : list Message.t -> list Message.t) (w : World) : World :=
  Build_World (f (messages w)) (selectedNode w) (highlightedNodes w) (isLoading w)
    (now w) (timers w).

Definition setSelectedNode (n : option GraphNode.t) (w : World) : World :=
  Build_World (messages w) n (highlightedNodes w) (isLoading w) (now w) (timers w).

Definition setHighlightedNodes (h : list string) (w : World) : World :=
  Build_World (messages w) (selectedNode w) h (isLoading w) (now w) (timers w).

Definition setIsLoading (b : bool) (w : World) : World :=
  Build_World (messages w) (selectedNode w) (highlightedNodes w) b (now w) (timers w).

Definition setNow (t : N) (w : World) : World :=
  Build_World (messages w) (selectedNode w) (highlightedNodes w) (isLoading w) t (timers w).

Definition setTimers (ts : list (N * Task)) (w : World) : World :=
  Build_World (messages w) (selectedNode w) (highlightedNodes w) (isLoading w) (now w) ts.

(** [setTimeout(k, delay)]: a timer due [delay] ms from now. *)
Definition setTimeout (k : Task) (delay : N) (w : World) : World :=
  setTimers (timers w ++ [((now w + delay)%N, k)]) w.

(** [`msg-${Date.now()}`] and [`msg-${Date.now()}-assistant`]. *)
Definition userId (t : N) : string := ("msg-" ++ JS.string_of_N t)%string.
Definition assistantId (t : N) : string :=
  ("msg-" ++ JS.string_of_N t ++ "-assistant")%string.

(** [msg.id === id ? { ...msg, content } : msg]. *)
Definition withContent (id content : string) (msg : Message.t) : Message.t :=
  if String.eqb (Message.id msg) id then
    Message.Build_t (Message.id msg) (Message.role msg) content (Message.timestamp msg)
      (Message.sources msg) (Message.cypherQuery msg) (Message.isStreaming msg)
  else msg.

(** [msg.id === id ? { ...msg, isStreaming: false } : msg]. *)
Definition streamingDone (id : string) (msg : Message.t) : Message.t :=
  if String.eqb (Message.id msg) id then
    Message.Build_t (Message.id msg) (Message.role msg) (Message.content msg)
      (Message.timestamp msg) (Message.sources msg) (Message.cypherQuery msg) (Some false)
  else msg.

(** The head of the loop [for await (const chunk of streamText(...))]
    with the generator at index [i]: it waits 30 ms for the chunk, or,
    the generator being done, runs lines 100-110. *)
Definition continueStream (id : string) (words : list string) (i : nat)
    (streamedContent : string) (w : World) : World :=
  if (i <? List.length words)%nat then
    setTimeout (StreamNext id words i streamedContent) 30 w
  else
    setTimeout ClearHighlights 3000 (setMessages (map (streamingDone id)) w).

(** What a timer runs when it fires: the continuation up to its next
    wait. *)
Definition fire (k : Task) (w : World) : World :=
  match k with
  | AfterProcessingDelay content =>
      (* lines 59-67, up to the wait inside simulateGraphRetrieval *)
      setTimeout (AfterRetrievalDelay content (findMatchingQuery content)) 500 w
  | AfterRetrievalDelay content matchingQuery =>
      (* lines 228-234, then 69-89 *)
      let relevantNodes := simulateGraphRetrieval content graphData in
      let w1 := setHighlightedNodes (map GraphNode.id relevantNodes) w in
      let responseText := generateResponse content relevantNodes matchingQuery in
      let assistantMessage :=
        Message.Build_t (assistantId (now w)) assistant EmptyString (now w)
          (Some relevantNodes) (cypherOf matchingQuery) (Some true) in
      let w2 := setIsLoading false
                  (setMessages (fun prev => prev ++ [assistantMessage]) w1) in
      continueStream (Message.id assistantMessage) (JS.split " " responseText) 0
        EmptyString w2
  | StreamNext id words i streamedContent =>
      (* utils.ts line 16, then App.tsx lines 90-97 *)
      let streamedContent' := (streamedContent ++ Utils.chunk words i)%string in
      continueStream id words (S i) streamedContent'
        (setMessages (map (withContent id streamedContent')) w)
  | ClearHighlights => setHighlightedNodes [] w
  end.

(** [handleSendMessage(content)] up to its first wait (lines 46-57). *)
Definition handleSendMessage (content : string) (w : World) : World :=
  let userMessage :=
    Message.Build_t (userId (now w)) user content (now w) None None None in
  setTimeout (AfterProcessingDelay content) 800
    (setIsLoading true (setMessages (fun prev => prev ++ [userMessage]) w)).

(** [handleNodeSelect(node)]. *)
Definition handleNodeSelect (node : option GraphNode.t) (w : World) : World :=
  match node with
  | Some n => setHighlightedNodes [GraphNode.id n] (setSelectedNode node w)
  | None => setHighlightedNodes [] (setSelectedNode node w)
  end.

(** [handleSourceClick(node)]. *)
Definition handleSourceClick (node : GraphNode.t) (w : World) : World :=
  setHighlightedNodes [GraphNode.id node] (setSelectedNode (Some node) w).

(** [selectedNode?.id === d.id]. *)
Definition isSelected (d : GraphNode.t) (w : World) : bool :=
  match selectedNode w with
  | Some s => String.eqb (GraphNode.id s) (GraphNode.id d)
  | None => false
  end.

(** The click handler of a node circle in GraphVisualization:
    [onNodeSelect(selectedNode?.id === d.id ? null : d)]. *)
Definition clickNode (d : GraphNode.t) (w : World) : World :=
  handleNodeSelect (if isSelected d w then None else Some d) w.

(** What the user can do. *)
Inductive UserEvent : Type :=
| SendMessage (content : string)
| ClickNode (d : GraphNode.t)
| ClickBackground
| ClickSource (node : GraphNode.t)
| ClickConnected (node : GraphNode.t)
| ClosePanel.

(** The handler of each: [handleSendMessage] (chat box, sample query),
    the click on a node circle, [onNodeSelect(null)] (background),
    [handleSourceClick], [handleNodeSelect] (a connected node in the
    details panel), [setSelectedNode(null)] (the panel's close). *)
Definition handle (e : UserEvent) (w : World) : World :=
  match e with
  | SendMessage content => handleSendMessage content w
  | ClickNode d => clickNode d w
  | ClickBackground => handleNodeSelect None w
  | ClickSource node => handleSourceClick node w
  | ClickConnected node => handleNodeSelect (Some node) w
  | ClosePanel => setSelectedNode None w
  end.

(** The timer to fire next: the earliest due, the first set among equals;
    and the timers left. *)
Fixpoint popEarliest (ts : list (N * Task)) : option ((N * Task) * list (N * Task)) :=
  match ts with
  | [] => None
  | t :: rest =>
      match popEarliest rest with
      | None => Some (t, [])
      | Some (m, rest') =>
          if (fst m <? fst t)%N then Some (m, t :: rest') else Some (t, rest)
      end
  end.

(** One turn of the event loop on a timer. *)
Definition fireTimer (due : N) (k : Task) (rest : list (N * Task)) (w : World) : World :=
  fire k (setTimers rest (setNow (N.max (now w) due) w)).

(** Let the clock reach [t]: every timer due by then fires, in order. *)
Fixpoint advance (fuel : nat) (t : N) (w : World) : option World :=
  match popEarliest (timers w) with
  | Some ((due, k), rest) =>
      if (due <=? t)%N then
        match fuel with
        | O => None
        | S fuel' => advance fuel' t (fireTimer due k rest w)
        end
      else Some (setNow (N.max (now w) t) w)
  | None => Some (setNow (N.max (now w) t) w)
  end.

(** Let every pending timer fire, until none is left. *)
Fixpoint drain (fuel : nat) (w : World) : option World :=
  match popEarliest (timers w) with
  | Some ((due, k), rest) =>
      match fuel with
      | O => None
      | S fuel' => drain fuel' (fireTimer due k rest w)
      end
  | None => Some w
  end.

(** The user events of a schedule, each at its time, the timers due
    before it fired first. *)
Fixpoint run (fuel : nat) (schedule : list (N * UserEvent)) (w : World) : option World :=
  match schedule with
  | [] => Some w
  | (t, e) :: rest =>
      match advance fuel t w with
      | Some w' => run fuel rest (handle e w')
      | None => None
      end
  end.

(** A session from the initial state: the schedule, then the timers
    left, until none is pending. *)
Definition session (fuel : nat) (schedule : list (N * UserEvent)) : option World :=
  match run fuel schedule initialWorld with
  | Some w => drain fuel w
  | None => None
  end.

End WithLowerCase.

End App.

(* ================================================================== *)
(** * The force layout *)
(* ================================================================== *)

Module Layout.

(** The state of a simulation: the cooling temperature and the nodes
    (the objects of [data.nodes]) with their positions, velocities and
    pins. *)
Record Simulation : Type := Build_Simulation
  { alpha : Q;
    nodes : list GraphNode.t }.

(** The settlement threshold. *)
Definition alphaMin : Q := 1 # 1000.

(** An absent coordinate reads as 0. *)
Definition num (o : option Q) : Q :=
  match o with
  | Some q => q
  | None => 0
  end.

(** The dragged node is the array element itself: a handler applied to
    the node at index [i]. *)
Fixpoint updateAt (i : nat) (f : GraphNode.t -> GraphNode.t) (ns : list GraphNode.t)
    : list GraphNode.t :=
  match ns, i with
  | [], _ => []
  | d :: rest, O => f d :: rest
  | d :: rest, S i' => d :: updateAt i' f rest
  end.

Section Forces.

(** The net force on a node from the link, repulsion, centering and
    collision forces, given all the nodes. *)
Variable netForce : list GraphNode.t -> GraphNode.t -> Q * Q.

(** The fixed decay rate of [alpha]. *)
Variable decayRate : Q.

(** Modelled from the spec: the integration of one node in a tick, which
    is code of d3 and not of the sources ("integrate velocity
    (v += force * alpha) and position (x += v); for any node with a
    pinned position, overwrite x,y with the pin and zero v after
    integration").  The pin is the pair of fields [fx], [fy] the drag
    handlers write, read per coordinate. *)
Definition integrate (a : Q) (all : list GraphNode.t) (d : GraphNode.t) : GraphNode.t :=
  let f := netForce all d in
  let vx := num (GraphNode.vx d) + fst f * a in
  let vy := num (GraphNode.vy d) + snd f * a in
  let x := num (GraphNode.x d) + vx in
  let y := num (GraphNode.y d) + vy in
  let '(x', vx') := match GraphNode.fx d with Some px => (px, 0) | None => (x, vx) end in
  let '(y', vy') := match GraphNode.fy d with Some py => (py, 0) | None => (y, vy) end in
  GraphNode.Build_t (GraphNode.id d) (GraphNode.label d) (GraphNode.type d)
    (GraphNode.properties d) (Some x') (Some y') (Some vx') (Some vy')
    (GraphNode.fx d) (GraphNode.fy d).

(** Modelled from the spec: [tick], which is code of d3 and not of the
    sources ("decrement-decay alpha by a fixed rate
    (alpha *= 1 - decayRate); compute net force per node from all four
    forces; integrate"). *)
Definition tick (s : Simulation) : Simulation :=
  let a := alpha s * (1 - decayRate) in
  Build_Simulation a (map (integrate a (nodes s)) (nodes s)).

(** [n] ticks in a row. *)
Fixpoint ticks (n : nat) (s : Simulation) : Simulation :=
  match n with
  | O => s
  | S n' => ticks n' (tick s)
  end.

(** Modelled from the spec: "continue ticking until alpha < alphaMin
    (settled)": the number of ticks run, [None] when [fuel] ticks do not
    settle the simulation. *)
Fixpoint ticksToSettle (fuel : nat) (s : Simulation) : option nat :=
  if Qlt_le_dec (alpha s) alphaMin then Some O
  else match fuel with
       | O => None
       | S fuel' => option_map S (ticksToSettle fuel' (tick s))
       end.

End Forces.

(** Modelled from the spec: [simulation.alphaTarget(0.3).restart()],
    which is code of d3 and not of the sources ("a drag starts (alpha
    reheated to 0.3)"). *)
Definition reheat (s : Simulation) : Simulation :=
  Build_Simulation (3 # 10) (nodes s).

(** Modelled from the spec: [createLayout(store)], "initializes
    position/velocity for all nodes, alpha = 1.0"; the placement of the
    nodes is left to [place]. *)
Definition createLayout (place : nat -> GraphNode.t -> GraphNode.t) (store : GraphData.t)
    : Simulation :=
  Build_Simulation 1
    (map (fun indexed => place (fst indexed) (snd indexed))
         (combine (seq 0 (List.length (GraphData.nodes store))) (GraphData.nodes store))).

End Layout.

(* ================================================================== *)
(** * components/GraphVisualization.tsx *)
(* ================================================================== *)

Module GraphVisualization.

(** ** The link force of d3 as the effect uses it

    [d3.forceLink(data.relationships).id(d => d.id)], once given to the
    simulation by [.force('link', ...)], initializes its links: every
    [source] and [target] that is not an object is replaced by the node
    object of that id.  The relationships are the objects of
    [data.relationships] themselves, so the effect reads them afterwards
    in this state (the tick handler of lines 168-180 reads
    [d.source.x]). *)

(** [nodeById.get(nodeId)], the map built from the nodes in order (the
    last node of an id wins). *)
Definition nodeById (nodes : list GraphNode.t) (nodeId : string) : option GraphNode.t :=
  find (fun n => String.eqb (GraphNode.id n) nodeId) (rev nodes).

(** [if (typeof link.source !== "object") link.source = find(nodeById, link.source)];
    [None] when [find] throws (node not found). *)
Definition resolve (nodes : list GraphNode.t) (e : Endpoint) : option Endpoint :=
  match e with
  | EndNode n => Some (EndNode n)
  | EndId nodeId => option_map EndNode (nodeById nodes nodeId)
  end.

(** The initialization of one link: both endpoints resolved. *)
Definition initializeLink (nodes : list GraphNode.t) (link : GraphRelationship.t)
    : option GraphRelationship.t :=
  match resolve nodes (GraphRelationship.source link),
        resolve nodes (GraphRelationship.target link) with
  | Some s, Some t =>
      Some (GraphRelationship.Build_t (GraphRelationship.id link) s t
              (GraphRelationship.type link) (GraphRelationship.properties link))
  | _, _ => None
  end.

(** The initialization of the links, in order; it throws at the first
    link with an endpoint that is the id of no node. *)
Fixpoint initializeLinks (nodes : list GraphNode.t) (links : list GraphRelationship.t)
    : option (list GraphRelationship.t) :=
  match links with
  | [] => Some []
  | link :: rest =>
      match initializeLink nodes link, initializeLinks nodes rest with
      | Some l, Some ls => Some (l :: ls)
      | _, _ => None
      end
  end.

(** ** Drawing the relationships (lines 88-107) *)

(** [highlightedNodes.includes(d.source as string)]: the cast changes no
    value, and [includes] compares with strict equality, under which a
    string and a node object are never equal. *)
Definition includesEndpoint (highlightedNodes : list string) (e : Endpoint) : bool :=
  match e with
  | EndId nodeId => JS.array_includes highlightedNodes nodeId
  | EndNode _ => false
  end.

(** The condition of the three attributes. *)
Definition linkHighlighted (highlightedNodes : list string) (d : GraphRelationship.t) : bool :=
  includesEndpoint highlightedNodes (GraphRelationship.source d)
  && includesEndpoint highlightedNodes (GraphRelationship.target d).

(** The attributes [stroke], [stroke-width] and [stroke-opacity] of the
    line of [d]. *)
Definition stroke (highlightedNodes : list string) (d : GraphRelationship.t) : string :=
  if linkHighlighted highlightedNodes d then "#008CC1" else "#cbd5e1".

Definition strokeWidth (highlightedNodes : list string) (d : GraphRelationship.t) : Q :=
  if linkHighlighted highlightedNodes d then 3 else 3 # 2.

Definition strokeOpacity (highlightedNodes : list string) (d : GraphRelationship.t) : Q :=
  if (List.length highlightedNodes =? 0)%nat || linkHighlighted highlightedNodes d
  then 6 # 10 else 1 # 10.

(** One run of the effect (lines 58-207): nothing is done for an empty
    node list (line 59); otherwise the simulation is created (lines
    79-85), which initializes the links, then the lines are drawn with
    their strokes (lines 88-96).  The run returns the data as it leaves
    them, for the relationships are the objects of [data.relationships]
    that the next run is given again, and the lines drawn; [None] when
    the link force throws. *)
Definition runEffect (data : GraphData.t) (highlightedNodes : list string)
    : option (GraphData.t * list (GraphRelationship.t * string)) :=
  match GraphData.nodes data with
  | [] => Some (data, [])
  | _ :: _ =>
      match initializeLinks (GraphData.nodes data) (GraphData.relationships data) with
      | Some links =>
          Some (GraphData.Build_t (GraphData.nodes data) links,
                map (fun d => (d, stroke highlightedNodes d)) links)
      | None => None
      end
  end.

(** The lines drawn by one run of the effect, each with its stroke. *)
Definition drawnLinks (data : GraphData.t) (highlightedNodes : list string)
    : option (list (GraphRelationship.t * string)) :=
  option_map snd (runEffect data highlightedNodes).

(** The stroke of the line of the relationship with id [relId]. *)
Definition strokeOf (drawn : list (GraphRelationship.t * string)) (relId : string)
    : option string :=
  option_map snd
    (find (fun ds => String.eqb (GraphRelationship.id (fst ds)) relId) drawn).

(** ** The drag handlers (lines 183-198)

    The dragged node [d] is the element of [data.nodes] the simulation
    moves: the node at some index [i].  [active] is [event.active]:
    another drag gesture is going on. *)

(** [d.fx = fx; d.fy = fy] ([None] is [null]). *)
Definition setPin (fx fy : option Q) (d : GraphNode.t) : GraphNode.t :=
  GraphNode.Build_t (GraphNode.id d) (GraphNode.label d) (GraphNode.type d)
    (GraphNode.properties d) (GraphNode.x d) (GraphNode.y d) (GraphNode.vx d)
    (GraphNode.vy d) fx fy.

(** [if (!event.active) simulation.alphaTarget(0.3).restart();
     d.fx = d.x; d.fy = d.y]. *)
Definition dragstarted (active : bool) (i : nat) (s : Layout.Simulation)
    : Layout.Simulation :=
  let s' := if active then s else Layout.reheat s in
  Layout.Build_Simulation (Layout.alpha s')
    (Layout.updateAt i (fun d => setPin (GraphNode.x d) (GraphNode.y d) d)
       (Layout.nodes s')).

(** [d.fx = event.x; d.fy = event.y]. *)
Definition dragged (eventX eventY : Q) (i : nat) (s : Layout.Simulation)
    : Layout.Simulation :=
  Layout.Build_Simulation (Layout.alpha s)
    (Layout.updateAt i (setPin (Some eventX) (Some eventY)) (Layout.nodes s)).

(** [if (!event.active) simulation.alphaTarget(0); d.fx = null;
     d.fy = null]: the target 0 leaves [alpha] to its decay. *)
Definition dragended (active : bool) (i : nat) (s : Layout.Simulation)
    : Layout.Simulation :=
  Layout.Build_Simulation (Layout.alpha s)
    (Layout.updateAt i (setPin None None) (Layout.nodes s)).


(** ** Drawing the nodes and the labels of the relationships *)

(** [nodeColors]. *)
Definition nodeColors (t : NodeType) : string :=
  match t with
  | Person => "#FF6B6B"
  | Company => "#4ECDC4"
  | Technology => "#008CC1"
  | Concept => "#9C27B0"
  | Document => "#95E1D3"
  end.

(** [selectedNode?.id === d.id]. *)
Definition isSelectedNode (selectedNode : option GraphNode.t) (d : GraphNode.t) : bool :=
  match selectedNode with
  | Some s => String.eqb (GraphNode.id s) (GraphNode.id d)
  | None => false
  end.

(** The attributes [r], [stroke] and [stroke-width] of the circle of
    [d] (lines 138-141). *)
Definition radius (selectedNode : option GraphNode.t) (d : GraphNode.t) : Q :=
  if isSelectedNode selectedNode d then 28 else 20.

Definition circleStroke (selectedNode : option GraphNode.t) (d : GraphNode.t) : string :=
  if isSelectedNode selectedNode d then "#1e293b" else "#fff".

Definition circleStrokeWidth (selectedNode : option GraphNode.t) (d : GraphNode.t) : Q :=
  if isSelectedNode selectedNode d then 3 else 2.

(** The attribute [opacity] of the circle and of the label of [d]
    (lines 142-144 and 155-157). *)
Definition nodeOpacity (highlightedNodes : list string) (d : GraphNode.t) : Q :=
  if (List.length highlightedNodes =? 0)%nat
     || JS.array_includes highlightedNodes (GraphNode.id d)
  then 1 else 2 # 10.

(** The attribute [opacity] of the label of a relationship (lines
    118-123). *)
Definition linkLabelOpacity (highlightedNodes : list string) (d : GraphRelationship.t) : Q :=
  if (List.length highlightedNodes =? 0)%nat || linkHighlighted highlightedNodes d
  then 7 # 10 else 0.

End GraphVisualization.

(* ================================================================== *)
(** * components/NodeDetailsPanel.tsx *)
(* ================================================================== *)

Module NodeDetailsPanel.

Inductive Direction : Type := outgoing | incoming.

(** An entry of [connectedNodes]. *)
Module Connected.
Record t : Type := Build_t
  { node : option GraphNode.t;
    relationship : GraphRelationship.t;
    direction : Direction }.
End Connected.

(** [rel.source === node.id]: the strict equality of an endpoint with a
    string, which no node object passes. *)
Definition endpointIs (e : Endpoint) (nodeId : string) : bool :=
  match e with
  | EndId s => String.eqb s nodeId
  | EndNode _ => false
  end.

(** [graphData.relationships.filter(rel => rel.source === node.id ||
    rel.target === node.id)]. *)
Definition connections (node : GraphNode.t) (graphData : GraphData.t)
    : list GraphRelationship.t :=
  filter (fun rel => endpointIs (GraphRelationship.source rel) (GraphNode.id node)
                     || endpointIs (GraphRelationship.target rel) (GraphNode.id node))
    (GraphData.relationships graphData).

(** [graphData.nodes.find(n => n.id === connectedId)]. *)
Definition findNode (graphData : GraphData.t) (connectedId : Endpoint) : option GraphNode.t :=
  find (fun n => endpointIs connectedId (GraphNode.id n)) (GraphData.nodes graphData).

(** One entry of [connections.map(rel => ...)] (lines 35-43). *)
Definition connect (node : GraphNode.t) (graphData : GraphData.t) (rel : GraphRelationship.t)
    : Connected.t :=
  let outward := endpointIs (GraphRelationship.source rel) (GraphNode.id node) in
  let connectedId :=
    if outward then GraphRelationship.target rel else GraphRelationship.source rel in
  Connected.Build_t (findNode graphData connectedId) rel
    (if outward then outgoing else incoming).

(** [connections.map(rel => ...).filter(c => c.node)]. *)
Definition connectedNodes (node : GraphNode.t) (graphData : GraphData.t) : list Connected.t :=
  filter (fun c => match Connected.node c with Some _ => true | None => false end)
    (map (connect node graphData) (connections node graphData)).

End NodeDetailsPanel.

(* ================================================================== *)
(** * components/ChatInterface.tsx *)
(* ================================================================== *)

Module ChatInterface.

(** [handleSubmit]: what [onSendMessage] is called with, when it is, and
    the input afterwards:
    [if (input.trim() && !isLoading) { onSendMessage(input.trim()); setInput('') }]. *)
Definition handleSubmit (input : string) (isLoading : bool) : option string * string :=
  if negb (String.eqb (JS.trim input) EmptyString) && negb isLoading
  then (Some (JS.trim input), EmptyString)
  else (None, input).

(** [handleKeyDown]: [if (e.key === 'Enter' && !e.shiftKey) handleSubmit(e)]. *)
Definition handleKeyDown (key : string) (shiftKey : bool) (input : string)
    (isLoading : bool) : option string * string :=
  if String.eqb key "Enter" && negb shiftKey then handleSubmit input isLoading
  else (None, input).

End ChatInterface.

(* ================================================================== *)
(** * components/QueryBuilder.tsx *)
(* ================================================================== *)

Module QueryBuilder.

(** The click on the sample query at [index]:
    [setSelectedQuery(selectedQuery === index ? null : index)]. *)
Definition toggle (selectedQuery : option nat) (index : nat) : option nat :=
  match selectedQuery with
  | Some i => if (i =? index)%nat then None else Some index
  | None => Some index
  end.

(** The button "Execute Query" of the sample query at [index], which is
    there when this query is the selected one: what [onQueryExecute] is
    called with, [query.natural]. *)
Definition execute (selectedQuery : option nat) (index : nat) : option string :=
  match selectedQuery with
  | Some i =>
      if (i =? index)%nat then option_map SampleQuery.natural (nth_error sampleQueries index)
      else None
  | None => None
  end.

End QueryBuilder.

(* ================================================================== *)
(** * Readings of the specification, to compare the sources with *)
(* ================================================================== *)

Module Spec.

(** Space, tab, line feed, vertical tab, form feed, carriage return. *)
Definition isWhitespace (c : ascii) : bool :=
  let n := nat_of_ascii c in
  ((n =? 32) || (n =? 9) || (n =? 10) || (n =? 11) || (n =? 12) || (n =? 13))%nat.

(** The whitespace-separated tokens of a string: the pieces between its
    whitespace characters. *)
Fixpoint whitespaceTokens (s : string) : list string :=
  match s with
  | EmptyString => [EmptyString]
  | String c rest =>
      if isWhitespace c then EmptyString :: whitespaceTokens rest
      else match whitespaceTokens rest with
           | w :: ws => String c w :: ws
           | [] => [String c EmptyString]
           end
  end.

(** The first-available description attribute of the retrieved nodes:
    the description of the first node, in order, that has one. *)
Fixpoint firstAvailableDescription (sources : list GraphNode.t) : option JS.JsValue :=
  match sources with
  | [] => None
  | n :: rest =>
      match JS.get (GraphNode.properties n) "description" with
      | Some v => if JS.truthy v then Some v else firstAvailableDescription rest
      | None => firstAvailableDescription rest
      end
  end.

End Spec.

(* ================================================================== *)
(** * Notions used to state the facts *)
(* ================================================================== *)

(** ** Tactics *)

(** Projections of an updated world, nothing else unfolded. *)
Ltac wsimpl :=
  cbn [App.timers App.now App.messages App.highlightedNodes App.selectedNode
       App.isLoading App.setTimeout App.setTimers App.setNow App.setMessages
       App.setIsLoading App.setHighlightedNodes App.setSelectedNode fst snd].

Ltac wsimpl_in H :=
  cbn [App.timers App.now App.messages App.highlightedNodes App.selectedNode
       App.isLoading App.setTimeout App.setTimers App.setNow App.setMessages
       App.setIsLoading App.setHighlightedNodes App.setSelectedNode fst snd] in H.

(** Each conjunct by evaluation. *)
Ltac evaluate :=
  cbv zeta; repeat match goal with |- _ /\ _ => split end; vm_compute; reflexivity.

Section Facts.

(** [String.prototype.toLowerCase]. *)
Variable toLowerCase : string -> string.

(** The graph of the application. *)
Variable graphData : GraphData.t.

(** The forces and the decay rate of the layout. *)
Variable netForce : list GraphNode.t -> GraphNode.t -> Q * Q.
Variable decayRate : Q.

Local Notation simulateGraphRetrieval := (App.simulateGraphRetrieval toLowerCase).
Local Notation nodeMatches := (App.nodeMatches toLowerCase).
Local Notation nodeText := (App.nodeText toLowerCase).
Local Notation findMatchingQuery := (App.findMatchingQuery toLowerCase).
Local Notation firstThreeWords := (App.firstThreeWords toLowerCase).
Local Notation fire := (App.fire toLowerCase graphData).
Local Notation fireTimer := (App.fireTimer toLowerCase graphData).
Local Notation handle := (App.handle).
Local Notation advance := (App.advance toLowerCase graphData).
Local Notation drain := (App.drain toLowerCase graphData).
Local Notation run := (App.run toLowerCase graphData).
Local Notation session := (App.session toLowerCase graphData).
Local Notation integrate := (Layout.integrate netForce).
Local Notation tick := (Layout.tick netForce decayRate).
Local Notation ticks := (Layout.ticks netForce decayRate).
Local Notation ticksToSettle := (Layout.ticksToSettle netForce decayRate).

(** The keywords of a query: the pieces of the lowercased query between
    its spaces. *)
Definition keywordsOf (query : string) : list string :=
  JS.split " " (toLowerCase query).

(** The matching nodes of the store, in the order of the store. *)
Definition matchingNodes (query : string) (store : GraphData.t) : list GraphNode.t :=
  filter (nodeMatches (keywordsOf query)) (GraphData.nodes store).

(** The answer stored for a sample question: the entry of [responses]
    whose key is the question. *)
Definition cannedAnswer (q : SampleQuery.t) : option string :=
  option_map snd
    (find (fun entry => String.eqb (fst entry) (SampleQuery.natural q)) App.responses).

(** A string of decimal digits. *)
Fixpoint allDigits (s : string) : bool :=
  match s with
  | EmptyString => true
  | String c rest =>
      let n := nat_of_ascii c in ((48 <=? n) && (n <=? 57))%nat && allDigits rest
  end.

(** The answer to a query, as [handleSendMessage] computes it. *)
Definition answerOf (content : string) : string :=
  App.generateResponse content
    (App.simulateGraphRetrieval toLowerCase content graphData)
    (App.findMatchingQuery toLowerCase content).

(** How many timers a pending task still stands for, itself included:
    the waits left of its handler and the highlight timeout. *)
Definition stepsOfTask (k : App.Task) : nat :=
  match k with
  | App.AfterProcessingDelay content =>
      3 + List.length (JS.split " " (answerOf content))
  | App.AfterRetrievalDelay content matchingQuery =>
      2 + List.length (JS.split " "
            (App.generateResponse content
               (App.simulateGraphRetrieval toLowerCase content graphData) matchingQuery))
  | App.StreamNext _ words i _ => 2 + (List.length words - S i)
  | App.ClearHighlights => 1
  end.

(** The timers still to fire, for the timers pending. *)
Definition pendingSteps (ts : list (N * App.Task)) : nat :=
  list_sum (map (fun tm => stepsOfTask (snd tm)) ts).

(** A conversation is a query sent at some millisecond, with the stage
    its handler has reached: waiting for the processing delay, waiting
    for the retrieval delay, waiting (until [due]) for the chunk of index
    [i] with [streamed] emitted so far, or done. *)
Inductive Phase : Type :=
| Processing
| Retrieving
| Streaming (due : N) (i : nat) (streamed : string)
| Done.

Record Conversation : Type := Build_Conversation
  { sentAt : N;
    query : string;
    phase : Phase }.

(** The id of the answer message of a conversation: it is made 1300 ms
    after the query is sent. *)
Definition answerId (c : Conversation) : string :=
  App.assistantId (sentAt c + 1300).

(** The words of its answer. *)
Definition wordsOf (c : Conversation) : list string :=
  JS.split " " (answerOf (query c)).

(** The timer a conversation waits on. *)
Definition timersOf (c : Conversation) : list (N * App.Task) :=
  match phase c with
  | Processing => [((sentAt c + 800)%N, App.AfterProcessingDelay (query c))]
  | Retrieving =>
      [((sentAt c + 1300)%N,
        App.AfterRetrievalDelay (query c) (App.findMatchingQuery toLowerCase (query c)))]
  | Streaming due i streamed =>
      [(due, App.StreamNext (answerId c) (wordsOf c) i streamed)]
  | Done => []
  end.

(** The chunks from index [i] on, concatenated. *)
Definition restOf (words : list string) (i : nat) : string :=
  String.concat "" (map (Utils.chunk words) (seq i (List.length words - i))).

(** The answer message of a conversation is there. *)
Definition hasAnswerMessage (msgs : list Message.t) (c : Conversation) : Prop :=
  exists m, In m msgs /\ Message.id m = answerId c /\ Message.role m = assistant.

(** What the messages hold for a conversation, by its stage. *)
Definition convOk (msgs : list Message.t) (c : Conversation) : Prop :=
  match phase c with
  | Processing | Retrieving => True
  | Streaming _ i streamed =>
      (i < List.length (wordsOf c))%nat
      /\ (streamed ++ restOf (wordsOf c) i)%string = answerOf (query c)
      /\ hasAnswerMessage msgs c
  | Done =>
      hasAnswerMessage msgs c
      /\ forall m, In m msgs -> Message.id m = answerId c ->
                   Message.content m = answerOf (query c)
  end.

(** The highlight timeouts due at the times [clears]. *)
Definition clearTimers (clears : list N) : list (N * App.Task) :=
  map (fun t => (t, App.ClearHighlights)) clears.

(** What holds of the world throughout a session: the queries were sent
    at different milliseconds; the pending timers are those of the
    conversations and the highlight timeouts; none is overdue; the
    messages hold what the stage of each conversation says. *)
Record Inv (convs : list Conversation) (clears : list N) (w : App.World) : Prop :=
  { inv_nodup : NoDup (map sentAt convs);
    inv_timers : Permutation (App.timers w) (flat_map timersOf convs ++ clearTimers clears);
    inv_future : Forall (fun tm => (App.now w <= fst tm)%N) (App.timers w);
    inv_convs : Forall (convOk (App.messages w)) convs }.

(** The queries of the conversations and when they were sent. *)
Definition sent (convs : list Conversation) : list (N * string) :=
  map (fun c => (sentAt c, query c)) convs.

(** The queries a user event sends at time [t]. *)
Definition sendsOf (t : N) (e : App.UserEvent) : list (N * string) :=
  match e with
  | App.SendMessage content => [(t, content)]
  | _ => []
  end.

(** The timers one query sets off: two delays, one wait per word of the
    answer, the highlight timeout. *)
Definition stepsOfQuery (content : string) : nat :=
  stepsOfTask (App.AfterProcessingDelay content).

(** The timers a user event sets off. *)
Definition eventSteps (e : App.UserEvent) : nat :=
  match e with
  | App.SendMessage content => stepsOfQuery content
  | _ => 0
  end.

(** The timers a whole schedule sets off. *)
Definition scheduleSteps (schedule : list (N * App.UserEvent)) : nat :=
  list_sum (map (fun te => eventSteps (snd te)) schedule).

(** The queries of a schedule, with their times. *)
Definition sends (schedule : list (N * App.UserEvent)) : list (N * string) :=
  flat_map (fun te => sendsOf (fst te) (snd te)) schedule.

(** A node pinned at [(px, py)]. *)
Definition pinnedAt (px py : Q) (d : GraphNode.t) : Prop :=
  GraphNode.fx d = Some px /\ GraphNode.fy d = Some py.

(** A node lying at its pin, at rest. *)
Definition restsAt (px py : Q) (d : GraphNode.t) : Prop :=
  GraphNode.x d = Some px /\ GraphNode.y d = Some py
  /\ GraphNode.vx d = Some 0 /\ GraphNode.vy d = Some 0.

(** [q] to the power [n]. *)
Fixpoint qpow (q : Q) (n : nat) : Q :=
  match n with
  | O => 1
  | S n' => q * qpow q n'
  end.

(** The content of the first message with a given id. *)
Definition contentOf (id : string) (msgs : list Message.t) : option string :=
  option_map Message.content (find (fun m => String.eqb (Message.id m) id) msgs).

(** The line feed character. *)
Definition lineFeed : string := String (ascii_of_nat 10) EmptyString.

(** The node of NASA in the sample graph. *)
Definition nasa : GraphNode.t :=
  mkNode "nasa" "NASA" Company
    [ ("achievement", JS.JsString "Got to Mars 2 years earlier using Neo4j")
    ; ("application", JS.JsString "Mission planning and resource optimization") ].

(** Three nodes A, B, C with the relationships A -> B and A -> C. *)
Definition abcGraph : GraphData.t :=
  GraphData.Build_t
    [ mkNode "A" "A" Concept []; mkNode "B" "B" Concept []; mkNode "C" "C" Concept [] ]
    [ mkRel "ab" "A" "B" "LINKS" None; mkRel "ac" "A" "C" "LINKS" None ].

(** A simulation of two nodes, the first one dragged to (5, 7). *)
Definition draggedLayout : Layout.Simulation :=
  GraphVisualization.dragged 5 7 0
    (Layout.Build_Simulation 1 [ mkNode "A" "A" Concept []; mkNode "B" "B" Concept [] ]).


(** ** Notions for the text utilities *)

(** How many times a character occurs in a string. *)
Fixpoint countChar (c : ascii) (s : string) : nat :=
  match s with
  | EmptyString => O
  | String d rest => ((if Ascii.eqb d c then 1 else 0) + countChar c rest)%nat
  end.

(** [a] is [b] with some characters left out. *)
Inductive Subsequence : string -> string -> Prop :=
| subsequence_nil : Subsequence EmptyString EmptyString
| subsequence_keep (c : ascii) (a b : string) :
    Subsequence a b -> Subsequence (String c a) (String c b)
| subsequence_skip (c : ascii) (a b : string) :
    Subsequence a b -> Subsequence a (String c b).

(** A pattern that splits the text it is given: what it matches is a
    prefix, not empty, and what it leaves is the rest. *)
Definition Splits (p : RegExp.Matcher) : Prop :=
  forall text m rest, p text = Some (m, rest) ->
    text = (m ++ rest)%string /\ m <> EmptyString.

(** [s'] is what is left of a string from some position on. *)
Inductive Suffix (s' : string) : string -> Prop :=
| suffix_here : Suffix s' s'
| suffix_later (c : ascii) (s : string) : Suffix s' s -> Suffix s' (String c s).

(** The first character of a string is white space; its last one is. *)
Definition startsBlank (s : string) : bool :=
  match s with
  | EmptyString => false
  | String c _ => JS.isWhiteSpace c
  end.

Fixpoint endsBlank (s : string) : bool :=
  match s with
  | EmptyString => false
  | String c EmptyString => JS.isWhiteSpace c
  | String _ rest => endsBlank rest
  end.

(** A string of white space. *)
Fixpoint isBlank (s : string) : bool :=
  match s with
  | EmptyString => true
  | String c rest => JS.isWhiteSpace c && isBlank rest
  end.

(** A string of code units below 128. *)
Fixpoint isAscii (s : string) : bool :=
  match s with
  | EmptyString => true
  | String c rest => (nat_of_ascii c <? 128)%nat && isAscii rest
  end.

(** ** Notions for the debounced function *)


(** One timer at most is pending, and it is the one [timeout] names. *)
Definition Tidy {Args : Type} (st : Debounce.State Args) : Prop :=
  Debounce.timers st = []
  \/ exists tm, Debounce.timers st = [tm]
                /\ Debounce.timeout st = Some (Debounce.handle tm).




(** ** Notions for the states the application goes through *)

(** One turn of the application in which the user does nothing: a timer
    fires, or the clock goes on. *)
Inductive quietStep (w : App.World) : App.World -> Prop :=
| step_timer (due : N) (k : App.Task) (rest : list (N * App.Task)) :
    App.popEarliest (App.timers w) = Some ((due, k), rest) ->
    quietStep w (fireTimer due k rest w)
| step_clock (t : N) : quietStep w (App.setNow (N.max (App.now w) t) w).

(** One turn of the application: a quiet one, or the handler of
    something the user does. *)
Inductive step (w : App.World) : App.World -> Prop :=
| step_quiet (w' : App.World) : quietStep w w' -> step w w'
| step_event (e : App.UserEvent) : step w (handle e w).

(** Any number of quiet turns. *)
Inductive quietSteps (w : App.World) : App.World -> Prop :=
| quiet_none : quietSteps w w
| quiet_more (w1 w2 : App.World) : quietSteps w w1 -> quietStep w1 w2 -> quietSteps w w2.

(** Any number of turns. *)
Inductive steps (w : App.World) : App.World -> Prop :=
| steps_none : steps w w
| steps_more (w1 w2 : App.World) : steps w w1 -> step w1 w2 -> steps w w2.

(** A state the application can be in. *)
Definition reachable (w : App.World) : Prop := steps App.initialWorld w.

(** A task of a query whose answer message is still to come. *)
Definition owes (k : App.Task) : bool :=
  match k with
  | App.AfterProcessingDelay _ | App.AfterRetrievalDelay _ _ => true
  | _ => false
  end.

(** The queries whose answer message is still to come. *)
Definition owed (ts : list (N * App.Task)) : nat :=
  List.length (filter (fun tm => owes (snd tm)) ts).

(** A task that goes on streaming into the messages of id [id]. *)
Definition streamsInto (id : string) (k : App.Task) : Prop :=
  match k with
  | App.StreamNext id' _ _ _ => id' = id
  | _ => False
  end.

(** What a message is, apart from what streaming writes: all its fields
    but [content] and [isStreaming]. *)
Definition header (m : Message.t)
    : string * Role * N * option (list GraphNode.t) * option string :=
  (Message.id m, Message.role m, Message.timestamp m, Message.sources m,
   Message.cypherQuery m).

Definition isUser (m : Message.t) : bool :=
  match Message.role m with
  | user => true
  | assistant => false
  end.

(** What the user has sent, as the messages show it. *)
Definition userContents (msgs : list Message.t) : list string :=
  map Message.content (filter isUser msgs).

(** What holds in every state the application can be in. *)
Record Sound (w : App.World) : Prop :=
  { sound_loading :
      App.isLoading w = true ->
      exists tm, In tm (App.timers w) /\ owes (snd tm) = true;
    sound_streaming :
      forall m, In m (App.messages w) -> Message.isStreaming m = Some true ->
                exists tm, In tm (App.timers w) /\ streamsInto (Message.id m) (snd tm);
    sound_sources :
      forall m l, In m (App.messages w) -> Message.sources m = Some l ->
                  Message.role m = assistant
                  /\ (List.length l <= 3)%nat
                  /\ incl l (GraphData.nodes graphData);
    sound_order : Sorted N.le (map Message.timestamp (App.messages w));
    sound_past : Forall (fun m => (Message.timestamp m <= App.now w)%N) (App.messages w);
    sound_user_ids :
      forall m, In m (App.messages w) -> Message.role m = user ->
                exists t, Message.id m = App.userId t;
    sound_stream_ids :
      forall due id words i acc,
        In (due, App.StreamNext id words i acc) (App.timers w) ->
        exists t, id = App.assistantId t }.

(** The things a timer can do when it fires, by its task: the delay of
    the processing is over; the delay of the retrieval is over; a chunk
    has come and another is waited for; the last chunk has come; the
    highlight timeout is over. *)
Inductive Fired (w : App.World) : App.Task -> App.World -> Prop :=
| fired_processing (c : string) :
    Fired w (App.AfterProcessingDelay c)
      (App.setTimeout (App.AfterRetrievalDelay c (findMatchingQuery c)) 500 w)
| fired_retrieval (c : string) (mq : option SampleQuery.t) :
    let relevantNodes := simulateGraphRetrieval c graphData in
    let answer :=
      Message.Build_t (App.assistantId (App.now w)) assistant EmptyString (App.now w)
        (Some relevantNodes) (App.cypherOf mq) (Some true) in
    Fired w (App.AfterRetrievalDelay c mq)
      (App.setTimeout
         (App.StreamNext (App.assistantId (App.now w))
            (JS.split " " (App.generateResponse c relevantNodes mq)) 0 EmptyString) 30
         (App.setIsLoading false
            (App.setMessages (fun prev => prev ++ [answer])
               (App.setHighlightedNodes (map GraphNode.id relevantNodes) w))))
| fired_chunk (id : string) (words : list string) (i : nat) (acc : string) :
    (S i < List.length words)%nat ->
    Fired w (App.StreamNext id words i acc)
      (App.setTimeout
         (App.StreamNext id words (S i) (acc ++ Utils.chunk words i)) 30
         (App.setMessages (map (App.withContent id (acc ++ Utils.chunk words i))) w))
| fired_last_chunk (id : string) (words : list string) (i : nat) (acc : string) :
    (List.length words <= S i)%nat ->
    Fired w (App.StreamNext id words i acc)
      (App.setTimeout App.ClearHighlights 3000
         (App.setMessages (map (App.streamingDone id))
            (App.setMessages (map (App.withContent id (acc ++ Utils.chunk words i))) w)))
| fired_clear :
    Fired w App.ClearHighlights (App.setHighlightedNodes [] w).

(** ** Notions for the chat box in the application *)

(** The form of the chat box submitted with [input] in it: the chat box
    is given [handleSendMessage] and [isLoading] of the application
    (App.tsx, lines 174-179). *)
Definition submitChat (input : string) (w : App.World) : App.World :=
  match fst (ChatInterface.handleSubmit input (App.isLoading w)) with
  | Some content => App.handleSendMessage content w
  | None => w
  end.

(** One turn of the application when the query builder is left alone:
    a quiet turn, the chat box submitted, or a click. *)
Inductive chatStep (w : App.World) : App.World -> Prop :=
| chat_quiet (w' : App.World) : quietStep w w' -> chatStep w w'
| chat_submit (input : string) : chatStep w (submitChat input w)
| chat_click (e : App.UserEvent) :
    (forall content, e <> App.SendMessage content) -> chatStep w (handle e w).

(** A state the application can be in when the query builder is left
    alone. *)
Inductive chatReachable : App.World -> Prop :=
| chat_initial : chatReachable App.initialWorld
| chat_more (w w' : App.World) : chatReachable w -> chatStep w w' -> chatReachable w'.

(** While a query is loading it is the only one owed an answer message;
    otherwise none is. *)
Definition oneLoading (w : App.World) : Prop :=
  (App.isLoading w = true /\ owed (App.timers w) = 1%nat)
  \/ (App.isLoading w = false /\ owed (App.timers w) = 0%nat).

(** ** Notions for the course of a query *)

(** The message of the user for a query sent at [t], and the message of
    the answer to it, with [content] streamed so far. *)
Definition userMessageOf (t : N) (q : string) : Message.t :=
  Message.Build_t (App.userId t) user q t None None None.

Definition answerMessageOf (t : N) (q : string) (content : string) (streaming : bool)
    : Message.t :=
  Message.Build_t (App.assistantId (t + 1300)) assistant content (t + 1300)
    (Some (simulateGraphRetrieval q graphData)) (App.cypherOf (findMatchingQuery q))
    (Some streaming).

(** ** Notions for the canvas *)

(** A drag gesture after its start: the pointer moves, in order. *)
Definition dragMoves (moves : list (Q * Q)) (i : nat) (s : Layout.Simulation)
    : Layout.Simulation :=
  fold_left (fun s' p => GraphVisualization.dragged (fst p) (snd p) i s') moves s.

(** ** Concrete states and graphs *)

(** The state in which the answer to "cypher" has begun: the query was
    sent at 0, the two delays are over. *)
Definition answering : App.World :=
  App.fireTimer JS.ascii_toLowerCase sampleGraphData 1300
    (App.AfterRetrievalDelay "cypher" None) []
    (App.fireTimer JS.ascii_toLowerCase sampleGraphData 800
       (App.AfterProcessingDelay "cypher") []
       (App.handle (App.SendMessage "cypher") App.initialWorld)).

(** The three-node graph as the first run of the effect leaves it. *)
Definition abcDrawn : GraphData.t :=
  GraphData.Build_t (GraphData.nodes abcGraph)
    [ GraphRelationship.Build_t "ab" (EndNode (mkNode "A" "A" Concept []))
        (EndNode (mkNode "B" "B" Concept [])) "LINKS" None;
      GraphRelationship.Build_t "ac" (EndNode (mkNode "A" "A" Concept []))
        (EndNode (mkNode "C" "C" Concept [])) "LINKS" None ].

(* ================================================================== *)
(** * Facts about the string built-ins *)
(* ================================================================== *)

Lemma append_empty_r (s : string) : (s ++ "")%string = s.
Proof. induction s as [|c s IH]; simpl; [reflexivity | now rewrite IH]. Qed.

Lemma append_assoc (a b c : string) : ((a ++ b) ++ c)%string = (a ++ (b ++ c))%string.
Proof. induction a as [|x a IH]; simpl; [reflexivity | now rewrite IH]. Qed.

Lemma split_not_nil (sep : ascii) (s : string) : JS.split sep s <> [].
Proof.
  destruct s as [|c s]; simpl; [discriminate|].
  destruct (Ascii.eqb c sep); [discriminate|].
  destruct (JS.split sep s); discriminate.
Qed.

Lemma join_cons_cons (sep w v : string) (ws : list string) :
  JS.join sep (w :: v :: ws) = (w ++ sep ++ JS.join sep (v :: ws))%string.
Proof. reflexivity. Qed.

(** Splitting at a character and joining with it gives the string back. *)
Lemma join_split (sep : ascii) (s : string) :
  JS.join (String sep "") (JS.split sep s) = s.
Proof.
  induction s as [|c s IH]; [reflexivity|].
  simpl JS.split. destruct (Ascii.eqb c sep) eqn:E.
  - apply Ascii.eqb_eq in E; subst c.
    destruct (JS.split sep s) as [|w ws] eqn:Es; [now apply split_not_nil in Es|].
    rewrite join_cons_cons, IH. reflexivity.
  - destruct (JS.split sep s) as [|w ws] eqn:Es; [now apply split_not_nil in Es|].
    rewrite <- IH. destruct ws; reflexivity.
Qed.

(* ================================================================== *)
(** * Facts about lib/utils.ts *)
(* ================================================================== *)

Lemma fold_left_append (l : list string) (a : string) :
  fold_left (fun acc c => (acc ++ c)%string) l a = (a ++ String.concat "" l)%string.
Proof.
  revert a; induction l as [|c l IH]; intros a; simpl.
  - now rewrite append_empty_r.
  - rewrite IH, append_assoc. destruct l; simpl; [now rewrite append_empty_r | reflexivity].
Qed.

Lemma yielded_streamLoop (words : list string) (delayMs : Z) (i n : nat) :
  Utils.yielded (Utils.streamLoop words delayMs i n) = map (Utils.chunk words) (seq i n).
Proof.
  revert i; induction n as [|n IH]; intros i; simpl; [reflexivity | now rewrite IH].
Qed.

Lemma chunk_at (pre suf : list string) (w : string) :
  Utils.chunk (pre ++ w :: suf) (List.length pre) =
  (w ++ match suf with [] => "" | _ => " " end)%string.
Proof.
  unfold Utils.chunk. rewrite nth_middle. f_equal.
  rewrite length_app. simpl List.length.
  destruct suf; simpl List.length.
  - replace (List.length pre + 1 - 1)%nat with (List.length pre) by lia.
    now rewrite Nat.ltb_irrefl.
  - destruct (Nat.ltb_spec (List.length pre) (List.length pre + S (S (List.length suf)) - 1));
      [reflexivity | lia].
Qed.

(** The chunks from index [length pre] on concatenate to the remaining
    words joined by spaces. *)
Lemma chunks_from (pre suf : list string) :
  String.concat "" (map (Utils.chunk (pre ++ suf)) (seq (List.length pre) (List.length suf)))
  = JS.join " " suf.
Proof.
  revert pre; induction suf as [|w suf IH]; intros pre; [reflexivity|].
  simpl List.length. simpl seq. simpl map. rewrite chunk_at.
  specialize (IH (pre ++ [w])). rewrite <- app_assoc in IH. simpl in IH.
  rewrite length_app in IH. simpl in IH. rewrite Nat.add_1_r in IH.
  destruct suf as [|v suf].
  - simpl. now rewrite append_empty_r.
  - rewrite join_cons_cons, <- IH. simpl List.length. simpl seq. simpl map.
    simpl String.concat. now rewrite append_assoc.
Qed.

(** C10. For every text and every delay, the chunks [streamText] yields,
    concatenated in order by its consumer, are exactly [text]: splitting
    at the spaces and putting a space back after every word but the last
    loses nothing, repeated spaces included. *)
Theorem streamText_roundtrip (text : string) (delayMs : Z) :
  Utils.collect (Utils.streamText text delayMs) = text.
Proof.
  unfold Utils.collect, Utils.streamText.
  rewrite yielded_streamLoop, fold_left_append.
  change (String.concat "" (map (Utils.chunk ([] ++ JS.split " " text))
            (seq (List.length (@nil string)) (List.length (JS.split " " text)))) = text).
  rewrite chunks_from. apply join_split.
Qed.

(* ================================================================== *)
(** * Facts about retrieval and answers (App.tsx) *)
(* ================================================================== *)

(** Filtering keeps the keys of a list distinct. *)
Lemma filter_keeps_distinct {V K : Type} (key : V -> K) (keep : V -> bool) (vs : list V) :
  NoDup (map key vs) -> NoDup (map key (filter keep vs)).
Proof.
  intros Hvs. induction vs as [|v vs IH]; cbn in *; [constructor|].
  inversion Hvs as [|? ? Hfresh Hrest]; subst.
  destruct (keep v); cbn; [constructor|]; auto.
  intros Hin. apply Hfresh. apply in_map_iff in Hin as (v' & Hkey & Hin).
  apply in_map_iff. exists v'. split; [assumption|]. now apply filter_In in Hin.
Qed.

Lemma NoDup_firstn {A : Type} (n : nat) (l : list A) : NoDup l -> NoDup (firstn n l).
Proof.
  intros H. rewrite <- (firstn_skipn n l) in H. now apply NoDup_app_remove_r in H.
Qed.

Lemma In_firstn {A : Type} (n : nat) (l : list A) (a : A) : In a (firstn n l) -> In a l.
Proof.
  intros H. rewrite <- (firstn_skipn n l). apply in_or_app. now left.
Qed.

Lemma firstn_short_all {A : Type} (n : nat) (l : list A) :
  (List.length (firstn n l) < n)%nat -> skipn n l = [].
Proof.
  intros H. apply skipn_all2. rewrite length_firstn in H. lia.
Qed.

(** What [find] finds is the first element that passes. *)
Lemma find_is_first {A : Type} (p : A -> bool) (l : list A) (a : A) :
  find p l = Some a ->
  exists before after,
    l = before ++ a :: after /\ p a = true /\ forall b, In b before -> p b = false.
Proof.
  induction l as [|x l IH]; cbn; [discriminate|].
  destruct (p x) eqn:Ex.
  - intros H. injection H as <-. exists [], l. repeat split; [exact Ex | intros b []].
  - intros H. destruct (IH H) as (before & after & -> & Ha & Hbefore).
    exists (x :: before), after. repeat split; [exact Ha|].
    intros b [<-|Hb]; [exact Ex | now apply Hbefore].
Qed.

(** C1. For every query and every store whose node ids are pairwise
    distinct, retrieval returns at most 3 nodes, with pairwise distinct
    ids, each a node of the store that matches; and they are the first
    matching nodes in the order of the store: the matching nodes are the
    result followed by the ones cut off, and nothing is cut off unless
    the result has 3 nodes. *)
Theorem retrieval_first_three_matches (query : string) (store : GraphData.t) :
  NoDup (map GraphNode.id (GraphData.nodes store)) ->
  let result := simulateGraphRetrieval query store in
  (List.length result <= 3)%nat
  /\ NoDup (map GraphNode.id result)
  /\ (forall n, In n result ->
        In n (GraphData.nodes store) /\ nodeMatches (keywordsOf query) n = true)
  /\ exists cut, matchingNodes query store = result ++ cut
                 /\ (cut <> [] -> List.length result = 3%nat).
Proof.
  intros Hvalid result.
  unfold result, App.simulateGraphRetrieval, JS.slice0.
  fold (keywordsOf query). fold (matchingNodes query store).
  repeat split.
  - apply firstn_le_length.
  - rewrite <- firstn_map. apply NoDup_firstn. unfold matchingNodes.
    now apply filter_keeps_distinct.
  - apply In_firstn in H. unfold matchingNodes in H. now apply filter_In in H.
  - apply In_firstn in H. unfold matchingNodes in H. now apply filter_In in H.
  - exists (skipn 3 (matchingNodes query store)). split.
    + symmetry. apply firstn_skipn.
    + intros Hcut.
      pose proof (firstn_le_length 3 (matchingNodes query store)) as Hle.
      destruct (Nat.eq_dec (List.length (firstn 3 (matchingNodes query store))) 3)
        as [E|E]; [exact E|].
      exfalso. apply Hcut. apply firstn_short_all. lia.
Qed.

Lemma nodeMatches_iff (keywords : list string) (node : GraphNode.t) :
  nodeMatches keywords node = true <->
  exists token, In token keywords
                /\ (3 < String.length token)%nat
                /\ JS.includes (nodeText node) token = true.
Proof.
  unfold App.nodeMatches, JS.some. rewrite existsb_exists.
  split; intros (token & Hin & H); exists token; split; try assumption.
  - unfold App.keywordHits in H. apply andb_true_iff in H as [Hlen Hinc].
    apply Nat.ltb_lt in Hlen. now split.
  - destruct H as [Hlen Hinc]. unfold App.keywordHits.
    apply andb_true_iff. split; [now apply Nat.ltb_lt | assumption].
Qed.

Lemma no_long_token_no_match (keywords : list string) (node : GraphNode.t) :
  (forall token, In token keywords -> (String.length token <= 3)%nat) ->
  nodeMatches keywords node = false.
Proof.
  intros Hshort. destruct (nodeMatches keywords node) eqn:E; [|reflexivity].
  apply nodeMatches_iff in E as (token & Hin & Hlen & _).
  apply Hshort in Hin. lia.
Qed.

Lemma filter_none {A : Type} (p : A -> bool) (l : list A) :
  (forall a, p a = false) -> filter p l = [].
Proof.
  intros H. induction l as [|a l IH]; simpl; [reflexivity|]. now rewrite H.
Qed.

(** C2. A node of the store is among the matches of a query exactly when
    some token of the lowercased query (a piece between spaces) longer
    than 3 occurs in the lowercased text made of the node's label, a
    space and the JSON form of its properties.  A query all of whose
    tokens have length at most 3 retrieves nothing, and so does the
    empty query ([toLowerCase] keeping the empty string empty). *)
Theorem retrieval_match_iff_long_token (query : string) (store : GraphData.t) :
  (forall node,
      In node (matchingNodes query store) <->
      In node (GraphData.nodes store)
      /\ exists token, In token (JS.split " " (toLowerCase query))
                       /\ (3 < String.length token)%nat
                       /\ JS.includes
                            (toLowerCase (GraphNode.label node ++ " " ++
                               JS.JSON_stringify (JS.JsObject (GraphNode.properties node))))
                            token = true)
  /\ ((forall token, In token (JS.split " " (toLowerCase query)) ->
                     (String.length token <= 3)%nat) ->
      simulateGraphRetrieval query store = [])
  /\ (toLowerCase "" = "" -> simulateGraphRetrieval "" store = []).
Proof.
  split; [|split].
  - intros node. unfold matchingNodes. rewrite filter_In, nodeMatches_iff. reflexivity.
  - intros Hshort. unfold App.simulateGraphRetrieval.
    rewrite filter_none; [reflexivity|].
    intros node. now apply no_long_token_no_match.
  - intros Hempty. unfold App.simulateGraphRetrieval.
    rewrite filter_none; [reflexivity|].
    intros node. apply no_long_token_no_match. rewrite Hempty.
    intros token [<-|[]]. simpl. lia.
Qed.

Lemma generateResponse_canned (query : string) (sources : list GraphNode.t)
    (q : SampleQuery.t) :
  In q sampleQueries ->
  cannedAnswer q = Some (App.generateResponse query sources (Some q)).
Proof.
  intros H. simpl in H. unfold App.generateResponse.
  repeat (destruct H as [<-|H]; [vm_compute; reflexivity|]).
  destruct H.
Qed.

(** The answer has a first word: the loop of the stream starts by
    waiting for it. *)
Lemma continueStream_first (id : string) (words : list string) (acc : string)
    (w : App.World) :
  words <> [] ->
  App.continueStream id words 0 acc w = App.setTimeout (App.StreamNext id words 0 acc) 30 w.
Proof.
  intros H. unfold App.continueStream. destruct words; [congruence | reflexivity].
Qed.

(** C6, as the sources have it.  The sample question found for a query
    is the first of the table whose first three words (lowercased,
    joined by spaces) occur in the lowercased query (no question before
    it in the table has them there), and there is one as soon as some
    sample question has them there.  When one is found, the
    answer is the one stored for it, and the message carries its Cypher
    text.  Otherwise the message carries no Cypher text and the answer
    is the "no information" message for an empty retrieval, and else the
    template filled with the labels of the retrieved nodes and with the
    description of the FIRST retrieved node when it has a truthy one, a
    fixed sentence when it has not.  In both cases the assistant message
    carries the retrieved nodes as its sources. *)
Theorem canned_or_generic_answer (content : string) (w : App.World) :
  let sources := simulateGraphRetrieval content graphData in
  let matchingQuery := findMatchingQuery content in
  let narrative := App.generateResponse content sources matchingQuery in
  ((exists q, In q sampleQueries
              /\ JS.includes (toLowerCase content) (firstThreeWords q) = true) ->
   matchingQuery <> None)
  /\ (forall q, matchingQuery = Some q ->
        (exists before after,
            sampleQueries = before ++ q :: after
            /\ forall q', In q' before ->
                  JS.includes (toLowerCase content) (firstThreeWords q') = false)
        /\ JS.includes (toLowerCase content) (firstThreeWords q) = true
        /\ cannedAnswer q = Some narrative
        /\ App.cypherOf matchingQuery = Some (SampleQuery.cypher q))
  /\ (matchingQuery = None ->
        (forall q, In q sampleQueries ->
                   JS.includes (toLowerCase content) (firstThreeWords q) = false)
        /\ App.cypherOf matchingQuery = None
        /\ narrative =
           match sources with
           | [] => App.noInformation content
           | first :: _ =>
               ("Based on the knowledge graph, I found relevant information in "
                ++ JS.join ", " (map GraphNode.label sources) ++ ". "
                ++ match JS.get (GraphNode.properties first) "description" with
                   | Some v => if JS.truthy v then JS.toString v else App.interconnected
                   | None => App.interconnected
                   end
                ++ " The graph structure helps me understand these relationships and provide more accurate, explainable responses.")%string
           end)
  /\ (exists m,
        App.messages (App.fire toLowerCase graphData
                        (App.AfterRetrievalDelay content matchingQuery) w)
          = App.messages w ++ [m]
        /\ Message.role m = assistant
        /\ Message.sources m = Some sources
        /\ Message.cypherQuery m = App.cypherOf matchingQuery).
Proof.
  intros sources matchingQuery narrative. repeat split.
  - intros (q & Hin & Hinc) Hnone.
    unfold matchingQuery, App.findMatchingQuery in Hnone.
    apply (find_none _ _ Hnone) in Hin. congruence.
  - unfold matchingQuery, App.findMatchingQuery in H.
    apply find_is_first in H as (before & after & Hq & _ & Hbefore).
    now exists before, after.
  - unfold matchingQuery, App.findMatchingQuery in H. now apply find_some in H.
  - subst narrative. rewrite H. apply generateResponse_canned.
    unfold matchingQuery, App.findMatchingQuery in H. now apply find_some in H.
  - rewrite H. reflexivity.
  - intros q Hin. unfold matchingQuery, App.findMatchingQuery in H.
    apply (find_none _ _ H) in Hin. exact Hin.
  - rewrite H. reflexivity.
  - subst narrative. rewrite H. unfold App.generateResponse, App.genericResponse.
    destruct sources as [|first rest]; reflexivity.
  - eexists. unfold App.fire. rewrite continueStream_first by apply split_not_nil.
    cbn. repeat split; reflexivity.
Qed.

(* ================================================================== *)
(** * Facts about message ids *)
(* ================================================================== *)

Lemma append_inj_prefix (a b s s' : string) :
  String.length a = String.length b -> (a ++ s)%string = (b ++ s')%string -> a = b.
Proof.
  revert b; induction a as [|c a IH]; intros [|d b] Hlen H; simpl in *;
    try discriminate; [reflexivity|].
  injection H as -> H. injection Hlen as Hlen. f_equal. now apply IH.
Qed.

Lemma append_length (a b : string) :
  String.length (a ++ b) = (String.length a + String.length b)%nat.
Proof. induction a as [|c a IH]; simpl; [reflexivity | now rewrite IH]. Qed.

Lemma append_cancel_r (a b s : string) : (a ++ s)%string = (b ++ s)%string -> a = b.
Proof.
  intros H. apply (append_inj_prefix a b s s); [|exact H].
  apply (f_equal String.length) in H. rewrite !append_length in H. lia.
Qed.

Lemma string_of_N_inj (a b : N) : JS.string_of_N a = JS.string_of_N b -> a = b.
Proof.
  unfold JS.string_of_N. intros H.
  assert (Hnn : forall n, N.to_uint n <> Decimal.Nil).
  { intros [|p]; [discriminate | apply DecimalPos.Unsigned.to_uint_nonnil]. }
  apply DecimalN.Unsigned.to_uint_inj.
  pose proof (NilZero.usu _ (Hnn a)) as Ha. pose proof (NilZero.usu _ (Hnn b)) as Hb.
  rewrite H in Ha. congruence.
Qed.

(** Two assistant messages made at different milliseconds have different
    ids. *)
Lemma assistantId_inj (a b : N) : App.assistantId a = App.assistantId b -> a = b.
Proof.
  unfold App.assistantId. intros H. injection H as H.
  apply append_cancel_r in H. now apply string_of_N_inj.
Qed.

Lemma allDigits_app (a b : string) :
  allDigits (a ++ b) = allDigits a && allDigits b.
Proof.
  induction a as [|c a IH]; simpl; [reflexivity|]. rewrite IH. now rewrite andb_assoc.
Qed.

Lemma allDigits_uint (d : Decimal.uint) : allDigits (NilEmpty.string_of_uint d) = true.
Proof. induction d; simpl; auto. Qed.

Lemma allDigits_string_of_N (n : N) : allDigits (JS.string_of_N n) = true.
Proof.
  unfold JS.string_of_N, NilZero.string_of_uint.
  destruct (N.to_uint n) eqn:E; try reflexivity; rewrite <- E at 1;
    rewrite E; apply allDigits_uint.
Qed.

(** The id of a user message is never the id of an assistant message. *)
Lemma userId_not_assistantId (a b : N) : App.userId a <> App.assistantId b.
Proof.
  unfold App.userId, App.assistantId. intros H. injection H as H.
  apply (f_equal allDigits) in H.
  rewrite allDigits_app, !allDigits_string_of_N in H. discriminate.
Qed.

(* ================================================================== *)
(** * Facts about the event loop (App.tsx) *)
(* ================================================================== *)

(** ** The timer queue *)

Lemma popEarliest_none (ts : list (N * App.Task)) :
  App.popEarliest ts = None -> ts = [].
Proof.
  destruct ts as [|t rest]; [reflexivity|]. simpl.
  destruct (App.popEarliest rest) as [[m rest']|]; [|discriminate].
  destruct (fst m <? fst t)%N; discriminate.
Qed.

Lemma popEarliest_perm (ts : list (N * App.Task)) tm rest :
  App.popEarliest ts = Some (tm, rest) -> Permutation ts (tm :: rest).
Proof.
  revert tm rest; induction ts as [|t ts IH]; intros tm rest H; [discriminate|].
  simpl in H. destruct (App.popEarliest ts) as [[m rest']|] eqn:E.
  - destruct (fst m <? fst t)%N; injection H as <- <-.
    + rewrite (IH _ _ eq_refl). apply perm_swap.
    + reflexivity.
  - injection H as <- <-. apply popEarliest_none in E. subst. reflexivity.
Qed.

Lemma popEarliest_min (ts : list (N * App.Task)) tm rest :
  App.popEarliest ts = Some (tm, rest) -> Forall (fun x => (fst tm <= fst x)%N) rest.
Proof.
  revert tm rest; induction ts as [|t ts IH]; intros tm rest H; [discriminate|].
  simpl in H. destruct (App.popEarliest ts) as [[m rest']|] eqn:E.
  - specialize (IH _ _ eq_refl).
    destruct (N.ltb_spec (fst m) (fst t)); injection H as <- <-.
    + constructor; [lia | exact IH].
    + apply popEarliest_perm in E. rewrite E. constructor; [assumption|].
      eapply Forall_impl; [|exact IH]. simpl. intros; lia.
  - injection H as <- <-. constructor.
Qed.

(** ** How many timers a pending task still stands for *)

Lemma pendingSteps_app (a b : list (N * App.Task)) :
  pendingSteps (a ++ b) = (pendingSteps a + pendingSteps b)%nat.
Proof. unfold pendingSteps. now rewrite map_app, list_sum_app. Qed.

Lemma pendingSteps_perm (a b : list (N * App.Task)) :
  Permutation a b -> pendingSteps a = pendingSteps b.
Proof.
  intros H. unfold pendingSteps. induction H; simpl; lia.
Qed.

Lemma continueStream_timers id words i acc (w : App.World) :
  exists due k,
    App.timers (App.continueStream id words i acc w) = App.timers w ++ [(due, k)]
    /\ (App.now w <= due)%N
    /\ stepsOfTask k = (if (i <? List.length words)%nat
                        then 2 + (List.length words - S i) else 1)%nat.
Proof.
  unfold App.continueStream. destruct (i <? List.length words)%nat;
    eexists; eexists; wsimpl; repeat split; lia.
Qed.

(** Firing a task leaves at most one new timer, due later, and the
    steps it stands for are one less. *)
Lemma fire_timers (k : App.Task) (w : App.World) :
  exists new,
    App.timers (fire k w) = App.timers w ++ new
    /\ Forall (fun tm => (App.now w <= fst tm)%N) new
    /\ (pendingSteps new + 1 = stepsOfTask k)%nat
    /\ (k <> App.ClearHighlights -> new <> []).
Proof.
  destruct k as [content|content mq|id words i acc|].
  - eexists [_]. unfold App.fire. wsimpl.
    repeat split; try (constructor; [wsimpl; lia | constructor]).
    + unfold pendingSteps. cbn [map list_sum fold_right snd stepsOfTask]. unfold answerOf. lia.
    + discriminate.
  - unfold App.fire.
    match goal with |- context [App.continueStream ?a ?b ?c ?d ?e] =>
      destruct (continueStream_timers a b c d e) as (due & k & Ht & Hdue & Hs) end.
    exists [(due, k)]. rewrite Ht. wsimpl_in Hdue. wsimpl. repeat split.
    + constructor; [exact Hdue | constructor].
    + unfold pendingSteps. cbn [map list_sum fold_right snd]. rewrite Hs.
      cbn [stepsOfTask].
      destruct (JS.split " " _) eqn:E; [now apply split_not_nil in E|].
      cbn [List.length Nat.ltb Nat.leb]. lia.
    + discriminate.
  - unfold App.fire.
    match goal with |- context [App.continueStream ?a ?b ?c ?d ?e] =>
      destruct (continueStream_timers a b c d e) as (due & k & Ht & Hdue & Hs) end.
    exists [(due, k)]. rewrite Ht. wsimpl_in Hdue. wsimpl. repeat split.
    + constructor; [exact Hdue | constructor].
    + unfold pendingSteps. cbn [map list_sum fold_right snd]. rewrite Hs.
      cbn [stepsOfTask].
      destruct (Nat.ltb_spec (S i) (List.length words)); lia.
    + discriminate.
  - exists []. unfold App.fire. wsimpl. rewrite app_nil_r.
    repeat split; try constructor. congruence.
Qed.

Lemma fireTimer_steps (w : App.World) due k rest :
  App.popEarliest (App.timers w) = Some ((due, k), rest) ->
  (pendingSteps (App.timers (fireTimer due k rest w)) + 1
   = pendingSteps (App.timers w))%nat.
Proof.
  intros H. apply popEarliest_perm in H. rewrite (pendingSteps_perm _ _ H).
  unfold App.fireTimer.
  destruct (fire_timers k (App.setTimers rest (App.setNow (N.max (App.now w) due) w)))
    as (new & Ht & _ & Hs & _).
  rewrite Ht. wsimpl. rewrite pendingSteps_app.
  change (pendingSteps ((due, k) :: rest)) with (stepsOfTask k + pendingSteps rest)%nat.
  lia.
Qed.

(** With as much fuel as steps are pending, the timers run out. *)
Lemma drain_terminates (fuel : nat) (w : App.World) :
  (pendingSteps (App.timers w) <= fuel)%nat ->
  exists wf, drain fuel w = Some wf /\ App.timers wf = [].
Proof.
  revert w; induction fuel as [|fuel IH]; intros w Hfuel.
  - simpl. destruct (App.popEarliest (App.timers w)) as [[[due k] rest]|] eqn:E.
    + apply fireTimer_steps in E. lia.
    + exists w. split; [reflexivity | now apply popEarliest_none].
  - simpl. destruct (App.popEarliest (App.timers w)) as [[[due k] rest]|] eqn:E.
    + apply IH. apply fireTimer_steps in E. lia.
    + exists w. split; [reflexivity | now apply popEarliest_none].
Qed.

Lemma advance_terminates (fuel : nat) (t : N) (w : App.World) :
  (pendingSteps (App.timers w) <= fuel)%nat ->
  exists w', advance fuel t w = Some w'
             /\ (pendingSteps (App.timers w') <= pendingSteps (App.timers w))%nat.
Proof.
  revert w; induction fuel as [|fuel IH]; intros w Hfuel.
  - simpl. destruct (App.popEarliest (App.timers w)) as [[[due k] rest]|] eqn:E.
    + apply fireTimer_steps in E. lia.
    + eexists. split; [reflexivity | wsimpl; lia].
  - simpl. destruct (App.popEarliest (App.timers w)) as [[[due k] rest]|] eqn:E.
    + destruct (due <=? t)%N.
      * pose proof (fireTimer_steps _ _ _ _ E) as Hs.
        destruct (IH (fireTimer due k rest w)) as (w' & Hw' & Hle); [lia|].
        exists w'. split; [exact Hw' | lia].
      * eexists. split; [reflexivity | wsimpl; lia].
    + eexists. split; [reflexivity | wsimpl; lia].
Qed.

(** ** Selection *)

(** C9. For every node [d] that is not the selected one, clicking it
    selects it, with the highlight set holding its id alone, and
    clicking it again, now the selected node, leaves no node selected
    and the highlight set empty. *)
Theorem select_twice_clears_highlight (w : App.World) (d : GraphNode.t) :
  App.isSelected d w = false ->
  let w1 := App.clickNode d w in
  let w2 := App.clickNode d w1 in
  App.selectedNode w1 = Some d
  /\ App.highlightedNodes w1 = [GraphNode.id d]
  /\ App.selectedNode w2 = None
  /\ App.highlightedNodes w2 = [].
Proof.
  intros Hsel w1 w2.
  assert (H1 : w1 = App.handleNodeSelect (Some d) w).
  { unfold w1, App.clickNode. now rewrite Hsel. }
  assert (Hsel1 : App.isSelected d w1 = true).
  { rewrite H1. unfold App.isSelected. cbn. apply String.eqb_refl. }
  unfold w2, App.clickNode. rewrite Hsel1, H1. cbn. repeat split; reflexivity.
Qed.

(** ** The highlight timeout *)

Lemma handle_keeps_timers (e : App.UserEvent) (w : App.World) :
  exists new, App.timers (handle e w) = App.timers w ++ new.
Proof.
  destruct e as [content|d| |node|node| ].
  - eexists. reflexivity.
  - exists []. rewrite app_nil_r. unfold App.handle, App.clickNode.
    destruct (App.isSelected d w); reflexivity.
  - exists []. now rewrite app_nil_r.
  - exists []. now rewrite app_nil_r.
  - exists []. now rewrite app_nil_r.
  - exists []. now rewrite app_nil_r.
Qed.

(** Once timers are pending, the highlight set is empty when they have
    all fired: the last one to fire is a [ClearHighlights]. *)
Lemma drain_clears (fuel : nat) (w wf : App.World) :
  App.timers w <> [] -> drain fuel w = Some wf -> App.highlightedNodes wf = [].
Proof.
  revert w; induction fuel as [|fuel IH]; intros w Hpending Hdrain; simpl in Hdrain;
    destruct (App.popEarliest (App.timers w)) as [[[due k] rest]|] eqn:E;
    try discriminate; try (apply popEarliest_none in E; contradiction).
  destruct (fire_timers k (App.setTimers rest (App.setNow (N.max (App.now w) due) w)))
    as (new & Ht & _ & _ & Hnew).
  fold (fireTimer due k rest w) in Ht.
  destruct (App.timers (fireTimer due k rest w)) as [|tm ts] eqn:Ets.
  - (* the last timer: it added none, so it is the clearing one *)
    destruct fuel; simpl in Hdrain; rewrite Ets in Hdrain; simpl in Hdrain;
      injection Hdrain as <-;
      (destruct k; [exfalso; symmetry in Ht; apply app_eq_nil in Ht as [_ Hn];
                    now apply Hnew ..| reflexivity]).
  - apply (IH (fireTimer due k rest w)); [rewrite Ets; discriminate | exact Hdrain].
Qed.

(** C3, as the sources have it.  The timeout that clears the highlight
    set is set when the answer has finished streaming, 3000 ms ahead.
    No user event (a selection, a new query) removes a pending timer,
    and no timer that fires removes another; the timeout, when it fires,
    empties the highlight set whatever it holds.  So, as long as timers
    are pending, the highlight set is empty once they have all fired,
    whatever was selected meanwhile. *)
Theorem highlight_timeout_is_never_cancelled (w : App.World) :
  (forall id words acc,
      App.timers (App.continueStream id words (List.length words) acc w)
      = App.timers w ++ [((App.now w + 3000)%N, App.ClearHighlights)])
  /\ (forall e tm, In tm (App.timers w) -> In tm (App.timers (handle e w)))
  /\ (forall due k rest tm, In tm rest -> In tm (App.timers (fireTimer due k rest w)))
  /\ App.highlightedNodes (fire App.ClearHighlights w) = []
  /\ (forall fuel, App.timers w <> [] ->
                   (pendingSteps (App.timers w) <= fuel)%nat ->
                   exists wf, drain fuel w = Some wf
                              /\ App.timers wf = []
                              /\ App.highlightedNodes wf = []).
Proof.
  repeat split.
  - intros id words acc. unfold App.continueStream. now rewrite Nat.ltb_irrefl.
  - intros e tm Hin. destruct (handle_keeps_timers e w) as (new & ->).
    apply in_or_app. now left.
  - intros due k rest tm Hin. unfold App.fireTimer.
    destruct (fire_timers k (App.setTimers rest (App.setNow (N.max (App.now w) due) w)))
      as (new & -> & _). wsimpl. apply in_or_app. now left.
  - intros fuel Hpending Hfuel.
    destruct (drain_terminates fuel w Hfuel) as (wf & Hdrain & Hempty).
    exists wf. repeat split; try assumption. now apply (drain_clears fuel w).
Qed.

(** ** Answers in flight *)

Lemma sent_sentAt (convs : list Conversation) : map fst (sent convs) = map sentAt convs.
Proof. unfold sent. rewrite map_map. reflexivity. Qed.

Lemma restOf_step (words : list string) (i : nat) :
  (i < List.length words)%nat ->
  restOf words i = (Utils.chunk words i ++ restOf words (S i))%string.
Proof.
  intros Hi. unfold restOf.
  replace (List.length words - i)%nat with (S (List.length words - S i)) by lia.
  cbn [seq map]. set (l := map _ (seq (S i) _)). destruct l; cbn.
  - now rewrite append_empty_r.
  - reflexivity.
Qed.

Lemma restOf_end (words : list string) (i : nat) :
  (List.length words <= i)%nat -> restOf words i = "".
Proof.
  intros Hi. unfold restOf.
  replace (List.length words - i)%nat with 0%nat by lia. reflexivity.
Qed.

Lemma restOf_all (text : string) : restOf (JS.split " " text) 0 = text.
Proof.
  unfold restOf. rewrite Nat.sub_0_r.
  rewrite <- (join_split " " text) at 3.
  exact (chunks_from [] (JS.split " " text)).
Qed.

(** A change of the messages that keeps ids and roles, and the content
    of the messages of a conversation, keeps what holds for it. *)
Lemma convOk_map (f : Message.t -> Message.t) (msgs : list Message.t) (c : Conversation) :
  (forall m, Message.id (f m) = Message.id m /\ Message.role (f m) = Message.role m) ->
  (forall m, Message.id m = answerId c -> Message.content (f m) = Message.content m) ->
  convOk msgs c -> convOk (map f msgs) c.
Proof.
  intros Hkeep Hcontent.
  assert (Hhas : hasAnswerMessage msgs c -> hasAnswerMessage (map f msgs) c).
  { intros (m & Hin & Hid & Hrole). exists (f m).
    destruct (Hkeep m) as [-> ->]. repeat split; try assumption. now apply in_map. }
  unfold convOk. destruct (phase c); auto.
  - intros (Hi & Hrest & H). auto.
  - intros (H & Hall). split; [auto|].
    intros m' Hin Hid. apply in_map_iff in Hin as (m & <- & Hin).
    destruct (Hkeep m) as [Eid _]. rewrite Eid in Hid.
    rewrite Hcontent by exact Hid. now apply Hall.
Qed.

Lemma convOk_append (mnew : Message.t) (msgs : list Message.t) (c : Conversation) :
  Message.id mnew <> answerId c -> convOk msgs c -> convOk (msgs ++ [mnew]) c.
Proof.
  intros Hnew.
  assert (Hhas : hasAnswerMessage msgs c -> hasAnswerMessage (msgs ++ [mnew]) c).
  { intros (m & Hin & H). exists m. split; [apply in_or_app; now left | exact H]. }
  unfold convOk. destruct (phase c); auto.
  - intros (Hi & Hrest & H). auto.
  - intros (H & Hall). split; [auto|].
    intros m Hin Hid. apply in_app_or in Hin as [Hin|[<-|[]]]; [now apply Hall | contradiction].
Qed.

Lemma withContent_keeps (id content : string) (m : Message.t) :
  Message.id (App.withContent id content m) = Message.id m
  /\ Message.role (App.withContent id content m) = Message.role m.
Proof. unfold App.withContent. destruct (String.eqb _ _); split; reflexivity. Qed.

Lemma streamingDone_keeps (id : string) (m : Message.t) :
  Message.id (App.streamingDone id m) = Message.id m
  /\ Message.role (App.streamingDone id m) = Message.role m.
Proof. unfold App.streamingDone. destruct (String.eqb _ _); split; reflexivity. Qed.

Lemma streamingDone_content (id : string) (m : Message.t) :
  Message.content (App.streamingDone id m) = Message.content m.
Proof. unfold App.streamingDone. destruct (String.eqb _ _); reflexivity. Qed.

Lemma withContent_other (id content : string) (m : Message.t) :
  Message.id m <> id -> App.withContent id content m = m.
Proof.
  intros H. unfold App.withContent.
  destruct (String.eqb_spec (Message.id m) id); [contradiction | reflexivity].
Qed.

Lemma withContent_own (id content : string) (m : Message.t) :
  Message.id m = id -> Message.content (App.withContent id content m) = content.
Proof.
  intros H. unfold App.withContent.
  destruct (String.eqb_spec (Message.id m) id); [reflexivity | contradiction].
Qed.

Lemma answerId_inj (c c' : Conversation) : answerId c = answerId c' -> sentAt c = sentAt c'.
Proof. unfold answerId. intros H. apply assistantId_inj in H. lia. Qed.

Lemma others_differ (l1 l2 : list Conversation) (c c' : Conversation) :
  NoDup (map sentAt (l1 ++ c :: l2)) -> In c' (l1 ++ l2) -> answerId c <> answerId c'.
Proof.
  intros Hnd Hin Heq. apply answerId_inj in Heq.
  rewrite map_app in Hnd. cbn [map] in Hnd. apply NoDup_remove_2 in Hnd.
  apply Hnd. rewrite <- map_app, Heq. now apply in_map.
Qed.

Lemma timersOf_singleton (c : Conversation) tm : In tm (timersOf c) -> timersOf c = [tm].
Proof.
  unfold timersOf. destruct (phase c); cbn [In]; intros H;
    try (destruct H as [<-|[]]; reflexivity); destruct H.
Qed.

Lemma replace_timer (l1 l2 : list Conversation) (c' : Conversation)
    (cl rest new : list (N * App.Task)) :
  Permutation rest (flat_map timersOf l1 ++ flat_map timersOf l2 ++ cl) ->
  timersOf c' = new ->
  Permutation (rest ++ new) (flat_map timersOf (l1 ++ c' :: l2) ++ cl).
Proof.
  intros Hrest <-. rewrite Hrest, flat_map_app. cbn [flat_map].
  rewrite <- !app_assoc. apply Permutation_app_head.
  rewrite app_assoc. apply Permutation_app_comm.
Qed.

Lemma finish_timer (l1 l2 : list Conversation) (c' : Conversation) (clears : list N)
    (rest : list (N * App.Task)) (d : N) :
  Permutation rest (flat_map timersOf l1 ++ flat_map timersOf l2 ++ clearTimers clears) ->
  timersOf c' = [] ->
  Permutation (rest ++ [(d, App.ClearHighlights)])
    (flat_map timersOf (l1 ++ c' :: l2) ++ clearTimers (clears ++ [d])).
Proof.
  intros Hrest Hnone. rewrite flat_map_app. cbn [flat_map]. rewrite Hnone. cbn [app].
  unfold clearTimers in *. rewrite map_app. cbn [map]. rewrite Hrest.
  rewrite <- !app_assoc. reflexivity.
Qed.

Lemma drop_clear (convs : list Conversation) (cl1 cl2 : list N)
    (ts rest : list (N * App.Task)) (d : N) :
  Permutation ts (flat_map timersOf convs ++ clearTimers (cl1 ++ d :: cl2)) ->
  Permutation ts ((d, App.ClearHighlights) :: rest) ->
  Permutation rest (flat_map timersOf convs ++ clearTimers (cl1 ++ cl2)).
Proof.
  intros Hts Hpop. rewrite Hpop in Hts. unfold clearTimers in *.
  rewrite map_app in *. cbn [map] in Hts.
  apply Permutation_cons_inv with (a := (d, App.ClearHighlights)).
  rewrite Hts, app_assoc. symmetry. rewrite app_assoc. apply Permutation_middle.
Qed.

Lemma remaining_timers (l1 l2 : list Conversation) (c : Conversation)
    (cl ts rest : list (N * App.Task)) tm :
  Permutation ts (flat_map timersOf (l1 ++ c :: l2) ++ cl) ->
  Permutation ts (tm :: rest) ->
  timersOf c = [tm] ->
  Permutation rest (flat_map timersOf l1 ++ flat_map timersOf l2 ++ cl).
Proof.
  intros Hts Hpop Hc. rewrite Hpop, flat_map_app in Hts. cbn [flat_map] in Hts.
  rewrite Hc, <- app_assoc in Hts. cbn [app] in Hts.
  apply Permutation_cons_inv with (a := tm).
  rewrite Hts. symmetry. apply Permutation_middle.
Qed.

Lemma sent_replace (l1 l2 : list Conversation) (c c' : Conversation) :
  sentAt c' = sentAt c -> query c' = query c ->
  sent (l1 ++ c' :: l2) = sent (l1 ++ c :: l2)
  /\ map sentAt (l1 ++ c' :: l2) = map sentAt (l1 ++ c :: l2).
Proof.
  intros Hs Hq. unfold sent. rewrite !map_app. cbn [map]. now rewrite Hs, Hq.
Qed.

Lemma Forall_replace {A : Type} (P Q : A -> Prop) (l1 l2 : list A) (a a' : A) :
  Forall P (l1 ++ a :: l2) ->
  (forall x, In x (l1 ++ l2) -> P x -> Q x) ->
  Q a' ->
  Forall Q (l1 ++ a' :: l2).
Proof.
  intros HP Himp Ha'. apply Forall_app in HP as [H1 H2].
  inversion H2 as [|? ? _ H2']; subst.
  apply Forall_app. split; [|constructor; [exact Ha'|]].
  - apply Forall_forall. intros x Hx. apply Himp; [apply in_or_app; now left|].
    now apply (proj1 (Forall_forall _ _) H1).
  - apply Forall_forall. intros x Hx. apply Himp; [apply in_or_app; now right|].
    now apply (proj1 (Forall_forall _ _) H2').
Qed.

Lemma fire_now (k : App.Task) (w : App.World) : App.now (fire k w) = App.now w.
Proof.
  destruct k; unfold App.fire, App.continueStream;
    try match goal with |- context [if ?b then _ else _] => destruct b end;
    reflexivity.
Qed.

(** Every timer that fires takes its conversation one stage further and
    touches the messages of no other. *)
Lemma fireTimer_inv (convs : list Conversation) (clears : list N) (w : App.World)
    due k rest :
  Inv convs clears w ->
  App.popEarliest (App.timers w) = Some ((due, k), rest) ->
  exists convs' clears',
    Inv convs' clears' (fireTimer due k rest w)
    /\ sent convs' = sent convs
    /\ App.now (fireTimer due k rest w) = due.
Proof.
  intros [Hnd Hperm Hfut Hok] Hpop.
  pose proof (popEarliest_perm _ _ _ Hpop) as Hp.
  pose proof (popEarliest_min _ _ _ Hpop) as Hmin. cbn [fst] in Hmin.
  assert (Hin : In (due, k) (App.timers w)) by (rewrite Hp; now left).
  assert (Hmax : N.max (App.now w) due = due).
  { apply (proj1 (Forall_forall _ _) Hfut) in Hin. cbn [fst] in Hin. lia. }
  assert (Hnow : App.now (fireTimer due k rest w) = due).
  { unfold App.fireTimer. rewrite fire_now. wsimpl. exact Hmax. }
  assert (Hfuture : forall new,
            Forall (fun tm => (due <= fst tm)%N) new ->
            Forall (fun tm => (due <= fst tm)%N) (rest ++ new)).
  { intros new Hnew. apply Forall_app. split; assumption. }
  pose proof (Permutation_in _ Hperm Hin) as Hwhere.
  apply in_app_or in Hwhere as [Hconv|Hclear].
  - (* the timer of a conversation *)
    apply in_flat_map in Hconv as (c & Hc & Hk).
    apply in_split in Hc as (l1 & l2 & ->).
    pose proof (timersOf_singleton _ _ Hk) as Hsingle.
    pose proof (remaining_timers _ _ _ _ _ _ _ Hperm Hp Hsingle) as Hrest.
    pose proof (fun c' => others_differ l1 l2 c c' Hnd) as Hdiff.
    assert (Hc : convOk (App.messages w) c).
    { apply (proj1 (Forall_forall _ _) Hok). apply in_or_app. right. now left. }
    unfold timersOf in Hsingle. unfold convOk in Hc.
    destruct c as [t q ph]. cbn [phase sentAt query] in *.
    destruct ph as [| |sdue i acc|]; try discriminate;
      injection Hsingle as <- <-.
    + (* the processing delay is over *)
      set (c' := Build_Conversation t q Retrieving).
      destruct (sent_replace l1 l2 (Build_Conversation t q Processing) c' eq_refl eq_refl)
        as [Hsent Hat].
      exists (l1 ++ c' :: l2), clears. split; [|split; [exact Hsent | exact Hnow]].
      constructor.
      * now rewrite Hat.
      * unfold App.fireTimer, App.fire. wsimpl. rewrite Hmax.
        apply replace_timer; [exact Hrest|]. unfold timersOf, c'. cbn [phase sentAt query].
        do 2 f_equal. lia.
      * rewrite Hnow. unfold App.fireTimer, App.fire. wsimpl. rewrite Hmax.
        apply Hfuture. constructor; [cbn [fst]; lia | constructor].
      * unfold App.fireTimer, App.fire. wsimpl.
        eapply Forall_replace; [exact Hok | auto | exact I].
    + (* the retrieval delay is over: the answer message is made *)
      set (c0 := Build_Conversation t q Retrieving).
      set (c' := Build_Conversation t q (Streaming (t + 1300 + 30) 0 "")).
      destruct (sent_replace l1 l2 c0 c' eq_refl eq_refl) as [Hsent Hat].
      assert (Hwords : wordsOf c' <> []) by apply split_not_nil.
      exists (l1 ++ c' :: l2), clears. split; [|split; [exact Hsent | exact Hnow]].
      unfold App.fireTimer, App.fire in *.
      fold (answerOf q) in *. change (JS.split " " (answerOf q)) with (wordsOf c') in *.
      rewrite continueStream_first in * by exact Hwords.
      constructor.
      * now rewrite Hat.
      * wsimpl. rewrite Hmax.
        apply replace_timer; [exact Hrest|]. reflexivity.
      * wsimpl_in Hnow. wsimpl. rewrite Hmax.
        apply Hfuture. constructor; [cbn [fst]; lia | constructor].
      * wsimpl. rewrite Hmax.
        eapply Forall_replace; [exact Hok | |].
        -- intros x Hx. apply convOk_append. cbn [Message.id].
           intros Heq. apply (Hdiff x Hx). exact Heq.
        -- unfold convOk, c'. cbn [phase query].
           split; [|split].
           ++ destruct (wordsOf _); [contradiction | cbn; lia].
           ++ apply restOf_all.
           ++ eexists. split; [apply in_or_app; right; now left|]. split; reflexivity.
    + (* a chunk arrives *)
      destruct Hc as (Hi & Hacc & Hhas).
      set (c0 := Build_Conversation t q (Streaming sdue i acc)) in *.
      set (acc' := (acc ++ Utils.chunk (wordsOf c0) i)%string).
      unfold App.fireTimer, App.fire in *. fold acc' in Hnow |- *.
      unfold App.continueStream in *.
      destruct (Nat.ltb_spec (S i) (List.length (wordsOf c0))) as [Hmore|Hlast].
      * set (c' := Build_Conversation t q (Streaming (sdue + 30) (S i) acc')).
        destruct (sent_replace l1 l2 c0 c' eq_refl eq_refl) as [Hsent Hat].
        exists (l1 ++ c' :: l2), clears. split; [|split; [exact Hsent | exact Hnow]].
        constructor.
        -- now rewrite Hat.
        -- wsimpl. rewrite Hmax. apply replace_timer; [exact Hrest|]. reflexivity.
        -- wsimpl_in Hnow. wsimpl. rewrite Hmax.
           apply Hfuture. constructor; [cbn [fst]; lia | constructor].
        -- wsimpl.
           eapply Forall_replace; [exact Hok | |].
           ++ intros x Hx. apply convOk_map; [apply withContent_keeps|].
              intros m Hm. rewrite withContent_other; [reflexivity|].
              rewrite Hm. intros Heq. apply (Hdiff x Hx). now symmetry.
           ++ unfold convOk, c'. cbn [phase query]. split; [exact Hmore|]. split.
              ** unfold acc'. rewrite append_assoc.
                 change (wordsOf (Build_Conversation t q _)) with (wordsOf c0).
                 rewrite <- restOf_step by exact Hi. exact Hacc.
              ** destruct Hhas as (m & Hm & Hid & Hrole).
                 exists (App.withContent (answerId c0) acc' m).
                 destruct (withContent_keeps (answerId c0) acc' m) as [-> ->].
                 split; [now apply in_map|]. split; assumption.
      * set (c' := Build_Conversation t q Done).
        destruct (sent_replace l1 l2 c0 c' eq_refl eq_refl) as [Hsent Hat].
        exists (l1 ++ c' :: l2), (clears ++ [(sdue + 3000)%N]).
        split; [|split; [exact Hsent | exact Hnow]].
        assert (Hfull : acc' = answerOf q).
        { rewrite <- Hacc. unfold acc'. rewrite (restOf_step _ i) by exact Hi.
          rewrite (restOf_end _ (S i)) by exact Hlast. now rewrite append_empty_r. }
        constructor.
        -- now rewrite Hat.
        -- wsimpl. rewrite Hmax. apply finish_timer; [exact Hrest | reflexivity].
        -- wsimpl_in Hnow. wsimpl. rewrite Hmax.
           apply Hfuture. constructor; [cbn [fst]; lia | constructor].
        -- wsimpl.
           eapply Forall_replace; [exact Hok | |].
           ++ intros x Hx Hconv. apply convOk_map; [apply streamingDone_keeps | |].
              { intros m _. apply streamingDone_content. }
              apply convOk_map; [apply withContent_keeps | | exact Hconv].
              intros m Hm. rewrite withContent_other; [reflexivity|].
              rewrite Hm. intros Heq. apply (Hdiff x Hx). now symmetry.
           ++ unfold convOk, c'. cbn [phase query]. split.
              ** destruct Hhas as (m & Hm & Hid & Hrole).
                 exists (App.streamingDone (answerId c0) (App.withContent (answerId c0) acc' m)).
                 destruct (streamingDone_keeps (answerId c0)
                             (App.withContent (answerId c0) acc' m)) as [-> ->].
                 destruct (withContent_keeps (answerId c0) acc' m) as [-> ->].
                 split; [now apply in_map, in_map|]. split; assumption.
              ** intros m' Hm' Hid.
                 apply in_map_iff in Hm' as (m1 & <- & Hm1).
                 apply in_map_iff in Hm1 as (m & <- & Hm).
                 rewrite streamingDone_content.
                 destruct (streamingDone_keeps (answerId c0)
                             (App.withContent (answerId c0) acc' m)) as [Eid _].
                 rewrite Eid in Hid.
                 destruct (withContent_keeps (answerId c0) acc' m) as [Eid' _].
                 rewrite Eid' in Hid.
                 rewrite withContent_own by exact Hid. exact Hfull.
  - (* a highlight timeout *)
    unfold clearTimers in Hclear. apply in_map_iff in Hclear as (d & Hd & Hdin).
    injection Hd as -> <-.
    apply in_split in Hdin as (cl1 & cl2 & ->).
    exists convs, (cl1 ++ cl2). split; [|split; [reflexivity | exact Hnow]].
    unfold App.fireTimer, App.fire in *. constructor.
    + exact Hnd.
    + wsimpl. eapply drop_clear; [exact Hperm | exact Hp].
    + wsimpl. rewrite Hmax. exact Hmin.
    + wsimpl. exact Hok.
Qed.

(** A user event changes the timers and the messages of no answer in
    flight; a query starts a conversation of its own. *)
Lemma handle_inv (convs : list Conversation) (clears : list N) (w : App.World)
    (e : App.UserEvent) :
  Inv convs clears w ->
  ~ In (App.now w) (map sentAt convs) ->
  exists convs',
    Inv convs' clears (handle e w)
    /\ sent convs' = sent convs ++ sendsOf (App.now w) e
    /\ App.now (handle e w) = App.now w.
Proof.
  intros [Hnd Hperm Hfut Hok] Hfresh.
  assert (Hselect : forall node,
            exists convs',
              Inv convs' clears (App.handleNodeSelect node w)
              /\ sent convs' = sent convs ++ []
              /\ App.now (App.handleNodeSelect node w) = App.now w).
  { intros [n|]; exists convs;
      (split; [constructor; assumption | split; [symmetry; apply app_nil_r | reflexivity]]). }
  destruct e as [content|d| |node|node| ];
    try apply Hselect;
    try (exists convs;
         split; [constructor; assumption | split; [symmetry; apply app_nil_r | reflexivity]]).
  set (c := Build_Conversation (App.now w) content Processing).
  exists (convs ++ [c]). split; [|split].
  - unfold App.handle, App.handleSendMessage. constructor.
    + rewrite map_app. cbn [map]. apply (Permutation_NoDup (Permutation_cons_append _ _)).
      constructor; assumption.
    + wsimpl. rewrite flat_map_app. cbn [flat_map]. rewrite app_nil_r.
      rewrite Hperm, <- !app_assoc. apply Permutation_app_head, Permutation_app_comm.
    + wsimpl. apply Forall_app. split; [exact Hfut|].
      constructor; [cbn [fst]; lia | constructor].
    + wsimpl. apply Forall_app. split.
      * eapply Forall_impl; [|exact Hok]. intros x. apply convOk_append.
        cbn [Message.id]. apply userId_not_assistantId.
      * constructor; [exact I | constructor].
  - unfold sent. rewrite map_app. reflexivity.
  - reflexivity.
Qed.

Lemma setNow_inv (convs : list Conversation) (clears : list N) (w : App.World) (t : N) :
  Inv convs clears w ->
  Forall (fun tm => (t <= fst tm)%N) (App.timers w) ->
  Inv convs clears (App.setNow t w).
Proof. intros [Hnd Hperm Hfut Hok] Ht. constructor; assumption. Qed.

(** Letting the clock reach [t] keeps the conversations, each at a later
    stage. *)
Lemma advance_inv (fuel : nat) (t : N) (convs : list Conversation) (clears : list N)
    (w w' : App.World) :
  Inv convs clears w ->
  (App.now w <= t)%N ->
  advance fuel t w = Some w' ->
  exists convs' clears',
    Inv convs' clears' w' /\ sent convs' = sent convs /\ App.now w' = t.
Proof.
  revert convs clears w; induction fuel as [|fuel IH]; intros convs clears w HI Hnow Hadv;
    simpl in Hadv;
    destruct (App.popEarliest (App.timers w)) as [[[due k] rest]|] eqn:E.
  all: try (destruct (N.leb_spec due t) as [Hdue|Hdue]; [|
    injection Hadv as <-; exists convs, clears;
    split; [|split; [reflexivity | cbn; lia]];
    apply setNow_inv; [exact HI|];
    pose proof (popEarliest_perm _ _ _ E) as Hp;
    pose proof (popEarliest_min _ _ _ E) as Hmin; cbn [fst] in Hmin;
    rewrite Hp; constructor; [cbn [fst]; lia|];
    eapply Forall_impl; [|exact Hmin]; cbn; intros; lia]).
  all: try (injection Hadv as <-; exists convs, clears;
    split; [|split; [reflexivity | cbn; lia]];
    apply setNow_inv; [exact HI|];
    apply popEarliest_none in E; rewrite E; constructor).
  - discriminate.
  - destruct (fireTimer_inv _ _ _ _ _ _ HI E) as (convs1 & clears1 & HI1 & Hsent1 & Hnow1).
    destruct (IH _ _ _ HI1 ltac:(lia) Hadv) as (convs' & clears' & HI' & Hsent' & Hnow').
    exists convs', clears'. split; [exact HI'|]. split; [congruence | exact Hnow'].
Qed.

Lemma drain_inv (fuel : nat) (convs : list Conversation) (clears : list N)
    (w wf : App.World) :
  Inv convs clears w ->
  drain fuel w = Some wf ->
  exists convs' clears',
    Inv convs' clears' wf /\ sent convs' = sent convs /\ App.timers wf = [].
Proof.
  revert convs clears w; induction fuel as [|fuel IH]; intros convs clears w HI Hdrain;
    simpl in Hdrain;
    destruct (App.popEarliest (App.timers w)) as [[[due k] rest]|] eqn:E;
    try discriminate;
    try (injection Hdrain as <-; exists convs, clears;
         split; [exact HI|]; split; [reflexivity | now apply popEarliest_none]).
  destruct (fireTimer_inv _ _ _ _ _ _ HI E) as (convs1 & clears1 & HI1 & Hsent1 & _).
  destruct (IH _ _ _ HI1 Hdrain) as (convs' & clears' & HI' & Hsent' & Hempty).
  exists convs', clears'. split; [exact HI'|]. split; [congruence | exact Hempty].
Qed.

(** When no timer is left, every conversation is done: its answer
    message holds the whole answer. *)
Lemma answered (convs : list Conversation) (clears : list N) (w : App.World)
    (t : N) (q : string) :
  Inv convs clears w ->
  App.timers w = [] ->
  In (t, q) (sent convs) ->
  (exists m, In m (App.messages w)
             /\ Message.id m = App.assistantId (t + 1300)
             /\ Message.role m = assistant)
  /\ (forall m, In m (App.messages w) ->
                Message.id m = App.assistantId (t + 1300) ->
                Message.content m = answerOf q).
Proof.
  intros [Hnd Hperm Hfut Hok] Hempty Hin.
  unfold sent in Hin. apply in_map_iff in Hin as (c & Hc & Hin).
  injection Hc as <- <-.
  rewrite Hempty in Hperm. apply Permutation_nil, app_eq_nil in Hperm as [Hnone _].
  assert (Hdone : timersOf c = []).
  { destruct (timersOf c) as [|tm ts] eqn:Etm; [reflexivity|].
    assert (Hin' : In tm (flat_map timersOf convs)).
    { apply in_flat_map. exists c. split; [exact Hin | rewrite Etm; now left]. }
    rewrite Hnone in Hin'. destruct Hin'. }
  apply (proj1 (Forall_forall _ _) Hok) in Hin. unfold convOk in Hin.
  unfold timersOf in Hdone. destruct (phase c); try discriminate.
  exact Hin.
Qed.

Lemma scheduleSteps_cons (t : N) (e : App.UserEvent) (schedule : list (N * App.UserEvent)) :
  scheduleSteps ((t, e) :: schedule) = (eventSteps e + scheduleSteps schedule)%nat.
Proof. reflexivity. Qed.

Lemma handle_steps (e : App.UserEvent) (w : App.World) :
  pendingSteps (App.timers (handle e w))
  = (pendingSteps (App.timers w) + eventSteps e)%nat.
Proof.
  destruct e as [content|d| |node|node| ]; cbn [eventSteps]; rewrite ?Nat.add_0_r;
    try reflexivity.
  - unfold App.handle, App.handleSendMessage. wsimpl. rewrite pendingSteps_app.
    unfold pendingSteps at 2. cbn [map list_sum fold_right snd]. unfold stepsOfQuery. lia.
  - unfold App.handle, App.clickNode. destruct (App.isSelected d w); reflexivity.
Qed.

Lemma run_inv (schedule : list (N * App.UserEvent)) :
  forall (w : App.World) (convs : list Conversation) (clears : list N) (fuel : nat),
    Inv convs clears w ->
    StronglySorted N.lt (map fst schedule) ->
    Forall (fun te => (App.now w <= fst te)%N
                      /\ Forall (fun s => (s < fst te)%N) (map fst (sent convs)))
           schedule ->
    (pendingSteps (App.timers w) + scheduleSteps schedule <= fuel)%nat ->
    exists w' convs' clears',
      run fuel schedule w = Some w'
      /\ Inv convs' clears' w'
      /\ sent convs' = sent convs ++ sends schedule
      /\ (pendingSteps (App.timers w')
          <= pendingSteps (App.timers w) + scheduleSteps schedule)%nat.
Proof.
  induction schedule as [|[t e] schedule IH]; intros w convs clears fuel HI Hsorted Hpre Hfuel.
  - exists w, convs, clears. cbn [App.run sends flat_map]. rewrite app_nil_r.
    split; [reflexivity|]. split; [exact HI|]. split; [reflexivity|].
    unfold scheduleSteps. cbn [map list_sum fold_right]. lia.
  - rewrite scheduleSteps_cons in Hfuel.
    cbn [map fst] in Hsorted. apply StronglySorted_inv in Hsorted as [Hsorted Hlater].
    inversion Hpre as [|? ? [Hnow Hold] Hpre']; subst. cbn [fst] in Hnow, Hold.
    destruct (advance_terminates fuel t w ltac:(lia)) as (w1 & Hadv & Hsteps1).
    destruct (advance_inv _ _ _ _ _ _ HI Hnow Hadv) as (convs1 & clears1 & HI1 & Hsent1 & Hnow1).
    assert (Hfresh : ~ In (App.now w1) (map sentAt convs1)).
    { rewrite <- sent_sentAt, Hsent1, Hnow1. intros Hin.
      apply (proj1 (Forall_forall _ _) Hold) in Hin. lia. }
    destruct (handle_inv _ _ _ e HI1 Hfresh) as (convs2 & HI2 & Hsent2 & Hnow2).
    rewrite Hnow1 in Hsent2, Hnow2.
    pose proof (handle_steps e w1) as Hsteps2.
    destruct (IH (handle e w1) convs2 clears1 fuel HI2 Hsorted) as
      (w' & convs' & clears' & Hrun & HI' & Hsent' & Hsteps'); [|lia|].
    + apply Forall_forall. intros [t' e'] Hin. cbn [fst].
      assert (Htt' : (t < t')%N).
      { apply (proj1 (Forall_forall _ _) Hlater). apply in_map_iff.
        exists (t', e'). now split. }
      split; [lia|].
      rewrite Hsent2, Hsent1, map_app. apply Forall_app. split.
      * apply (proj1 (Forall_forall _ _) Hpre') in Hin. cbn [fst] in Hin. apply Hin.
      * destruct e; cbn; repeat constructor. exact Htt'.
    + exists w', convs', clears'. cbn [App.run]. rewrite Hadv.
      split; [exact Hrun|]. split; [exact HI'|]. split.
      * rewrite Hsent', Hsent2, Hsent1, <- app_assoc. reflexivity.
      * rewrite scheduleSteps_cons. lia.
Qed.

(** Every query of a session gets its whole answer, whatever else was
    sent or clicked meanwhile, the events coming at different
    milliseconds. *)
Lemma session_answers (schedule : list (N * App.UserEvent)) (fuel : nat) :
  StronglySorted N.lt (map fst schedule) ->
  (scheduleSteps schedule <= fuel)%nat ->
  exists wf,
    session fuel schedule = Some wf
    /\ App.timers wf = []
    /\ forall t q, In (t, App.SendMessage q) schedule ->
         (exists m, In m (App.messages wf)
                    /\ Message.id m = App.assistantId (t + 1300)
                    /\ Message.role m = assistant)
         /\ (forall m, In m (App.messages wf) ->
                       Message.id m = App.assistantId (t + 1300) ->
                       Message.content m = answerOf q).
Proof.
  intros Hsorted Hfuel.
  assert (HI0 : Inv [] [] App.initialWorld) by (constructor; constructor).
  destruct (run_inv schedule App.initialWorld [] [] fuel HI0 Hsorted) as
    (w & convs & clears & Hrun & HI & Hsent & Hsteps).
  { apply Forall_forall. intros te _. split; [cbn; lia | constructor]. }
  { cbn. exact Hfuel. }
  cbn in Hsteps.
  destruct (drain_terminates fuel w ltac:(lia)) as (wf & Hdrain & Hempty).
  destruct (drain_inv _ _ _ _ _ HI Hdrain) as (convs' & clears' & HI' & Hsent' & _).
  exists wf. unfold App.session. rewrite Hrun. split; [exact Hdrain|]. split; [exact Hempty|].
  intros t q Hin. apply (answered convs' clears' wf t q HI' Hempty).
  rewrite Hsent', Hsent. cbn [app]. unfold sends. apply in_flat_map.
  exists (t, App.SendMessage q). split; [exact Hin | now left].
Qed.

(** C4, as the sources have it.  A second query sent at a later
    millisecond than a first, in particular while the answer to the
    first is still being emitted, abandons nothing: the timers run out,
    and then the answer message of the first query holds the whole
    answer to the first query and the answer message of the second holds
    the whole answer to the second, each answer in a message of its own
    with nothing of the other in it. *)
Theorem overlapping_answers_both_complete (q1 q2 : string) (t1 t2 : N) (fuel : nat) :
  (t1 < t2)%N ->
  (stepsOfQuery q1 + stepsOfQuery q2 <= fuel)%nat ->
  exists wf m1 m2,
    session fuel [(t1, App.SendMessage q1); (t2, App.SendMessage q2)] = Some wf
    /\ App.timers wf = []
    /\ In m1 (App.messages wf)
    /\ Message.id m1 = App.assistantId (t1 + 1300)
    /\ Message.role m1 = assistant
    /\ Message.content m1 = answerOf q1
    /\ In m2 (App.messages wf)
    /\ Message.id m2 = App.assistantId (t2 + 1300)
    /\ Message.role m2 = assistant
    /\ Message.content m2 = answerOf q2
    /\ Message.id m1 <> Message.id m2
    /\ (forall m, In m (App.messages wf) ->
                  (Message.id m = Message.id m1 -> Message.content m = answerOf q1)
                  /\ (Message.id m = Message.id m2 -> Message.content m = answerOf q2)).
Proof.
  intros Hlt Hfuel.
  destruct (session_answers [(t1, App.SendMessage q1); (t2, App.SendMessage q2)] fuel)
    as (wf & Hrun & Hempty & Hall).
  { cbn [map fst]. repeat constructor. exact Hlt. }
  { rewrite !scheduleSteps_cons. cbn [eventSteps]. unfold scheduleSteps.
    cbn [map list_sum fold_right]. lia. }
  destruct (Hall t1 q1 ltac:(now left)) as ((m1 & Hin1 & Hid1 & Hrole1) & Hall1).
  destruct (Hall t2 q2 ltac:(right; now left)) as ((m2 & Hin2 & Hid2 & Hrole2) & Hall2).
  exists wf, m1, m2. repeat split; try assumption.
  - now apply Hall1.
  - now apply Hall2.
  - rewrite Hid1, Hid2. intros Heq. apply assistantId_inj in Heq. lia.
  - intros Hm. apply Hall1; [assumption | congruence].
  - intros Hm. apply Hall2; [assumption | congruence].
Qed.

(* ================================================================== *)
(** * Facts about the drawing of relationships (GraphVisualization.tsx) *)
(* ================================================================== *)

Lemma resolve_is_node (nodes : list GraphNode.t) (e e' : Endpoint) :
  GraphVisualization.resolve nodes e = Some e' -> exists n, e' = EndNode n.
Proof.
  destruct e as [nodeId|n]; cbn.
  - destruct (GraphVisualization.nodeById nodes nodeId) as [n|]; [|discriminate].
    intros H. injection H as <-. now exists n.
  - intros H. injection H as <-. now exists n.
Qed.

(** Once the link force is initialized, both endpoints of every
    relationship are node objects. *)
Lemma initializeLinks_nodes (nodes : list GraphNode.t)
    (links links' : list GraphRelationship.t) :
  GraphVisualization.initializeLinks nodes links = Some links' ->
  forall d, In d links' ->
            exists s t, GraphRelationship.source d = EndNode s
                        /\ GraphRelationship.target d = EndNode t.
Proof.
  revert links'; induction links as [|link links IH]; intros links' H d Hd.
  - injection H as <-. destruct Hd.
  - cbn in H. unfold GraphVisualization.initializeLink in H.
    destruct (GraphVisualization.resolve nodes (GraphRelationship.source link)) as [s|] eqn:Es;
      [|discriminate].
    destruct (GraphVisualization.resolve nodes (GraphRelationship.target link)) as [t|] eqn:Et;
      [|discriminate].
    destruct (GraphVisualization.initializeLinks nodes links) as [ls|]; [|discriminate].
    injection H as <-. destruct Hd as [<-|Hd]; [|now apply (IH ls)].
    apply resolve_is_node in Es as (sn & ->). apply resolve_is_node in Et as (tn & ->).
    now exists sn, tn.
Qed.

(** So no line is ever drawn highlighted, whatever the highlight set. *)
Lemma drawn_links_never_highlighted (data : GraphData.t) (highlightedNodes : list string)
    (drawn : list (GraphRelationship.t * string)) :
  GraphVisualization.drawnLinks data highlightedNodes = Some drawn ->
  forall d color, In (d, color) drawn -> color = "#cbd5e1".
Proof.
  unfold GraphVisualization.drawnLinks, GraphVisualization.runEffect.
  destruct (GraphData.nodes data) as [|n ns] eqn:En.
  - intros H. injection H as <-. intros d color [].
  - rewrite <- En.
    destruct (GraphVisualization.initializeLinks _ _) as [links|] eqn:E; [|discriminate].
    intros H. injection H as <-. intros d color Hin.
    apply in_map_iff in Hin as (d0 & Hd0 & Hin). injection Hd0 as -> <-.
    destruct (initializeLinks_nodes _ _ _ E d Hin) as (s & t & Hs & Ht).
    unfold GraphVisualization.stroke, GraphVisualization.linkHighlighted.
    now rewrite Hs.
Qed.

(* ================================================================== *)
(** * Facts about the force layout *)
(* ================================================================== *)

Lemma integrate_pinned (a : Q) (all : list GraphNode.t) (d : GraphNode.t) (px py : Q) :
  pinnedAt px py d ->
  pinnedAt px py (integrate a all d) /\ restsAt px py (integrate a all d).
Proof.
  intros [Hx Hy]. unfold Layout.integrate, pinnedAt, restsAt.
  rewrite Hx, Hy. cbn. repeat split; assumption.
Qed.

Lemma tick_pinned (s : Layout.Simulation) (i : nat) (d : GraphNode.t) (px py : Q) :
  nth_error (Layout.nodes s) i = Some d ->
  pinnedAt px py d ->
  exists d', nth_error (Layout.nodes (tick s)) i = Some d'
             /\ pinnedAt px py d' /\ restsAt px py d'.
Proof.
  intros Hnth Hpin. eexists. split.
  - unfold Layout.tick. cbn [Layout.nodes]. rewrite nth_error_map, Hnth. reflexivity.
  - now apply integrate_pinned.
Qed.

Lemma ticks_pinned (n : nat) (s : Layout.Simulation) (i : nat) (d : GraphNode.t)
    (px py : Q) :
  nth_error (Layout.nodes s) i = Some d ->
  pinnedAt px py d ->
  exists d', nth_error (Layout.nodes (ticks (S n) s)) i = Some d'
             /\ pinnedAt px py d' /\ restsAt px py d'.
Proof.
  revert s d; induction n as [|n IH]; intros s d Hnth Hpin.
  - exact (tick_pinned s i d px py Hnth Hpin).
  - destruct (tick_pinned s i d px py Hnth Hpin) as (d1 & Hnth1 & Hpin1 & _).
    exact (IH (tick s) d1 Hnth1 Hpin1).
Qed.

(** C7. A node pinned at [(px, py)] lies exactly at [(px, py)], with
    velocity zero, after every tick, and is still pinned there: so
    after any number of ticks, one at least, as long as the pin is
    neither moved nor released. *)
Theorem pinned_node_stays_at_pin (n : nat) (s : Layout.Simulation) (i : nat)
    (d : GraphNode.t) (px py : Q) :
  nth_error (Layout.nodes s) i = Some d ->
  GraphNode.fx d = Some px ->
  GraphNode.fy d = Some py ->
  exists d', nth_error (Layout.nodes (ticks (S n) s)) i = Some d'
             /\ GraphNode.x d' = Some px /\ GraphNode.y d' = Some py
             /\ GraphNode.vx d' = Some 0 /\ GraphNode.vy d' = Some 0
             /\ GraphNode.fx d' = Some px /\ GraphNode.fy d' = Some py.
Proof.
  intros Hnth Hfx Hfy.
  destruct (ticks_pinned n s i d px py Hnth (conj Hfx Hfy))
    as (d' & Hnth' & [Hfx' Hfy'] & (Hx & Hy & Hvx & Hvy)).
  exists d'. repeat split; assumption.
Qed.

Lemma nth_error_updateAt (i : nat) (f : GraphNode.t -> GraphNode.t)
    (ns : list GraphNode.t) (d : GraphNode.t) :
  nth_error ns i = Some d -> nth_error (Layout.updateAt i f ns) i = Some (f d).
Proof.
  revert i; induction ns as [|a ns IH]; intros [|i] H; cbn in *; try discriminate.
  - now injection H as ->.
  - now apply IH.
Qed.

(** The drag handlers pin and release: a dragged node follows the
    pointer at every tick, from the position it has when the drag
    starts, and a released node is pinned no more. *)
Lemma dragged_node_follows_pointer (n : nat) (s : Layout.Simulation) (i : nat)
    (d : GraphNode.t) (eventX eventY : Q) (active : bool) :
  nth_error (Layout.nodes s) i = Some d ->
  (exists d', nth_error (Layout.nodes
                           (ticks (S n) (GraphVisualization.dragged eventX eventY i s))) i
              = Some d'
              /\ GraphNode.x d' = Some eventX /\ GraphNode.y d' = Some eventY)
  /\ (exists d', nth_error (Layout.nodes (GraphVisualization.dragstarted active i s)) i
                 = Some d'
                 /\ GraphNode.fx d' = GraphNode.x d /\ GraphNode.fy d' = GraphNode.y d)
  /\ (exists d', nth_error (Layout.nodes (GraphVisualization.dragended active i s)) i
                 = Some d'
                 /\ GraphNode.fx d' = None /\ GraphNode.fy d' = None).
Proof.
  intros Hnth. split; [|split].
  - destruct (ticks_pinned n (GraphVisualization.dragged eventX eventY i s) i
                (GraphVisualization.setPin (Some eventX) (Some eventY) d) eventX eventY)
      as (d' & Hnth' & _ & (Hx & Hy & _)).
    + unfold GraphVisualization.dragged. cbn [Layout.nodes]. now apply nth_error_updateAt.
    + split; reflexivity.
    + now exists d'.
  - eexists. split.
    + unfold GraphVisualization.dragstarted. cbn [Layout.nodes].
      apply nth_error_updateAt. destruct active; exact Hnth.
    + split; reflexivity.
  - eexists. split.
    + unfold GraphVisualization.dragended. cbn [Layout.nodes].
      apply nth_error_updateAt. exact Hnth.
    + split; reflexivity.
Qed.

(** ** Cooling *)

Lemma qpow_nonneg (q : Q) (n : nat) : 0 <= q -> 0 <= qpow q n.
Proof.
  intros Hq. induction n as [|n IH]; cbn [qpow]; [lra | now apply Qmult_le_0_compat].
Qed.

Lemma qpow_mono (a b : Q) (n : nat) : 0 <= a -> a <= b -> qpow a n <= qpow b n.
Proof.
  intros Ha Hab. induction n as [|n IH]; cbn [qpow]; [lra|].
  apply Qmult_le_compat_nonneg; split; try assumption. now apply qpow_nonneg.
Qed.

(** After [n] ticks, [alpha] is [alpha * (1 - decayRate)^n]. *)
Lemma alpha_ticks (n : nat) (s : Layout.Simulation) :
  Layout.alpha (ticks n s) == Layout.alpha s * qpow (1 - decayRate) n.
Proof.
  revert s; induction n as [|n IH]; intros s; cbn [Layout.ticks qpow].
  - ring.
  - rewrite IH. unfold Layout.tick. cbn [Layout.alpha]. ring.
Qed.

Lemma ticksToSettle_some (fuel : nat) (s : Layout.Simulation) (n : nat) :
  ticksToSettle fuel s = Some n ->
  (n <= fuel)%nat /\ Layout.alpha (ticks n s) < Layout.alphaMin.
Proof.
  revert s n; induction fuel as [|fuel IH]; intros s n H; cbn [Layout.ticksToSettle] in H;
    destruct (Qlt_le_dec (Layout.alpha s) Layout.alphaMin) as [Hlt|Hle].
  - injection H as <-. split; [lia | exact Hlt].
  - discriminate.
  - injection H as <-. split; [lia | exact Hlt].
  - destruct (ticksToSettle fuel (tick s)) as [m|] eqn:E; [|discriminate].
    injection H as <-. apply IH in E as [Hm Halpha]. split; [lia | exact Halpha].
Qed.

Lemma ticksToSettle_none (fuel : nat) (s : Layout.Simulation) :
  ticksToSettle fuel s = None -> Layout.alphaMin <= Layout.alpha (ticks fuel s).
Proof.
  revert s; induction fuel as [|fuel IH]; intros s H; cbn [Layout.ticksToSettle] in H;
    destruct (Qlt_le_dec (Layout.alpha s) Layout.alphaMin) as [Hlt|Hle];
    try discriminate.
  - exact Hle.
  - destruct (ticksToSettle fuel (tick s)) as [m|] eqn:E; [discriminate|].
    cbn [Layout.ticks]. now apply IH.
Qed.

(** The number of ticks to settlement depends on [alpha] alone. *)
Lemma ticksToSettle_alpha (fuel : nat) (s s' : Layout.Simulation) :
  Layout.alpha s = Layout.alpha s' -> ticksToSettle fuel s = ticksToSettle fuel s'.
Proof.
  revert s s'; induction fuel as [|fuel IH]; intros s s' H; cbn [Layout.ticksToSettle];
    rewrite H; [reflexivity|].
  destruct (Qlt_le_dec (Layout.alpha s') Layout.alphaMin); [reflexivity|].
  rewrite (IH (tick s) (tick s')); [reflexivity|].
  unfold Layout.tick. cbn [Layout.alpha]. now rewrite H.
Qed.

Lemma cooled_after_400 : qpow (49 # 50) 400 < 1 # 1000.
Proof. vm_compute. reflexivity. Qed.

(** C8. For every store, whatever its size and the forces, with a
    decay rate of 0.02 at least (and 1 at most; 0.0228 is one), ticking
    from [alpha = 1] until [alpha] is below the threshold 0.001 stops
    within 400 ticks. *)
Theorem settles_within_400_ticks (place : nat -> GraphNode.t -> GraphNode.t)
    (store : GraphData.t) :
  1 # 50 <= decayRate ->
  decayRate <= 1 ->
  exists n, ticksToSettle 400 (Layout.createLayout place store) = Some n
            /\ (n <= 400)%nat
            /\ Layout.alpha (ticks n (Layout.createLayout place store)) < Layout.alphaMin.
Proof.
  intros Hlo Hhi. set (s0 := Layout.createLayout place store).
  destruct (ticksToSettle 400 s0) as [n|] eqn:E.
  - exists n. split; [reflexivity|]. now apply ticksToSettle_some.
  - exfalso. apply ticksToSettle_none in E. rewrite alpha_ticks in E.
    change (Layout.alpha s0) with 1 in E.
    assert (Hpow : qpow (1 - decayRate) 400 <= qpow (49 # 50) 400).
    { apply qpow_mono; lra. }
    pose proof cooled_after_400 as Hcool. unfold Layout.alphaMin in E. lra.
Qed.


(* ================================================================== *)
(** * More facts about [streamText] (lib/utils.ts) *)
(* ================================================================== *)


Lemma split_length (sep : ascii) (s : string) :
  List.length (JS.split sep s) = S (countChar sep s).
Proof.
  induction s as [|c s IH]; [reflexivity|].
  cbn [JS.split countChar]. destruct (Ascii.eqb c sep).
  - cbn [List.length]. now rewrite IH.
  - destruct (JS.split sep s) as [|w ws]; cbn [List.length] in *; lia.
Qed.

Lemma split_pieces_free (sep : ascii) (s : string) :
  Forall (fun v => countChar sep v = O) (JS.split sep s).
Proof.
  induction s as [|c s IH]; [repeat constructor|].
  cbn [JS.split]. destruct (Ascii.eqb c sep) eqn:E.
  - constructor; [reflexivity | exact IH].
  - destruct (JS.split sep s) as [|w ws].
    + repeat constructor. cbn. now rewrite E.
    + inversion IH as [|? ? Hw Hws]; subst. constructor; [|exact Hws].
      cbn. now rewrite E.
Qed.

Lemma streamLoop_pairs (words : list string) (delayMs : Z) (i n : nat) :
  Utils.streamLoop words delayMs i n
  = flat_map (fun c => [Utils.Wait delayMs; Utils.Yield c])
      (Utils.yielded (Utils.streamLoop words delayMs i n)).
Proof.
  revert i; induction n as [|n IH]; intros i; [reflexivity|].
  cbn [Utils.streamLoop Utils.yielded flat_map app]. now rewrite <- IH.
Qed.

(** X1. For every text and delay, the run of [streamText] is a wait of
    the delay followed by a chunk, over and over, and nothing else; and
    it yields one chunk more than the text has spaces -- one chunk,
    empty, for the empty text. *)
Theorem streamText_waits_before_every_chunk (text : string) (delayMs : Z) :
  Utils.streamText text delayMs
  = flat_map (fun c => [Utils.Wait delayMs; Utils.Yield c])
      (Utils.yielded (Utils.streamText text delayMs))
  /\ List.length (Utils.yielded (Utils.streamText text delayMs)) = S (countChar " " text).
Proof.
  unfold Utils.streamText. split; [apply streamLoop_pairs|].
  now rewrite yielded_streamLoop, length_map, length_seq, split_length.
Qed.

Lemma chunks_shape (pre suf : list string) :
  suf <> [] ->
  map (Utils.chunk (pre ++ suf)) (seq (List.length pre) (List.length suf))
  = map (fun v => (v ++ " ")%string) (removelast suf) ++ [last suf ""].
Proof.
  revert pre; induction suf as [|w suf IH]; intros pre Hne; [congruence|].
  change (List.length (w :: suf)) with (S (List.length suf)).
  change (seq (List.length pre) (S (List.length suf)))
    with (List.length pre :: seq (S (List.length pre)) (List.length suf)).
  cbn [map]. rewrite chunk_at.
  destruct suf as [|v suf].
  - cbn. now rewrite append_empty_r.
  - specialize (IH (pre ++ [w]) ltac:(discriminate)).
    rewrite <- app_assoc, length_app in IH. cbn [app] in IH.
    change (List.length [w]) with 1%nat in IH.
    rewrite Nat.add_1_r in IH. rewrite IH. reflexivity.
Qed.

(** X2. The chunks [streamText] yields are the pieces of the text
    between its spaces, in order, each followed by one space but the
    last, which is followed by none; no piece holds a space. *)
Theorem streamText_chunks_are_words (text : string) (delayMs : Z) :
  let words := JS.split " " text in
  Utils.yielded (Utils.streamText text delayMs)
  = map (fun v => (v ++ " ")%string) (removelast words) ++ [last words ""]
  /\ Forall (fun v => countChar " " v = O) words.
Proof.
  intros words. split; [|apply split_pieces_free].
  unfold Utils.streamText. rewrite yielded_streamLoop.
  apply (chunks_shape [] words), split_not_nil.
Qed.

Lemma concat_empty_app (a b : list string) :
  String.concat "" (a ++ b) = (String.concat "" a ++ String.concat "" b)%string.
Proof.
  induction a as [|x a IH]; [reflexivity|].
  destruct a as [|y a].
  - cbn [app]. destruct b; cbn; [now rewrite append_empty_r | reflexivity].
  - change (String.concat "" ((x :: y :: a) ++ b))
      with (x ++ "" ++ String.concat "" ((y :: a) ++ b))%string.
    rewrite IH. cbn. now rewrite append_assoc.
Qed.

Lemma prefix_append (a b : string) : String.prefix a (a ++ b) = true.
Proof.
  induction a as [|c a IH]; cbn; [now destruct b|].
  destruct (ascii_dec c c); [exact IH | congruence].
Qed.

Lemma yielded_firstn (words : list string) (delayMs : Z) (j i n : nat) :
  exists k, Utils.yielded (firstn j (Utils.streamLoop words delayMs i n))
            = firstn k (Utils.yielded (Utils.streamLoop words delayMs i n)).
Proof.
  revert j i; induction n as [|n IH]; intros j i.
  - exists O. now destruct j.
  - destruct j as [|[|j]].
    + now exists O.
    + now exists O.
    + destruct (IH j (S i)) as (k & Hk). exists (S k).
      cbn [Utils.streamLoop firstn Utils.yielded]. now rewrite Hk.
Qed.

(** X3. Wherever the run of [streamText] is stopped, what its consumer
    has put together so far is a prefix of the text. *)
Theorem streamed_content_is_a_prefix (text : string) (delayMs : Z) (j : nat) :
  String.prefix (Utils.collect (firstn j (Utils.streamText text delayMs))) text = true.
Proof.
  unfold Utils.collect, Utils.streamText.
  destruct (yielded_firstn (JS.split " " text) delayMs j 0
              (List.length (JS.split " " text))) as (k & ->).
  rewrite fold_left_append. cbn [append].
  assert (Hall : String.concat "" (Utils.yielded
            (Utils.streamLoop (JS.split " " text) delayMs 0
               (List.length (JS.split " " text)))) = text).
  { rewrite yielded_streamLoop.
    etransitivity; [exact (chunks_from [] (JS.split " " text)) | apply join_split]. }
  revert Hall. generalize (Utils.yielded
            (Utils.streamLoop (JS.split " " text) delayMs 0
               (List.length (JS.split " " text)))).
  intros chunks <-. rewrite <- (firstn_skipn k chunks) at 2.
  rewrite concat_empty_app. apply prefix_append.
Qed.

(* ================================================================== *)
(** * Facts about [formatCypherQuery] (lib/utils.ts) *)
(* ================================================================== *)


Lemma subsequence_refl (s : string) : Subsequence s s.
Proof. induction s; constructor; assumption. Qed.

Lemma subsequence_insert (ins a b : string) :
  Subsequence a b -> Subsequence a (ins ++ b).
Proof. intros H. induction ins; cbn; [assumption | now constructor]. Qed.

Lemma subsequence_app (a a' b b' : string) :
  Subsequence a a' -> Subsequence b b' -> Subsequence (a ++ b) (a' ++ b').
Proof. intros Ha Hb. induction Ha; cbn; [assumption | now constructor ..]. Qed.

Lemma subsequence_trans (a b c : string) :
  Subsequence a b -> Subsequence b c -> Subsequence a c.
Proof.
  intros Hab Hbc. revert a Hab. induction Hbc; intros x Hx.
  - exact Hx.
  - inversion Hx; subst; constructor; auto.
  - constructor. auto.
Qed.

Lemma span_splits (class : ascii -> bool) (text : string) :
  text = (fst (RegExp.span class text) ++ snd (RegExp.span class text))%string.
Proof.
  induction text as [|d text IH]; [reflexivity|]. cbn.
  destruct (class d); [|reflexivity].
  destruct (RegExp.span class text) as [run left]. cbn in *. now rewrite <- IH.
Qed.

Lemma char_splits (c : ascii) : Splits (RegExp.char c).
Proof.
  intros [|d text] m rest H; cbn in H; [discriminate|].
  destruct (Ascii.eqb d c); [|discriminate]. injection H as <- <-.
  split; [reflexivity | discriminate].
Qed.

Lemma oneOf_splits (class : ascii -> bool) : Splits (RegExp.oneOf class).
Proof.
  intros [|d text] m rest H; cbn in H; [discriminate|].
  destruct (class d); [|discriminate]. injection H as <- <-.
  split; [reflexivity | discriminate].
Qed.

Lemma plus_splits (class : ascii -> bool) : Splits (RegExp.plus class).
Proof.
  intros [|d text] m rest H; cbn in H; [discriminate|].
  destruct (class d); [|discriminate].
  pose proof (span_splits class text) as Hs.
  destruct (RegExp.span class text) as [run left]. injection H as <- <-.
  cbn in *. split; [now rewrite <- Hs | discriminate].
Qed.

Lemma sequence_splits (p : RegExp.Matcher) (ps : list RegExp.Matcher) :
  Splits p -> Forall Splits ps -> Splits (RegExp.sequence (p :: ps)).
Proof.
  intros Hp Hps.
  assert (Hrest : forall text m rest,
             RegExp.sequence ps text = Some (m, rest) -> text = (m ++ rest)%string).
  { clear Hp. induction Hps as [|q qs Hq _ IH]; intros text m rest H; cbn in H.
    - now injection H as <- <-.
    - destruct (q text) as [[m1 r1]|] eqn:E1; [|discriminate].
      destruct (RegExp.sequence qs r1) as [[m2 r2]|] eqn:E2; [|discriminate].
      injection H as <- <-. apply Hq in E1 as [-> _]. apply IH in E2 as ->.
      now rewrite append_assoc. }
  intros text m rest H. cbn in H.
  destruct (p text) as [[m1 r1]|] eqn:E1; [|discriminate].
  destruct (RegExp.sequence ps r1) as [[m2 r2]|] eqn:E2; [|discriminate].
  injection H as <- <-. apply Hp in E1 as [-> Hne]. apply Hrest in E2 as ->.
  split; [now rewrite append_assoc|]. destruct m1; [congruence | discriminate].
Qed.

Lemma alternatives_splits (ps : list RegExp.Matcher) :
  Forall Splits ps -> Splits (RegExp.alternatives ps).
Proof.
  intros Hps. induction Hps as [|p ps Hp _ IH]; intros text m rest H; cbn in H.
  - discriminate.
  - destruct (p text) as [found|] eqn:E; [|now apply IH].
    injection H as ->. now apply Hp.
Qed.

Lemma chars_split (word : string) : Forall Splits (RegExp.chars word).
Proof. induction word; constructor; [apply char_splits | assumption]. Qed.

Lemma literal_splits (word : string) : word <> EmptyString -> Splits (RegExp.literal word).
Proof.
  destruct word as [|c word]; [congruence|]. intros _.
  unfold RegExp.literal. cbn [RegExp.chars].
  apply sequence_splits; [apply char_splits | apply chars_split].
Qed.

Lemma keyword_splits : Splits Utils.keyword.
Proof.
  unfold Utils.keyword. apply alternatives_splits. cbn [map].
  repeat (apply Forall_cons; [apply literal_splits; discriminate|]).
  apply Forall_nil.
Qed.

Lemma labelledNode_splits : Splits Utils.labelledNode.
Proof.
  unfold Utils.labelledNode. apply sequence_splits; [apply char_splits|].
  repeat (apply Forall_cons;
          [first [apply char_splits | apply plus_splits | apply oneOf_splits]|]).
  apply Forall_nil.
Qed.

Lemma propertyMap_splits : Splits Utils.propertyMap.
Proof.
  unfold Utils.propertyMap. apply sequence_splits; [apply char_splits|].
  repeat (apply Forall_cons; [first [apply char_splits | apply plus_splits]|]).
  apply Forall_nil.
Qed.

(** The positions tried never run out: more fuel changes nothing. *)
Lemma replaceFrom_fuel (p : RegExp.Matcher) (before after : string) :
  Splits p ->
  forall fuel text, (String.length text < fuel)%nat ->
    RegExp.replaceFrom fuel p before after text = RegExp.replaceAll p before after text.
Proof.
  intros Hp. unfold RegExp.replaceAll.
  assert (H : forall n fuel fuel' text,
             (String.length text < n)%nat ->
             (String.length text < fuel)%nat -> (String.length text < fuel')%nat ->
             RegExp.replaceFrom fuel p before after text
             = RegExp.replaceFrom fuel' p before after text).
  { induction n as [|n IH]; intros fuel fuel' text Hn Hf Hf'; [lia|].
    destruct fuel as [|fuel]; [lia|]. destruct fuel' as [|fuel']; [lia|].
    cbn [RegExp.replaceFrom].
    destruct (p text) as [[m rest]|] eqn:E.
    - destruct (Hp _ _ _ E) as [-> Hne]. rewrite append_length in *.
      assert (0 < String.length m)%nat by (destruct m; [congruence | cbn; lia]).
      do 3 f_equal. apply IH; lia.
    - destruct text as [|c text]; [reflexivity|]. cbn [String.length] in *.
      f_equal. apply IH; lia. }
  intros fuel text Hfuel. apply (H (S (String.length text))); lia.
Qed.

Lemma replaceFrom_inserts (p : RegExp.Matcher) (before after : string) :
  Splits p ->
  forall fuel text, Subsequence text (RegExp.replaceFrom fuel p before after text).
Proof.
  intros Hp. induction fuel as [|fuel IH]; intros text; [apply subsequence_refl|].
  cbn [RegExp.replaceFrom]. destruct (p text) as [[m rest]|] eqn:E.
  - destruct (Hp _ _ _ E) as [-> _].
    apply subsequence_insert, subsequence_app; [apply subsequence_refl|].
    apply subsequence_insert, IH.
  - destruct text as [|c text]; constructor. apply IH.
Qed.

(** X4. [formatCypherQuery] only inserts: the query is what is left of
    the result when the characters put in are taken out, so no character
    of the query is dropped, changed or moved. *)
Theorem formatCypherQuery_only_inserts (query : string) :
  Subsequence query (Utils.formatCypherQuery query).
Proof.
  unfold Utils.formatCypherQuery, RegExp.replaceAll.
  eapply subsequence_trans; [|apply replaceFrom_inserts, propertyMap_splits].
  eapply subsequence_trans; [|apply replaceFrom_inserts, labelledNode_splits].
  apply replaceFrom_inserts, keyword_splits.
Qed.

Lemma replaceFrom_no_match (p : RegExp.Matcher) (before after : string) :
  forall fuel text,
    (forall s, Suffix s text -> p s = None) ->
    RegExp.replaceFrom fuel p before after text = text.
Proof.
  induction fuel as [|fuel IH]; intros text Hnone; [reflexivity|].
  cbn [RegExp.replaceFrom]. rewrite (Hnone text) by constructor.
  destruct text as [|c text]; [reflexivity|]. f_equal. apply IH.
  intros s Hs. apply Hnone. now constructor.
Qed.

Lemma literal_prefix (word text : string) (found : string * string) :
  RegExp.literal word text = Some found -> String.prefix word text = true.
Proof.
  unfold RegExp.literal. revert text found.
  induction word as [|c word IH]; intros text found H; [now destruct text|].
  cbn in H. destruct text as [|d text]; [discriminate|]. cbn in H.
  destruct (Ascii.eqb d c) eqn:E; [|discriminate].
  apply Ascii.eqb_eq in E. subst d.
  destruct (RegExp.sequence (RegExp.chars word) text) as [[m r]|] eqn:Es; [|discriminate].
  cbn. destruct (ascii_dec c c); [|congruence]. now apply (IH text (m, r)).
Qed.

Lemma includes_suffix (text sub s : string) :
  JS.includes text sub = false -> Suffix s text -> String.prefix sub s = false.
Proof.
  intros H Hs. induction Hs as [|c text Hs IH].
  - destruct s; cbn in H; now apply orb_false_elim in H.
  - apply IH. cbn in H. now apply orb_false_elim in H.
Qed.

Lemma countChar_suffix (c : ascii) (text s : string) :
  countChar c text = O -> Suffix s text -> countChar c s = O.
Proof.
  intros H Hs. induction Hs as [|d text Hs IH]; [assumption|].
  apply IH. cbn in H. lia.
Qed.

Lemma starts_with_char (c : ascii) (ps : list RegExp.Matcher) (text : string) :
  countChar c text = O -> RegExp.sequence (RegExp.char c :: ps) text = None.
Proof.
  intros H. destruct text as [|d text]; [reflexivity|]. cbn in *.
  destruct (Ascii.eqb d c); [discriminate | reflexivity].
Qed.

Lemma alternatives_none (ps : list RegExp.Matcher) (text : string) :
  Forall (fun p => p text = None) ps -> RegExp.alternatives ps text = None.
Proof.
  intros H. induction H as [|p ps Hp _ IH]; [reflexivity|].
  cbn [RegExp.alternatives]. now rewrite Hp.
Qed.

(** X5. A query in which none of the seven keywords occurs (in upper
    case, as a run of characters), and which holds no opening
    parenthesis and no opening brace, is returned as it is. *)
Theorem formatCypherQuery_leaves_plain_text (query : string) :
  Forall (fun word => JS.includes query word = false)
    ["MATCH"; "WHERE"; "RETURN"; "CREATE"; "WITH"; "ORDER BY"; "LIMIT"] ->
  countChar "(" query = O ->
  countChar "{" query = O ->
  Utils.formatCypherQuery query = query.
Proof.
  intros Hwords Hparen Hbrace. unfold Utils.formatCypherQuery, RegExp.replaceAll.
  rewrite (replaceFrom_no_match Utils.keyword).
  2:{ intros s Hs. unfold Utils.keyword.
      assert (Hall : Forall (fun word => RegExp.literal word s = None)
                       ["MATCH"; "WHERE"; "RETURN"; "CREATE"; "WITH"; "ORDER BY"; "LIMIT"]).
      { eapply Forall_impl; [|exact Hwords]. intros word Hword. cbn beta in Hword.
        destruct (RegExp.literal word s) as [found|] eqn:E; [|reflexivity].
        apply literal_prefix in E. rewrite (includes_suffix _ _ _ Hword Hs) in E.
        discriminate. }
      apply alternatives_none, Forall_map. exact Hall. }
  rewrite (replaceFrom_no_match Utils.labelledNode).
  2:{ intros s Hs. apply starts_with_char. now apply (countChar_suffix _ query). }
  apply replaceFrom_no_match.
  intros s Hs. apply starts_with_char. now apply (countChar_suffix _ query).
Qed.

(** On a query: the keywords are wrapped wherever they stand; the
    node pattern with a property map is not wrapped, its map is. *)
Lemma formatCypherQuery_sample :
  Utils.formatCypherQuery "MATCH (n:Person {id: 1}) WHERE (m:Company) RETURN n"
  = (Utils.spanOpen "text-neo4j-blue font-semibold" ++ "MATCH</span> (n:Person "
     ++ Utils.spanOpen "text-neo4j-purple" ++ "{id: 1}</span>) "
     ++ Utils.spanOpen "text-neo4j-blue font-semibold" ++ "WHERE</span> "
     ++ Utils.spanOpen "text-neo4j-green" ++ "(m:Company)</span> "
     ++ Utils.spanOpen "text-neo4j-blue font-semibold" ++ "RETURN</span> n")%string.
Proof. vm_compute. reflexivity. Qed.

(* ================================================================== *)
(** * Facts about [debounce] (lib/utils.ts) *)
(* ================================================================== *)


Section DebounceFacts.

Context {Args : Type}.
Implicit Types (st : Debounce.State Args) (schedule : list (N * Args)).

Lemma debounced_tidy (waitMs : N) (a : Args) st :
  Tidy st ->
  Tidy (Debounce.debounced waitMs a st)
  /\ Debounce.calls (Debounce.debounced waitMs a st) = Debounce.calls st
  /\ List.length (Debounce.timers (Debounce.debounced waitMs a st)) = 1%nat.
Proof.
  intros [Hnone|(tm & Hone & Hname)]; unfold Debounce.debounced.
  - destruct (Debounce.timeout st) as [h|]; cbn; rewrite Hnone; cbn;
      (split; [right; eexists; split; reflexivity | split; reflexivity]).
  - rewrite Hname. cbn. rewrite Hone. cbn. rewrite Pos.eqb_refl. cbn.
    split; [right; eexists; split; reflexivity | split; reflexivity].
Qed.

Lemma advance_tidy (t : N) st :
  Tidy st ->
  Tidy (Debounce.advance t st)
  /\ (List.length (Debounce.calls (Debounce.advance t st))
      + List.length (Debounce.timers (Debounce.advance t st))
      = List.length (Debounce.calls st) + List.length (Debounce.timers st))%nat.
Proof.
  intros [Hnone|(tm & Hone & Hname)]; unfold Debounce.advance.
  - rewrite Hnone. cbn. rewrite Hnone. split; [now left | reflexivity].
  - rewrite Hone. cbn. rewrite Hone. cbn.
    destruct (Debounce.due tm <=? t)%N; cbn.
    + split; [now left|]. rewrite length_app. cbn. lia.
    + rewrite Hone. split; [right; now exists tm | reflexivity].
Qed.

Lemma run_tidy (waitMs : N) schedule : forall st,
  Tidy st ->
  Tidy (Debounce.run waitMs schedule st)
  /\ (List.length (Debounce.calls (Debounce.run waitMs schedule st))
      + List.length (Debounce.timers (Debounce.run waitMs schedule st))
      <= List.length (Debounce.calls st) + List.length (Debounce.timers st)
         + List.length schedule)%nat.
Proof.
  induction schedule as [|[t a] schedule IH]; intros st Hst; cbn [Debounce.run].
  - split; [exact Hst | cbn; lia].
  - destruct (advance_tidy t st Hst) as [H1 Hc1].
    destruct (debounced_tidy waitMs a _ H1) as (H2 & Hc2 & Hl2).
    destruct (IH _ H2) as [H3 Hc3]. split; [exact H3|].
    rewrite Hc2, Hl2 in Hc3. cbn [List.length]. lia.
Qed.

Lemma settle_tidy st :
  Tidy st ->
  Debounce.timers (Debounce.settle st) = []
  /\ List.length (Debounce.calls (Debounce.settle st))
     = (List.length (Debounce.calls st) + List.length (Debounce.timers st))%nat.
Proof.
  intros [Hnone|(tm & Hone & _)]; unfold Debounce.settle.
  - rewrite Hnone. cbn. split; [exact Hnone | lia].
  - rewrite Hone. cbn. rewrite Hone. cbn. rewrite length_app. cbn. split; [reflexivity | lia].
Qed.

(** X6. Whatever the calls of a debounced function and their times:
    one timer at most is pending after them; [func] has been called, or
    is still to be called by a pending timer, once per call at most; and
    when the timers have run out, [func] has been called once per call
    at most. *)
Theorem debounce_keeps_one_timer (waitMs : N) schedule :
  let st := Debounce.run waitMs schedule Debounce.initial in
  (List.length (Debounce.timers st) <= 1)%nat
  /\ (List.length (Debounce.calls st) + List.length (Debounce.timers st)
      <= List.length schedule)%nat
  /\ (List.length (Debounce.calls (Debounce.settle st)) <= List.length schedule)%nat
  /\ Debounce.timers (Debounce.settle st) = [].
Proof.
  intros st. destruct (run_tidy waitMs schedule Debounce.initial) as [Ht Hc];
    [now left|]. fold st in Ht, Hc. cbn [Debounce.initial Debounce.calls Debounce.timers
                                           List.length Nat.add] in Hc.
  destruct (settle_tidy st Ht) as [Hs Hl]. rewrite Hl.
  split; [|split; [exact Hc | split; [exact Hc | exact Hs]]].
  destruct Ht as [->|(tm & -> & _)]; cbn; lia.
Qed.








End DebounceFacts.

(* ================================================================== *)
(** * Facts about the states the application goes through (App.tsx) *)
(* ================================================================== *)


Lemma steps_trans (w1 w2 w3 : App.World) : steps w1 w2 -> steps w2 w3 -> steps w1 w3.
Proof. intros H12 H23. induction H23; [assumption | econstructor; eassumption]. Qed.

Lemma quietSteps_trans (w1 w2 w3 : App.World) :
  quietSteps w1 w2 -> quietSteps w2 w3 -> quietSteps w1 w3.
Proof. intros H12 H23. induction H23; [assumption | econstructor; eassumption]. Qed.

Lemma quietSteps_steps (w w' : App.World) : quietSteps w w' -> steps w w'.
Proof.
  intros H. induction H; [apply steps_none|].
  eapply steps_more; [eassumption | now apply step_quiet].
Qed.

Lemma advance_quiet (fuel : nat) (t : N) (w w' : App.World) :
  advance fuel t w = Some w' -> quietSteps w w'.
Proof.
  revert w; induction fuel as [|fuel IH]; intros w H; cbn [App.advance] in H;
    destruct (App.popEarliest (App.timers w)) as [[[due k] rest]|] eqn:E;
    try destruct (due <=? t)%N; try discriminate;
    try (injection H as <-; eapply quiet_more; [apply quiet_none | apply step_clock]).
  eapply quietSteps_trans; [|apply IH; exact H].
  eapply quiet_more; [apply quiet_none | now apply step_timer].
Qed.

Lemma drain_quiet (fuel : nat) (w w' : App.World) :
  drain fuel w = Some w' -> quietSteps w w' /\ App.timers w' = [].
Proof.
  revert w; induction fuel as [|fuel IH]; intros w H; cbn [App.drain] in H;
    destruct (App.popEarliest (App.timers w)) as [[[due k] rest]|] eqn:E;
    try discriminate;
    try (injection H as <-; split; [apply quiet_none | now apply popEarliest_none]).
  destruct (IH _ H) as [Hs Hn]. split; [|exact Hn].
  eapply quietSteps_trans; [|exact Hs].
  eapply quiet_more; [apply quiet_none | now apply step_timer].
Qed.

Lemma run_reaches (fuel : nat) (schedule : list (N * App.UserEvent)) :
  forall w w', run fuel schedule w = Some w' -> steps w w'.
Proof.
  induction schedule as [|[t e] schedule IH]; intros w w' H; cbn [App.run] in H.
  - injection H as <-. apply steps_none.
  - destruct (advance fuel t w) as [w1|] eqn:E; [|discriminate].
    eapply steps_trans; [apply quietSteps_steps, (advance_quiet _ _ _ _ E)|].
    eapply steps_trans; [|apply IH; exact H].
    eapply steps_more; [apply steps_none | apply step_event].
Qed.

Lemma session_reachable (fuel : nat) (schedule : list (N * App.UserEvent)) (w : App.World) :
  session fuel schedule = Some w -> reachable w /\ App.timers w = [].
Proof.
  unfold App.session. intros H.
  destruct (run fuel schedule App.initialWorld) as [w1|] eqn:E; [|discriminate].
  destruct (drain_quiet _ _ _ H) as [Hs Hn]. split; [|exact Hn].
  eapply steps_trans; [apply (run_reaches _ _ _ _ E) | now apply quietSteps_steps].
Qed.

(** ** Termination of a session *)

Lemma run_terminates (schedule : list (N * App.UserEvent)) :
  forall (fuel : nat) (w : App.World),
    (pendingSteps (App.timers w) + scheduleSteps schedule <= fuel)%nat ->
    exists w', run fuel schedule w = Some w'
               /\ (pendingSteps (App.timers w')
                   <= pendingSteps (App.timers w) + scheduleSteps schedule)%nat.
Proof.
  induction schedule as [|[t e] schedule IH]; intros fuel w Hfuel.
  - exists w. split; [reflexivity | lia].
  - rewrite scheduleSteps_cons in *.
    destruct (advance_terminates fuel t w ltac:(lia))
      as (w1 & Hadv & Hle).
    pose proof (handle_steps e w1) as He.
    destruct (IH fuel (handle e w1) ltac:(lia)) as (w' & Hrun & Hle').
    exists w'. cbn [App.run]. rewrite Hadv. split; [exact Hrun | lia].
Qed.

Lemma session_terminates (fuel : nat) (schedule : list (N * App.UserEvent)) :
  (scheduleSteps schedule <= fuel)%nat ->
  exists w, session fuel schedule = Some w.
Proof.
  intros Hfuel. unfold App.session.
  destruct (run_terminates schedule fuel App.initialWorld) as (w1 & -> & Hle);
    [cbn; lia|].
  cbn in Hle.
  destruct (drain_terminates fuel w1 ltac:(lia)) as (w & -> & _).
  now exists w.
Qed.

(** ** What a turn does *)

Lemma header_fields (m m' : Message.t) :
  header m = header m' ->
  Message.id m = Message.id m' /\ Message.role m = Message.role m'
  /\ Message.timestamp m = Message.timestamp m'
  /\ Message.sources m = Message.sources m'
  /\ Message.cypherQuery m = Message.cypherQuery m'.
Proof. unfold header. intros H. injection H as -> -> -> -> ->. repeat split. Qed.

Lemma withContent_header (id content : string) (m : Message.t) :
  header (App.withContent id content m) = header m
  /\ Message.isStreaming (App.withContent id content m) = Message.isStreaming m.
Proof. unfold App.withContent. destruct (String.eqb _ _); split; reflexivity. Qed.

Lemma streamingDone_header (id : string) (m : Message.t) :
  header (App.streamingDone id m) = header m.
Proof. unfold App.streamingDone. destruct (String.eqb _ _); reflexivity. Qed.

Lemma streamingDone_flag (id : string) (m : Message.t) :
  Message.isStreaming (App.streamingDone id m) = Some true ->
  Message.isStreaming m = Some true /\ Message.id m <> id.
Proof.
  unfold App.streamingDone. destruct (String.eqb_spec (Message.id m) id); cbn.
  - discriminate.
  - now split.
Qed.

Lemma fire_Fired (k : App.Task) (w : App.World) : Fired w k (fire k w).
Proof.
  destruct k as [c|c mq|id words i acc|]; unfold App.fire.
  - constructor.
  - rewrite continueStream_first by apply split_not_nil. apply fired_retrieval.
  - unfold App.continueStream. destruct (Nat.ltb_spec (S i) (List.length words)).
    + now apply fired_chunk.
    + now apply fired_last_chunk.
  - constructor.
Qed.

Lemma popped (ts rest : list (N * App.Task)) (tm0 tm : N * App.Task) :
  App.popEarliest ts = Some (tm0, rest) ->
  (In tm ts <-> tm = tm0 \/ In tm rest).
Proof.
  intros H. apply popEarliest_perm in H. split.
  - intros Hin. apply (Permutation_in _ H) in Hin. destruct Hin as [<-|Hin]; auto.
  - intros Hin. apply (Permutation_in _ (Permutation_sym H)).
    destruct Hin as [->|Hin]; [now left | now right].
Qed.

Lemma sorted_snoc (l : list N) (x : N) :
  Sorted N.le l -> Forall (fun y => (y <= x)%N) l -> Sorted N.le (l ++ [x]).
Proof.
  intros Hs Hall. induction Hs as [|y l Hs IH Hhd]; cbn; [repeat constructor|].
  inversion Hall as [|? ? Hy Hl]; subst. constructor; [now apply IH|].
  destruct l as [|z l]; cbn; constructor; [exact Hy|]. now inversion Hhd.
Qed.

(** ** The invariant *)

Lemma initial_sound : Sound App.initialWorld.
Proof.
  constructor; cbn; try discriminate; try constructor; intros; contradiction.
Qed.

(** Messages rewritten by a function that keeps headers, and turns no
    streaming flag on. *)
Lemma sound_rewritten (w w' : App.World) (f : Message.t -> Message.t) :
  Sound w ->
  App.messages w' = map f (App.messages w) ->
  (forall m, header (f m) = header m) ->
  (App.now w <= App.now w')%N ->
  (App.isLoading w' = true ->
   exists tm, In tm (App.timers w') /\ owes (snd tm) = true) ->
  (forall m, In m (App.messages w) -> Message.isStreaming (f m) = Some true ->
             exists tm, In tm (App.timers w') /\ streamsInto (Message.id m) (snd tm)) ->
  (forall due id words i acc,
      In (due, App.StreamNext id words i acc) (App.timers w') ->
      exists t, id = App.assistantId t) ->
  Sound w'.
Proof.
  intros [Hl Hs Hsrc Hord Hpast Hu Hst] Hm Hf Hnow Hl' Hs' Hst'.
  assert (Hts : map Message.timestamp (map f (App.messages w))
                = map Message.timestamp (App.messages w)).
  { rewrite map_map. apply map_ext. intros m. now destruct (header_fields _ _ (Hf m)) as (_ & _ & -> & _). }
  constructor; try assumption; rewrite ?Hm.
  - intros m' Hin Hflag. apply in_map_iff in Hin as (m & <- & Hin).
    destruct (header_fields _ _ (Hf m)) as (-> & _). now apply Hs'.
  - intros m' l Hin Hl0. apply in_map_iff in Hin as (m & <- & Hin).
    destruct (header_fields _ _ (Hf m)) as (_ & -> & _ & Esrc & _).
    rewrite Esrc in Hl0. now apply (Hsrc m).
  - now rewrite Hts.
  - apply Forall_forall. intros m' Hin. apply in_map_iff in Hin as (m & <- & Hin).
    destruct (header_fields _ _ (Hf m)) as (_ & _ & -> & _).
    apply (proj1 (Forall_forall _ _) Hpast) in Hin. lia.
  - intros m' Hin Hrole. apply in_map_iff in Hin as (m & <- & Hin).
    destruct (header_fields _ _ (Hf m)) as (-> & Er & _). rewrite Er in Hrole. now apply Hu.
Qed.

(** A message appended at the present time. *)
Lemma sound_appended (w w' : App.World) (mnew : Message.t) :
  Sound w ->
  App.messages w' = App.messages w ++ [mnew] ->
  Message.timestamp mnew = App.now w' ->
  (App.now w <= App.now w')%N ->
  (App.isLoading w' = true ->
   exists tm, In tm (App.timers w') /\ owes (snd tm) = true) ->
  (forall m, In m (App.messages w ++ [mnew]) -> Message.isStreaming m = Some true ->
             exists tm, In tm (App.timers w') /\ streamsInto (Message.id m) (snd tm)) ->
  (forall l, Message.sources mnew = Some l ->
             Message.role mnew = assistant /\ (List.length l <= 3)%nat
             /\ incl l (GraphData.nodes graphData)) ->
  (Message.role mnew = user -> exists t, Message.id mnew = App.userId t) ->
  (forall due id words i acc,
      In (due, App.StreamNext id words i acc) (App.timers w') ->
      exists t, id = App.assistantId t) ->
  Sound w'.
Proof.
  intros [Hl Hs Hsrc Hord Hpast Hu Hst] Hm Hts Hnow Hl' Hs' Hsrc' Hu' Hst'.
  assert (Hpast' : Forall (fun m => (Message.timestamp m <= App.now w')%N) (App.messages w)).
  { eapply Forall_impl; [|exact Hpast]. cbn. intros; lia. }
  constructor; try assumption; rewrite ?Hm.
  - exact Hs'.
  - intros m l Hin Hl0. apply in_app_or in Hin as [Hin|[<-|[]]]; [now apply (Hsrc m) | now apply Hsrc'].
  - rewrite map_app. cbn [map]. apply sorted_snoc; [exact Hord|].
    apply Forall_forall. intros t Hin. apply in_map_iff in Hin as (m & <- & Hin).
    rewrite Hts. now apply (proj1 (Forall_forall _ _) Hpast').
  - apply Forall_app. split; [exact Hpast'|]. constructor; [lia | constructor].
  - intros m Hin Hrole. apply in_app_or in Hin as [Hin|[<-|[]]]; [now apply Hu | now apply Hu'].
Qed.

Lemma quietStep_sound (w w' : App.World) : Sound w -> quietStep w w' -> Sound w'.
Proof.
  intros HS [due k rest Hpop|t].
  - unfold App.fireTimer.
    set (w0 := App.setTimers rest (App.setNow (N.max (App.now w) due) w)).
    pose proof (fun tm => popped _ _ _ tm Hpop) as Hin.
    destruct HS as [Hl Hs Hsrc Hord Hpast Hu Hst].
    assert (HS : Sound w) by (constructor; assumption).
    assert (Hkeep : forall tm new, In tm (App.timers w) -> tm <> (due, k) ->
                                   In tm (rest ++ new)).
    { intros tm new H Hne. apply in_or_app. left. apply Hin in H as [->|H]; congruence. }
    assert (Hids : forall new,
               (forall d id words i acc, In (d, App.StreamNext id words i acc) new ->
                                         exists t, id = App.assistantId t) ->
               forall d id words i acc,
                 In (d, App.StreamNext id words i acc) (rest ++ new) ->
                 exists t, id = App.assistantId t).
    { intros new Hnew d id words i acc H. apply in_app_or in H as [H|H].
      - apply (Hst d id words i acc). apply Hin. now right.
      - now apply (Hnew d id words i acc). }
    destruct (fire_Fired k w0) as [c|c mq relevantNodes answer|id words i acc Hi|id words i acc Hi|];
      unfold w0 in *; clear w0.
    + apply (sound_rewritten w _ (fun m => m) HS); wsimpl.
      * now rewrite map_id.
      * reflexivity.
      * lia.
      * intros _. eexists. split; [apply in_or_app; right; now left | reflexivity].
      * intros m Hm Hflag. destruct (Hs m Hm Hflag) as (tm & Htm & Hinto).
        exists tm. split; [|exact Hinto]. apply Hkeep; [exact Htm|].
        intros ->. exact Hinto.
      * apply Hids. intros d id words i acc [H|[]]. discriminate.
    + apply (sound_appended w _ answer HS); wsimpl.
      * reflexivity.
      * reflexivity.
      * lia.
      * discriminate.
      * intros m Hm Hflag. apply in_app_or in Hm as [Hm|[<-|[]]].
        -- destruct (Hs m Hm Hflag) as (tm & Htm & Hinto).
           exists tm. split; [|exact Hinto]. apply Hkeep; [exact Htm|].
           intros ->. exact Hinto.
        -- eexists. split; [apply in_or_app; right; now left | reflexivity].
      * intros l Hl0. unfold answer in Hl0. cbn [Message.sources] in Hl0.
        injection Hl0 as <-. split; [reflexivity|].
        unfold relevantNodes, App.simulateGraphRetrieval, JS.slice0. split.
        -- apply firstn_le_length.
        -- intros n Hn. apply In_firstn in Hn. now apply filter_In in Hn.
      * discriminate.
      * apply Hids. intros d id words i acc [H|[]]. injection H as _ <- _ _ _.
        now eexists.
    + apply (sound_rewritten w _ (App.withContent id (acc ++ Utils.chunk words i)) HS); wsimpl.
      * reflexivity.
      * intros m. apply withContent_header.
      * lia.
      * intros Hload. destruct (Hl Hload) as (tm & Htm & Howes).
        exists tm. split; [|exact Howes]. apply Hkeep; [exact Htm|].
        intros ->. discriminate.
      * intros m Hm Hflag. rewrite (proj2 (withContent_header _ _ m)) in Hflag.
        destruct (Hs m Hm Hflag) as (tm & Htm & Hinto).
        apply Hin in Htm as [->|Htm].
        -- eexists. split; [apply in_or_app; right; now left | exact Hinto].
        -- exists tm. split; [apply in_or_app; now left | exact Hinto].
      * apply Hids. intros d id' words' i' acc' [H|[]]. injection H as _ <- _ _ _.
        apply (Hst due id words i acc). apply Hin. now left.
    + apply (sound_rewritten w _
               (fun m => App.streamingDone id
                           (App.withContent id (acc ++ Utils.chunk words i) m)) HS); wsimpl.
      * now rewrite map_map.
      * intros m. rewrite streamingDone_header. apply withContent_header.
      * lia.
      * intros Hload. destruct (Hl Hload) as (tm & Htm & Howes).
        exists tm. split; [|exact Howes]. apply Hkeep; [exact Htm|].
        intros ->. discriminate.
      * intros m Hm Hflag. apply streamingDone_flag in Hflag as [Hflag Hne].
        rewrite (proj2 (withContent_header _ _ m)) in Hflag.
        rewrite (proj1 (header_fields _ _ (proj1 (withContent_header _ _ m)))) in Hne.
        destruct (Hs m Hm Hflag) as (tm & Htm & Hinto).
        exists tm. split; [|exact Hinto]. apply Hkeep; [exact Htm|].
        intros ->. cbn in Hinto. congruence.
      * apply Hids. intros d id' words' i' acc' [H|[]]. discriminate.
    + apply (sound_rewritten w _ (fun m => m) HS); wsimpl.
      * now rewrite map_id.
      * reflexivity.
      * lia.
      * intros Hload. destruct (Hl Hload) as (tm & Htm & Howes).
        exists tm. split; [|exact Howes].
        rewrite <- (app_nil_r rest). apply Hkeep; [exact Htm|]. intros ->. discriminate.
      * intros m Hm Hflag. destruct (Hs m Hm Hflag) as (tm & Htm & Hinto).
        exists tm. split; [|exact Hinto].
        rewrite <- (app_nil_r rest). apply Hkeep; [exact Htm|]. intros ->. exact Hinto.
      * intros d id words i acc H. apply (Hst d id words i acc). apply Hin. now right.
  - destruct HS as [Hl Hs Hsrc Hord Hpast Hu Hst].
    apply (sound_rewritten w _ (fun m => m)); [constructor; assumption|..]; wsimpl;
      try assumption; try reflexivity; try lia.
    now rewrite map_id.
Qed.

Lemma handle_quiet_fields (e : App.UserEvent) (w : App.World) :
  (forall content, e <> App.SendMessage content) ->
  App.messages (handle e w) = App.messages w
  /\ App.timers (handle e w) = App.timers w
  /\ App.isLoading (handle e w) = App.isLoading w
  /\ App.now (handle e w) = App.now w.
Proof.
  intros Hne. destruct e as [content|d| |node|node| ]; cbn; try (repeat split; reflexivity).
  - now destruct (Hne content).
  - unfold App.clickNode. destruct (App.isSelected d w); repeat split; reflexivity.
Qed.

Lemma step_sound (w w' : App.World) : Sound w -> step w w' -> Sound w'.
Proof.
  intros HS [w1 Hq|e]; [now apply (quietStep_sound w)|].
  destruct e as [content|d| |node|node| ].
  1:{ destruct HS as [Hl Hs Hsrc Hord Hpast Hu Hst].
      apply (sound_appended w _
               (Message.Build_t (App.userId (App.now w)) user content (App.now w)
                  None None None)); [constructor; assumption|..];
        unfold App.handle, App.handleSendMessage; wsimpl.
      - reflexivity.
      - reflexivity.
      - lia.
      - intros _. eexists. split; [apply in_or_app; right; now left | reflexivity].
      - intros m Hm Hflag. apply in_app_or in Hm as [Hm|[<-|[]]]; [|discriminate].
        destruct (Hs m Hm Hflag) as (tm & Htm & Hinto).
        exists tm. split; [apply in_or_app; now left | exact Hinto].
      - discriminate.
      - intros _. now eexists.
      - intros d id words i acc H. apply in_app_or in H as [H|[H|[]]]; [|discriminate].
        now apply (Hst d id words i acc). }
  all: match goal with |- Sound (App.handle ?e ?x) =>
         destruct (handle_quiet_fields e x ltac:(discriminate)) as (Hm & Ht & Hld & Hn) end;
       destruct HS as [Hl Hs Hsrc Hord Hpast Hu Hst];
       apply (sound_rewritten w _ (fun m => m)); [constructor; assumption|..];
       rewrite ?Hm, ?Ht, ?Hld, ?Hn, ?map_id; try assumption; try reflexivity; try lia.
Qed.

Lemma steps_sound (w w' : App.World) : Sound w -> steps w w' -> Sound w'.
Proof. intros HS H. induction H; [assumption | eapply step_sound; eassumption]. Qed.

Lemma reachable_sound (w : App.World) : reachable w -> Sound w.
Proof. apply steps_sound, initial_sound. Qed.

(** X9. A session of any user events at any times, given fuel for the
    timers it sets off, runs to its end, and then nothing is left
    going: no timer is pending, [isLoading] is false, and no message is
    marked as streaming. *)
Theorem session_ends_idle (fuel : nat) (schedule : list (N * App.UserEvent)) :
  (scheduleSteps schedule <= fuel)%nat ->
  exists w,
    session fuel schedule = Some w
    /\ App.timers w = []
    /\ App.isLoading w = false
    /\ Forall (fun m => Message.isStreaming m <> Some true) (App.messages w).
Proof.
  intros Hfuel. destruct (session_terminates fuel schedule Hfuel) as (w & Hw).
  exists w. split; [exact Hw|].
  destruct (session_reachable _ _ _ Hw) as [Hreach Hnone].
  destruct (reachable_sound w Hreach) as [Hl Hs _ _ _ _ _].
  split; [exact Hnone|]. split.
  - destruct (App.isLoading w); [|reflexivity].
    destruct (Hl eq_refl) as (tm & Hin & _). rewrite Hnone in Hin. destruct Hin.
  - apply Forall_forall. intros m Hm Hflag.
    destruct (Hs m Hm Hflag) as (tm & Hin & _). rewrite Hnone in Hin. destruct Hin.
Qed.

(** X10. In every state the application can be in, a message that
    cites sources is an assistant message, and it cites three nodes at
    most, each a node of the graph. *)
Theorem cited_sources_are_nodes_of_the_graph (w : App.World) (m : Message.t)
    (l : list GraphNode.t) :
  reachable w ->
  In m (App.messages w) ->
  Message.sources m = Some l ->
  Message.role m = assistant
  /\ (List.length l <= 3)%nat
  /\ incl l (GraphData.nodes graphData).
Proof. intros Hreach. apply (sound_sources w (reachable_sound w Hreach)). Qed.

(** X11. In every state the application can be in, the messages are in
    the order of their timestamps, none of which is in the future. *)
Theorem messages_are_in_order_of_time (w : App.World) :
  reachable w ->
  Sorted N.le (map Message.timestamp (App.messages w))
  /\ Forall (fun m => (Message.timestamp m <= App.now w)%N) (App.messages w).
Proof.
  intros Hreach. destruct (reachable_sound w Hreach) as [_ _ _ Hord Hpast _ _].
  now split.
Qed.



(** ** Counting the messages *)

Lemma owed_perm (a b : list (N * App.Task)) : Permutation a b -> owed a = owed b.
Proof.
  intros H. unfold owed. induction H; cbn; try destruct (owes (snd x));
    try destruct (owes (snd y)); cbn; congruence.
Qed.

Lemma owed_app (a b : list (N * App.Task)) : owed (a ++ b) = (owed a + owed b)%nat.
Proof. unfold owed. now rewrite filter_app, length_app. Qed.

Lemma owed_cons (tm : N * App.Task) (ts : list (N * App.Task)) :
  owed (tm :: ts) = ((if owes (snd tm) then 1 else 0) + owed ts)%nat.
Proof. unfold owed. cbn [filter]. now destruct (owes (snd tm)). Qed.

Lemma userContents_app (a b : list Message.t) :
  userContents (a ++ b) = userContents a ++ userContents b.
Proof. unfold userContents. now rewrite filter_app, map_app. Qed.

Lemma userContents_rewritten (f : Message.t -> Message.t) (msgs : list Message.t) :
  (forall m, In m msgs -> Message.role (f m) = Message.role m) ->
  (forall m, In m msgs -> Message.role m = user ->
             Message.content (f m) = Message.content m) ->
  userContents (map f msgs) = userContents msgs.
Proof.
  intros Hrole Hcontent. unfold userContents.
  induction msgs as [|m msgs IH]; [reflexivity|]. cbn [map filter].
  assert (Eu : isUser (f m) = isUser m).
  { unfold isUser. now rewrite (Hrole m) by now left. }
  rewrite Eu.
  assert (Hrest : map Message.content (filter isUser (map f msgs))
                  = map Message.content (filter isUser msgs)).
  { apply IH; intros; [apply Hrole | apply Hcontent]; try (right; assumption); assumption. }
  destruct (isUser m) eqn:E; cbn [map]; [|exact Hrest].
  rewrite (Hcontent m), Hrest; [reflexivity | now left|].
  unfold isUser in E. now destruct (Message.role m).
Qed.

(** A turn in which the user does nothing adds no message but the
    answer message owed, and leaves what the user has sent as it is. *)
Lemma quietStep_counts (w w' : App.World) :
  Sound w -> quietStep w w' ->
  (List.length (App.messages w') + owed (App.timers w')
   = List.length (App.messages w) + owed (App.timers w))%nat
  /\ userContents (App.messages w') = userContents (App.messages w).
Proof.
  intros HS [due k rest Hpop|t]; [|now split].
  pose proof (popEarliest_perm _ _ _ Hpop) as Hperm.
  rewrite (owed_perm _ _ Hperm).
  rewrite owed_cons. cbn [snd].
  assert (Hkeep : forall id content,
             (exists t, id = App.assistantId t) ->
             userContents (map (App.withContent id content) (App.messages w))
             = userContents (App.messages w)).
  { intros id content (t & ->). apply userContents_rewritten.
    - intros m _. apply withContent_keeps.
    - intros m Hm Hrole. rewrite withContent_other; [reflexivity|].
      destruct (sound_user_ids w HS m Hm Hrole) as (t' & ->).
      apply userId_not_assistantId. }
  unfold App.fireTimer.
  destruct (fire_Fired k (App.setTimers rest (App.setNow (N.max (App.now w) due) w)))
    as [c|c mq relevantNodes answer|id words i acc Hi|id words i acc Hi|]; wsimpl;
    rewrite ?owed_app, ?length_app, ?length_map, ?userContents_app; cbn [owes List.length].
  - split; [unfold owed; cbn; lia | reflexivity].
  - split; [unfold owed; cbn; lia | cbn; now rewrite app_nil_r].
  - split; [unfold owed; cbn; lia|]. apply Hkeep.
    apply (sound_stream_ids w HS due id words i acc).
    apply (Permutation_in _ (Permutation_sym Hperm)). now left.
  - split; [unfold owed; cbn; lia|].
    rewrite userContents_rewritten.
    + apply Hkeep. apply (sound_stream_ids w HS due id words i acc).
      apply (Permutation_in _ (Permutation_sym Hperm)). now left.
    + intros m _. apply streamingDone_keeps.
    + intros m _ _. apply streamingDone_content.
  - split; [unfold owed; cbn; lia | reflexivity].
Qed.

Lemma quietSteps_counts (w w' : App.World) :
  Sound w -> quietSteps w w' ->
  Sound w'
  /\ (List.length (App.messages w') + owed (App.timers w')
      = List.length (App.messages w) + owed (App.timers w))%nat
  /\ userContents (App.messages w') = userContents (App.messages w).
Proof.
  intros HS H. induction H as [|w1 w2 _ (HS1 & Hc & Hu) Hstep];
    [split; [assumption | split; reflexivity]|].
  destruct (quietStep_counts _ _ HS1 Hstep) as [Hc' Hu'].
  split; [now apply (quietStep_sound w1)|]. split; congruence.
Qed.

Lemma handle_counts (t : N) (e : App.UserEvent) (w : App.World) :
  (List.length (App.messages (handle e w)) + owed (App.timers (handle e w))
   = List.length (App.messages w) + owed (App.timers w)
     + 2 * List.length (sendsOf t e))%nat
  /\ userContents (App.messages (handle e w))
     = userContents (App.messages w) ++ map snd (sendsOf t e).
Proof.
  destruct e as [content|d| |node|node| ].
  1:{ unfold App.handle, App.handleSendMessage. wsimpl.
      rewrite owed_app, length_app, userContents_app. cbn. unfold owed. cbn.
      split; [lia | reflexivity]. }
  all: match goal with |- context [App.handle ?e ?x] =>
         destruct (handle_quiet_fields e x ltac:(discriminate)) as (-> & -> & _) end;
       cbn [sendsOf List.length map]; rewrite app_nil_r; split; [lia | reflexivity].
Qed.

Lemma run_counts (fuel : nat) (schedule : list (N * App.UserEvent)) :
  forall w w',
    Sound w -> run fuel schedule w = Some w' ->
    Sound w'
    /\ (List.length (App.messages w') + owed (App.timers w')
        = List.length (App.messages w) + owed (App.timers w)
          + 2 * List.length (sends schedule))%nat
    /\ userContents (App.messages w')
       = userContents (App.messages w) ++ map snd (sends schedule).
Proof.
  induction schedule as [|[t e] schedule IH]; intros w w' HS H; cbn [App.run] in H.
  - injection H as <-. cbn [sends flat_map List.length map]. rewrite app_nil_r.
    split; [assumption | split; [lia | reflexivity]].
  - destruct (advance fuel t w) as [w1|] eqn:E; [|discriminate].
    destruct (quietSteps_counts _ _ HS (advance_quiet _ _ _ _ E)) as (HS1 & Hc1 & Hu1).
    destruct (handle_counts t e w1) as [Hc2 Hu2].
    assert (HS2 : Sound (handle e w1)) by (apply (step_sound w1); [assumption | constructor]).
    destruct (IH _ _ HS2 H) as (HS' & Hc' & Hu').
    split; [exact HS'|].
    change (sends ((t, e) :: schedule)) with (sendsOf t e ++ sends schedule).
    rewrite length_app, map_app. split; [lia|].
    rewrite Hu', Hu2, Hu1, <- app_assoc. reflexivity.
Qed.

(** X13. At the end of a session the user messages hold exactly the
    queries that were sent, in the order they were sent in, unaltered by
    the answers streamed meanwhile; and there are twice as many messages
    as queries: one answer message for each. *)
Theorem session_keeps_every_query (fuel : nat) (schedule : list (N * App.UserEvent)) :
  (scheduleSteps schedule <= fuel)%nat ->
  exists w,
    session fuel schedule = Some w
    /\ userContents (App.messages w) = map snd (sends schedule)
    /\ List.length (App.messages w) = (2 * List.length (sends schedule))%nat.
Proof.
  intros Hfuel. destruct (session_terminates fuel schedule Hfuel) as (w & Hw).
  exists w. split; [exact Hw|].
  unfold App.session in Hw.
  destruct (run fuel schedule App.initialWorld) as [w1|] eqn:E; [|discriminate].
  destruct (run_counts _ _ _ _ initial_sound E) as (HS1 & Hc1 & Hu1).
  destruct (drain_quiet _ _ _ Hw) as [Hq Hnone].
  destruct (quietSteps_counts _ _ HS1 Hq) as (_ & Hc & Hu).
  rewrite Hnone in Hc. cbn in Hc, Hc1, Hu1. split; [congruence | lia].
Qed.


(* ================================================================== *)
(** * Facts about the canvas, the details panel and the chat box *)
(* ================================================================== *)



(** ** Nodes on the canvas *)

(** X14. A click on a node that is not the selected one makes it stand
    out on the canvas: the nodes of its id are drawn with radius 28 and
    full opacity, every other node with radius 20 and opacity 0.2.  A
    second click on it undoes this: every node is drawn with radius 20
    and full opacity. *)
Theorem clicked_node_stands_out (w : App.World) (d n : GraphNode.t) :
  App.isSelected d w = false ->
  let w1 := App.clickNode d w in
  let w2 := App.clickNode d w1 in
  let same := String.eqb (GraphNode.id n) (GraphNode.id d) in
  GraphVisualization.radius (App.selectedNode w1) n = (if same then 28 else 20)
  /\ GraphVisualization.nodeOpacity (App.highlightedNodes w1) n = (if same then 1 else 2 # 10)
  /\ GraphVisualization.radius (App.selectedNode w2) n = 20
  /\ GraphVisualization.nodeOpacity (App.highlightedNodes w2) n = 1.
Proof.
  intros Hsel w1 w2 same.
  assert (H1 : w1 = App.handleNodeSelect (Some d) w).
  { unfold w1, App.clickNode. now rewrite Hsel. }
  assert (Hsel1 : App.isSelected d w1 = true).
  { rewrite H1. unfold App.isSelected. cbn. apply String.eqb_refl. }
  assert (H2 : w2 = App.handleNodeSelect None w1).
  { unfold w2, App.clickNode. now rewrite Hsel1. }
  rewrite H2, H1. unfold GraphVisualization.radius, GraphVisualization.nodeOpacity, GraphVisualization.isSelectedNode. cbn.
  rewrite (String.eqb_sym (GraphNode.id d)). fold same. rewrite orb_false_r.
  repeat split; reflexivity.
Qed.

(** ** Relationships on the canvas *)




(** X16. Once the effect has run on a graph with nodes, every line is
    drawn 1.5 wide, and as soon as the highlight set is not empty every
    line is dimmed to opacity 0.1 and every label of a relationship is
    hidden (opacity 0), the relationships between highlighted nodes
    included; with an empty highlight set the opacities are 0.6 and
    0.7. *)
Theorem highlight_dims_every_link (data data' : GraphData.t) (h h' : list string)
    (drawn : list (GraphRelationship.t * string)) (d : GraphRelationship.t) :
  GraphVisualization.runEffect data h = Some (data', drawn) ->
  GraphData.nodes data <> [] ->
  In d (GraphData.relationships data') ->
  GraphVisualization.strokeWidth h' d = 3 # 2
  /\ GraphVisualization.strokeOpacity h' d
     = match h' with [] => 6 # 10 | _ :: _ => 1 # 10 end
  /\ GraphVisualization.linkLabelOpacity h' d = match h' with [] => 7 # 10 | _ :: _ => 0 end.
Proof.
  unfold GraphVisualization.runEffect.
  destruct (GraphData.nodes data) as [|n ns] eqn:En; [congruence|]. rewrite <- En.
  destruct (GraphVisualization.initializeLinks _ _) as [links|] eqn:E; [|discriminate].
  intros H _ Hd. injection H as <- <-. cbn [GraphData.relationships] in Hd.
  destruct (initializeLinks_nodes _ _ _ E d Hd) as (s & t & Hs & Ht).
  unfold GraphVisualization.strokeWidth, GraphVisualization.strokeOpacity,
    GraphVisualization.linkLabelOpacity, GraphVisualization.linkHighlighted.
  rewrite Hs. cbn. rewrite orb_false_r. destruct h'; repeat split; reflexivity.
Qed.

(** ** Dragging *)

Lemma updateAt_twice (i : nat) (f g : GraphNode.t -> GraphNode.t) (ns : list GraphNode.t) :
  Layout.updateAt i f (Layout.updateAt i g ns) = Layout.updateAt i (fun d => f (g d)) ns.
Proof.
  revert i; induction ns as [|d ns IH]; intros [|i]; cbn; try reflexivity.
  now rewrite IH.
Qed.

Lemma updateAt_ext (i : nat) (f g : GraphNode.t -> GraphNode.t) (ns : list GraphNode.t) :
  (forall d, f d = g d) -> Layout.updateAt i f ns = Layout.updateAt i g ns.
Proof.
  intros H. revert i; induction ns as [|d ns IH]; intros [|i]; cbn; try reflexivity.
  - now rewrite H.
  - now rewrite IH.
Qed.

Lemma updateAt_same (i : nat) (f : GraphNode.t -> GraphNode.t) (ns : list GraphNode.t) :
  (forall d, nth_error ns i = Some d -> f d = d) -> Layout.updateAt i f ns = ns.
Proof.
  revert i; induction ns as [|d ns IH]; intros [|i] H; cbn; try reflexivity.
  - now rewrite (H d).
  - rewrite IH; [reflexivity | exact H].
Qed.

Lemma dragMoves_nodes (moves : list (Q * Q)) (i : nat) :
  forall s, exists pin,
    Layout.nodes (dragMoves moves i s) = Layout.updateAt i pin (Layout.nodes s)
    /\ forall d, GraphVisualization.setPin None None (pin d)
                 = GraphVisualization.setPin None None d.
Proof.
  unfold dragMoves. induction moves as [|[px py] moves IH]; intros s; cbn [fold_left fst snd].
  - exists (fun d => d). split; [|reflexivity].
    symmetry. apply updateAt_same. reflexivity.
  - destruct (IH (GraphVisualization.dragged px py i s)) as (pin & Hn & Hpin).
    exists (fun d => pin (GraphVisualization.setPin (Some px) (Some py) d)).
    split.
    + rewrite Hn. unfold GraphVisualization.dragged. cbn [Layout.nodes fst snd].
      apply updateAt_twice.
    + intros d. now rewrite Hpin.
Qed.

(** X17. What the three drag handlers do to the nodes, over a whole
    gesture (a start, any pointer moves, an end, no tick in between):
    the pin of the dragged node is cleared, and nothing else is changed,
    on this node or another; so a gesture on a node that was not pinned
    leaves the nodes as they were. *)
Theorem drag_gesture_only_clears_the_pin (startActive endActive : bool)
    (moves : list (Q * Q)) (i : nat) (s : Layout.Simulation) :
  let s' := GraphVisualization.dragended endActive i
              (dragMoves moves i (GraphVisualization.dragstarted startActive i s)) in
  Layout.nodes s'
  = Layout.updateAt i (GraphVisualization.setPin None None) (Layout.nodes s)
  /\ ((forall d, nth_error (Layout.nodes s) i = Some d ->
                 GraphNode.fx d = None /\ GraphNode.fy d = None) ->
      Layout.nodes s' = Layout.nodes s).
Proof.
  intros s'.
  assert (Hs' : Layout.nodes s'
                = Layout.updateAt i (GraphVisualization.setPin None None) (Layout.nodes s)).
  { unfold s', GraphVisualization.dragended. cbn [Layout.nodes].
    destruct (dragMoves_nodes moves i (GraphVisualization.dragstarted startActive i s))
      as (pin & -> & Hpin).
    unfold GraphVisualization.dragstarted. cbn [Layout.nodes].
    replace (Layout.nodes (if startActive then s else Layout.reheat s))
      with (Layout.nodes s) by now destruct startActive.
    rewrite !updateAt_twice. apply updateAt_ext. intros d. now rewrite Hpin. }
  split; [exact Hs'|]. intros Hfree. rewrite Hs'. apply updateAt_same.
  intros d Hd. destruct (Hfree d Hd) as [Hx Hy]. destruct d. cbn in *. now subst.
Qed.

(** ** The details panel *)

Lemma endpointIs_true (e : Endpoint) (nodeId : string) :
  NodeDetailsPanel.endpointIs e nodeId = true <-> e = EndId nodeId.
Proof.
  destruct e as [s|n]; cbn.
  - rewrite String.eqb_eq. split; [now intros -> | now intros [= ->]].
  - split; discriminate.
Qed.

Lemma filter_rejects_all {A : Type} (p : A -> bool) (l : list A) :
  (forall a, In a l -> p a = false) -> filter p l = [].
Proof.
  intros H. induction l as [|a l IH]; cbn; [reflexivity|].
  rewrite (H a) by now left. apply IH. intros b Hb. apply H. now right.
Qed.

(** X18. The details panel is given the graph the canvas has drawn.
    Once the effect of the canvas has run on it, the panel finds no
    connection for any node: [rel.source === node.id] compares a node
    object with a string. *)
Theorem panel_lists_no_connection_once_drawn (data data' : GraphData.t) (h : list string)
    (drawn : list (GraphRelationship.t * string)) (node : GraphNode.t) :
  GraphVisualization.runEffect data h = Some (data', drawn) ->
  GraphData.nodes data <> [] ->
  NodeDetailsPanel.connections node data' = []
  /\ NodeDetailsPanel.connectedNodes node data' = [].
Proof.
  unfold GraphVisualization.runEffect.
  destruct (GraphData.nodes data) as [|n ns] eqn:En; [congruence|]. rewrite <- En.
  destruct (GraphVisualization.initializeLinks _ _) as [links|] eqn:E; [|discriminate].
  intros H _. injection H as <- <-.
  assert (Hnone : NodeDetailsPanel.connections node
                    (GraphData.Build_t (GraphData.nodes data) links) = []).
  { unfold NodeDetailsPanel.connections. cbn [GraphData.relationships].
    apply filter_rejects_all. intros d Hd.
    destruct (initializeLinks_nodes _ _ _ E d Hd) as (s & t & -> & ->). reflexivity. }
  split; [exact Hnone|]. unfold NodeDetailsPanel.connectedNodes. now rewrite Hnone.
Qed.

(** X19. On any graph, what the panel lists for a node: every entry
    is a relationship of the graph with a node of the graph at its other
    end, outgoing when the node is its source and incoming when the node
    is its target only; and every relationship between the node and a
    node of the graph, both ends given by id, has its entry. *)
Theorem panel_lists_the_neighbours (node : GraphNode.t) (data : GraphData.t) :
  (forall c, In c (NodeDetailsPanel.connectedNodes node data) ->
     let rel := NodeDetailsPanel.Connected.relationship c in
     In rel (GraphData.relationships data)
     /\ exists n,
          NodeDetailsPanel.Connected.node c = Some n
          /\ In n (GraphData.nodes data)
          /\ match NodeDetailsPanel.Connected.direction c with
             | NodeDetailsPanel.outgoing =>
                 GraphRelationship.source rel = EndId (GraphNode.id node)
                 /\ GraphRelationship.target rel = EndId (GraphNode.id n)
             | NodeDetailsPanel.incoming =>
                 GraphRelationship.target rel = EndId (GraphNode.id node)
                 /\ GraphRelationship.source rel = EndId (GraphNode.id n)
                 /\ GraphNode.id n <> GraphNode.id node
             end)
  /\ (forall rel n,
        In rel (GraphData.relationships data) ->
        In n (GraphData.nodes data) ->
        (GraphRelationship.source rel = EndId (GraphNode.id node)
         /\ GraphRelationship.target rel = EndId (GraphNode.id n))
        \/ (GraphRelationship.target rel = EndId (GraphNode.id node)
            /\ GraphRelationship.source rel = EndId (GraphNode.id n)) ->
        exists c, In c (NodeDetailsPanel.connectedNodes node data)
                  /\ NodeDetailsPanel.Connected.relationship c = rel).
Proof.
  split.
  - intros c Hc rel. unfold NodeDetailsPanel.connectedNodes in Hc.
    apply filter_In in Hc as [Hc Hsome]. apply in_map_iff in Hc as (r & <- & Hr).
    unfold NodeDetailsPanel.connections in Hr. apply filter_In in Hr as [Hr Htouch].
    subst rel. unfold NodeDetailsPanel.connect in *.
    cbn [NodeDetailsPanel.Connected.relationship NodeDetailsPanel.Connected.node
         NodeDetailsPanel.Connected.direction] in *.
    split; [exact Hr|].
    destruct (NodeDetailsPanel.findNode data _) as [n|] eqn:Ef; [|discriminate].
    exists n. split; [reflexivity|].
    unfold NodeDetailsPanel.findNode in Ef. apply find_some in Ef as [Hn Hid].
    split; [exact Hn|].
    destruct (NodeDetailsPanel.endpointIs (GraphRelationship.source r) (GraphNode.id node))
      eqn:Eo.
    + apply endpointIs_true in Eo, Hid. now split.
    + cbn [orb] in Htouch. apply endpointIs_true in Htouch, Hid.
      split; [exact Htouch|]. split; [exact Hid|].
      intros Heq. rewrite Hid, Heq in Eo. cbn in Eo. now rewrite String.eqb_refl in Eo.
  - intros rel n Hrel Hn Hends.
    exists (NodeDetailsPanel.connect node data rel). split; [|reflexivity].
    unfold NodeDetailsPanel.connectedNodes. apply filter_In. split.
    + apply in_map. unfold NodeDetailsPanel.connections. apply filter_In.
      split; [exact Hrel|]. apply orb_true_iff.
      destruct Hends as [[-> _]|[-> _]]; [left | right]; now apply endpointIs_true.
    + unfold NodeDetailsPanel.connect. cbn [NodeDetailsPanel.Connected.node].
      assert (Hfound : forall s, In n (GraphData.nodes data) -> s = GraphNode.id n ->
                NodeDetailsPanel.findNode data (EndId s) <> None).
      { intros s Hin -> Hnone. unfold NodeDetailsPanel.findNode in Hnone.
        apply (find_none _ _ Hnone) in Hin. cbn in Hin. now rewrite String.eqb_refl in Hin. }
      destruct Hends as [[Hs Ht]|[Ht Hs]].
      * rewrite Hs, Ht. cbn [NodeDetailsPanel.endpointIs]. rewrite String.eqb_refl.
        destruct (NodeDetailsPanel.findNode data _) eqn:Ef; [reflexivity|].
        now apply (Hfound _ Hn eq_refl) in Ef.
      * rewrite Hs, Ht. cbn [NodeDetailsPanel.endpointIs].
        destruct (String.eqb_spec (GraphNode.id n) (GraphNode.id node)) as [Heq|Hne].
        -- destruct (NodeDetailsPanel.findNode data _) eqn:Ef; [reflexivity|].
           symmetry in Heq. now apply (Hfound _ Hn Heq) in Ef.
        -- destruct (NodeDetailsPanel.findNode data _) eqn:Ef; [reflexivity|].
           now apply (Hfound _ Hn eq_refl) in Ef.
Qed.

(** ** The chat box *)

Lemma trimEnd_empty (s : string) : JS.trimEnd s = EmptyString <-> isBlank s = true.
Proof.
  induction s as [|c s IH]; cbn; [tauto|].
  destruct (JS.trimEnd s) eqn:E.
  - destruct (JS.isWhiteSpace c); cbn.
    + rewrite <- IH. tauto.
    + split; discriminate.
  - split; [discriminate|]. intros H. apply andb_true_iff in H as [_ H].
    apply IH in H. discriminate.
Qed.

Lemma trimEnd_endsBlank (s : string) : endsBlank (JS.trimEnd s) = false.
Proof.
  induction s as [|c s IH]; [reflexivity|]. cbn [JS.trimEnd].
  destruct (JS.trimEnd s) as [|k kept] eqn:E.
  - destruct (JS.isWhiteSpace c) eqn:Ec; cbn; [reflexivity | exact Ec].
  - exact IH.
Qed.

Lemma trimEnd_first (c : ascii) (s : string) :
  JS.isWhiteSpace c = false ->
  exists kept, JS.trimEnd (String c s) = String c kept.
Proof.
  intros Hc. cbn [JS.trimEnd]. destruct (JS.trimEnd s).
  - rewrite Hc. now eexists.
  - now eexists.
Qed.

Lemma trim_startsBlank (s : string) : startsBlank (JS.trim s) = false.
Proof.
  unfold JS.trim. induction s as [|c s IH]; [reflexivity|]. cbn [JS.trimStart].
  destruct (JS.isWhiteSpace c) eqn:Ec; [exact IH|].
  destruct (trimEnd_first c s Ec) as (kept & ->). exact Ec.
Qed.

Lemma trimStart_fixed (s : string) : startsBlank s = false -> JS.trimStart s = s.
Proof. destruct s as [|c s]; cbn; [reflexivity|]. now intros ->. Qed.

Lemma trimEnd_fixed (s : string) : endsBlank s = false -> JS.trimEnd s = s.
Proof.
  induction s as [|c s IH]; [reflexivity|]. intros H. cbn [JS.trimEnd].
  destruct s as [|d s].
  - cbn in *. now rewrite H.
  - rewrite IH by exact H. reflexivity.
Qed.

Lemma trim_fixed (s : string) : JS.trim (JS.trim s) = JS.trim s.
Proof.
  unfold JS.trim at 1. rewrite trimStart_fixed by apply trim_startsBlank.
  apply trimEnd_fixed. apply trimEnd_endsBlank.
Qed.

Lemma trimStart_blank (s : string) : isBlank (JS.trimStart s) = isBlank s.
Proof.
  induction s as [|c s IH]; [reflexivity|]. cbn.
  destruct (JS.isWhiteSpace c) eqn:Ec; [exact IH|]. cbn. now rewrite Ec.
Qed.

(** X20. The chat box sends a message only when no query is loading
    and the input has a character that is no white space; what it sends
    is the input trimmed, which is not empty, neither begins nor ends
    with white space and is left as it is by another trim, and the input
    is emptied.  Otherwise nothing is sent and the input stays. *)
Theorem chat_box_sends_trimmed_text_only (input : string) (isLoading : bool) :
  match ChatInterface.handleSubmit input isLoading with
  | (Some content, input') =>
      isLoading = false
      /\ content = JS.trim input
      /\ content <> EmptyString
      /\ startsBlank content = false
      /\ endsBlank content = false
      /\ JS.trim content = content
      /\ input' = EmptyString
  | (None, input') =>
      input' = input /\ (isLoading = true \/ isBlank input = true)
  end.
Proof.
  unfold ChatInterface.handleSubmit.
  destruct (String.eqb_spec (JS.trim input) EmptyString) as [He|Hne]; cbn [negb andb].
  - split; [reflexivity|]. right. unfold JS.trim in He.
    apply trimEnd_empty in He. now rewrite trimStart_blank in He.
  - destruct isLoading; cbn [negb].
    + split; [reflexivity | now left].
    + repeat split; try assumption.
      * apply trim_startsBlank.
      * apply trimEnd_endsBlank.
      * apply trim_fixed.
Qed.


(* ================================================================== *)
(** * Facts about the query builder *)
(* ================================================================== *)

Lemma find_agree {A : Type} (p p' : A -> bool) (l : list A) :
  (forall a, In a l -> p a = p' a) -> find p l = find p' l.
Proof.
  intros H. induction l as [|a l IH]; [reflexivity|]. cbn.
  rewrite (H a) by now left. destruct (p' a); [reflexivity|].
  apply IH. intros b Hb. apply H. now right.
Qed.

(** A [toLowerCase] that does to the ASCII letters what the one of
    JavaScript does finds for an ASCII text the sample question the
    ASCII one finds. *)
Lemma findMatchingQuery_ascii (content : string) :
  (forall s, isAscii s = true -> toLowerCase s = JS.ascii_toLowerCase s) ->
  isAscii content = true ->
  App.findMatchingQuery toLowerCase content
  = App.findMatchingQuery JS.ascii_toLowerCase content.
Proof.
  intros Hlower Hcontent. unfold App.findMatchingQuery.
  rewrite (Hlower content Hcontent). apply find_agree.
  intros q Hq. f_equal. unfold App.firstThreeWords.
  cbn in Hq.
  repeat (destruct Hq as [<-|Hq];
          [cbn [SampleQuery.natural];
           match goal with
           | |- context [toLowerCase (String ?c ?s)] =>
               rewrite (Hlower (String c s)) by (vm_compute; reflexivity)
           end;
           apply Hlower; vm_compute; reflexivity|]).
  destruct Hq.
Qed.

(** X21. A query executed from the query builder is a sample question,
    and as a query it finds this very question in the table (not one
    before it), so that its answer is the answer stored for this
    question; [toLowerCase] being any function that does to the texts of
    code units below 128 what the one of JavaScript does. *)
Theorem sample_query_gets_its_own_answer (selectedQuery : option nat) (index : nat)
    (content : string) :
  (forall s, isAscii s = true -> toLowerCase s = JS.ascii_toLowerCase s) ->
  QueryBuilder.execute selectedQuery index = Some content ->
  exists q,
    nth_error sampleQueries index = Some q
    /\ content = SampleQuery.natural q
    /\ App.findMatchingQuery toLowerCase content = Some q
    /\ cannedAnswer q = Some (answerOf content).
Proof.
  intros Hlower Hexec. unfold QueryBuilder.execute in Hexec.
  destruct selectedQuery as [i|]; [|discriminate].
  destruct (i =? index)%nat; [|discriminate].
  destruct (nth_error sampleQueries index) as [q|] eqn:Eq; [|discriminate].
  injection Hexec as <-. exists q. split; [reflexivity|]. split; [reflexivity|].
  assert (Hq : In q sampleQueries) by (eapply nth_error_In; eassumption).
  assert (Hfind : App.findMatchingQuery toLowerCase (SampleQuery.natural q) = Some q).
  { rewrite findMatchingQuery_ascii; [|exact Hlower|].
    - cbn in Hq. repeat (destruct Hq as [<-|Hq]; [vm_compute; reflexivity|]). destruct Hq.
    - cbn in Hq. repeat (destruct Hq as [<-|Hq]; [vm_compute; reflexivity|]). destruct Hq. }
  split; [exact Hfind|].
  unfold answerOf. rewrite Hfind. now apply generateResponse_canned.
Qed.

(* ================================================================== *)
(** * Facts about the chat box in the application *)
(* ================================================================== *)

Lemma chatStep_oneLoading (w w' : App.World) :
  oneLoading w -> chatStep w w' -> oneLoading w'.
Proof.
  intros HJ [w1 [due k rest Hpop|t]|input|e Hne].
  - pose proof (popEarliest_perm _ _ _ Hpop) as Hperm.
    unfold oneLoading in HJ. rewrite (owed_perm _ _ Hperm), owed_cons in HJ. cbn [snd] in HJ.
    unfold App.fireTimer.
    destruct (fire_Fired k (App.setTimers rest (App.setNow (N.max (App.now w) due) w)))
      as [c|c mq relevantNodes answer|id words i acc Hi|id words i acc Hi|];
      unfold oneLoading; wsimpl; rewrite ?owed_app, ?owed_cons; cbn [snd owes] in *;
      try change (owed []) with 0%nat.
    + destruct HJ as [[Hl Ho]|[Hl Ho]]; [left | lia]. split; [exact Hl | lia].
    + right. split; [reflexivity|]. destruct HJ as [[Hl Ho]|[Hl Ho]]; lia.
    + destruct HJ as [[Hl Ho]|[Hl Ho]]; [left | right]; (split; [exact Hl | lia]).
    + destruct HJ as [[Hl Ho]|[Hl Ho]]; [left | right]; (split; [exact Hl | lia]).
    + destruct HJ as [[Hl Ho]|[Hl Ho]]; [left | right]; (split; [exact Hl | lia]).
  - exact HJ.
  - unfold submitChat, ChatInterface.handleSubmit.
    destruct (negb (String.eqb (JS.trim input) EmptyString)); cbn [andb fst]; [|exact HJ].
    destruct (App.isLoading w) eqn:El; cbn [negb fst]; [exact HJ|].
    destruct HJ as [[Hl Ho]|[Hl Ho]]; [congruence|].
    left. unfold App.handleSendMessage. wsimpl. split; [reflexivity|].
    rewrite owed_app, Ho. reflexivity.
  - destruct (handle_quiet_fields e w Hne) as (_ & Ht & Hl & _).
    unfold oneLoading. now rewrite Ht, Hl.
Qed.

(** X22. When queries are sent through the chat box only (the query
    builder is left alone), one query at most is being processed at any
    time: [isLoading] is true exactly as long as a query waits for its
    answer message, and meanwhile the chat box sends nothing. *)
Theorem chat_box_keeps_one_query_loading (w : App.World) :
  chatReachable w ->
  (owed (App.timers w) <= 1)%nat
  /\ (App.isLoading w = true <-> owed (App.timers w) = 1%nat)
  /\ forall input, App.isLoading w = true -> submitChat input w = w.
Proof.
  intros H.
  assert (HJ : oneLoading w).
  { induction H as [|w w' _ IH Hstep]; [now right | now apply (chatStep_oneLoading w)]. }
  split; [|split].
  - destruct HJ as [[_ Ho]|[_ Ho]]; lia.
  - destruct HJ as [[Hl Ho]|[Hl Ho]]; rewrite Hl, Ho; split; congruence.
  - intros input Hl. unfold submitChat, ChatInterface.handleSubmit. rewrite Hl.
    now rewrite andb_false_r.
Qed.

(* ================================================================== *)
(** * The course of a single query (App.tsx) *)
(* ================================================================== *)

Lemma withContent_pair (t : N) (q content content' : string) (streaming : bool) :
  map (App.withContent (App.assistantId (t + 1300)) content')
    [userMessageOf t q; answerMessageOf t q content streaming]
  = [userMessageOf t q; answerMessageOf t q content' streaming].
Proof.
  cbn [map]. f_equal.
  - apply withContent_other. apply userId_not_assistantId.
  - f_equal. unfold App.withContent, answerMessageOf. cbn [Message.id].
    now rewrite String.eqb_refl.
Qed.

Lemma streamingDone_pair (t : N) (q content : string) (streaming : bool) :
  map (App.streamingDone (App.assistantId (t + 1300)))
    [userMessageOf t q; answerMessageOf t q content streaming]
  = [userMessageOf t q; answerMessageOf t q content false].
Proof.
  cbn [map]. f_equal.
  - unfold App.streamingDone.
    destruct (String.eqb_spec (Message.id (userMessageOf t q)) (App.assistantId (t + 1300)))
      as [E|_]; [|reflexivity].
    now apply userId_not_assistantId in E.
  - f_equal. unfold App.streamingDone, answerMessageOf. cbn [Message.id].
    now rewrite String.eqb_refl.
Qed.

Lemma drain_step (fuel : nat) (w : App.World) (due : N) (k : App.Task)
    (rest : list (N * App.Task)) :
  App.popEarliest (App.timers w) = Some ((due, k), rest) ->
  drain (S fuel) w = drain fuel (fireTimer due k rest w).
Proof. intros H. cbn [App.drain]. now rewrite H. Qed.

Lemma drain_done (fuel : nat) (w : App.World) : App.timers w = [] -> drain fuel w = Some w.
Proof. intros H. destruct fuel; cbn [App.drain]; now rewrite H. Qed.

(** A chunk comes, and it is not the last. *)
Lemma chunk_comes (msgs : list Message.t) (selected : option GraphNode.t)
    (highlighted : list string) (loading : bool) (now due : N) (id : string)
    (words : list string) (i : nat) (acc : string) :
  (S i < List.length words)%nat ->
  fireTimer due (App.StreamNext id words i acc) []
    (App.Build_World msgs selected highlighted loading now
       [(due, App.StreamNext id words i acc)])
  = App.Build_World (map (App.withContent id (acc ++ Utils.chunk words i)) msgs)
      selected highlighted loading (N.max now due)
      [((N.max now due + 30)%N,
        App.StreamNext id words (S i) (acc ++ Utils.chunk words i))].
Proof.
  intros Hi. unfold App.fireTimer, App.fire, App.continueStream.
  destruct (Nat.ltb_spec (S i) (List.length words)); [reflexivity | lia].
Qed.

(** The last chunk comes. *)
Lemma last_chunk_comes (msgs : list Message.t) (selected : option GraphNode.t)
    (highlighted : list string) (loading : bool) (now due : N) (id : string)
    (words : list string) (i : nat) (acc : string) :
  (List.length words <= S i)%nat ->
  fireTimer due (App.StreamNext id words i acc) []
    (App.Build_World msgs selected highlighted loading now
       [(due, App.StreamNext id words i acc)])
  = App.Build_World
      (map (App.streamingDone id) (map (App.withContent id (acc ++ Utils.chunk words i)) msgs))
      selected highlighted loading (N.max now due)
      [((N.max now due + 3000)%N, App.ClearHighlights)].
Proof.
  intros Hi. unfold App.fireTimer, App.fire, App.continueStream.
  destruct (Nat.ltb_spec (S i) (List.length words)); [lia | reflexivity].
Qed.

(** The stream of an answer from its chunk [i] on, alone in the
    application: the chunks come 30 ms apart, the message ends with the
    whole text, and 3000 ms after the last chunk the highlight set is
    emptied. *)
Lemma drain_stream (t : N) (q : string) (words : list string) (r : nat) :
  forall (i : nat) (acc content : string) (due now : N) (fuel : nat)
         (selected : option GraphNode.t) (highlighted : list string) (loading : bool),
    (S i + r = List.length words)%nat ->
    (r + 2 <= fuel)%nat ->
    (now <= due)%N ->
    drain fuel
      (App.Build_World [userMessageOf t q; answerMessageOf t q content true]
         selected highlighted loading now
         [(due, App.StreamNext (App.assistantId (t + 1300)) words i acc)])
    = Some (App.Build_World
              [userMessageOf t q; answerMessageOf t q (acc ++ restOf words i) false]
              selected [] loading (due + 30 * N.of_nat r + 3000) []).
Proof.
  induction r as [|r IH]; intros i acc content due now fuel selected highlighted loading
                                 Hlen Hfuel Hnow.
  - destruct fuel as [|[|fuel]]; try lia.
    rewrite (drain_step _ _ due _ []) by reflexivity.
    rewrite last_chunk_comes by lia.
    rewrite withContent_pair, streamingDone_pair.
    rewrite (drain_step _ _ (N.max now due + 3000)%N App.ClearHighlights []) by reflexivity.
    rewrite drain_done by reflexivity.
    rewrite restOf_step, (restOf_end words (S i)), append_empty_r by lia.
    unfold App.fireTimer, App.fire, App.setHighlightedNodes, App.setTimers, App.setNow.
    wsimpl. do 2 f_equal. cbn [N.of_nat]. lia.
  - destruct fuel as [|fuel]; [lia|].
    rewrite (drain_step _ _ due _ []) by reflexivity.
    rewrite chunk_comes by lia. rewrite withContent_pair.
    rewrite (IH (S i)) by lia.
    rewrite (restOf_step words i) by lia. rewrite append_assoc.
    do 2 f_equal. lia.
Qed.

(** X23. A query sent at [t] into the fresh application and left alone
    runs its course: the session ends with the message of the user,
    stamped [t], and the message of the answer, stamped [t + 1300]
    (800 ms of processing and 500 ms of retrieval), which holds the
    whole answer, the retrieved nodes and the Cypher text, and streams
    no longer; nothing is selected, nothing highlighted, nothing
    loading and no timer pending.  The last thing to happen is the
    emptying of the highlight set, 3000 ms after the last chunk, the
    chunks having come 30 ms apart: at [t + 4300 + 30 * words]. *)
Theorem single_query_runs_its_course (t : N) (q : string) (fuel : nat) :
  (stepsOfQuery q <= fuel)%nat ->
  session fuel [(t, App.SendMessage q)]
  = Some (App.Build_World
            [userMessageOf t q; answerMessageOf t q (answerOf q) false]
            None [] false
            (t + 4300 + 30 * N.of_nat (List.length (JS.split " " (answerOf q))))
            []).
Proof.
  intros Hfuel. unfold stepsOfQuery, stepsOfTask in Hfuel.
  set (words := JS.split " " (answerOf q)) in *.
  assert (Hwords : (0 < List.length words)%nat).
  { unfold words. destruct (JS.split " " (answerOf q)) eqn:E; [|cbn; lia].
    now apply split_not_nil in E. }
  destruct fuel as [|[|fuel]]; try lia.
  (* the query is sent *)
  set (sent := App.Build_World [userMessageOf t q] None [] true t
                 [((t + 800)%N, App.AfterProcessingDelay q)]).
  assert (Hsent : run (S (S fuel)) [(t, App.SendMessage q)]
                    App.initialWorld = Some sent).
  { cbn. unfold App.handleSendMessage, App.setTimeout, App.setTimers, App.setIsLoading,
      App.setMessages, App.setNow, sent, userMessageOf. cbn.
    replace (N.max 0 t) with t by lia. reflexivity. }
  (* the processing delay is over *)
  set (retrieving := App.Build_World [userMessageOf t q] None [] true (t + 800)
                       [((t + 1300)%N, App.AfterRetrievalDelay q (findMatchingQuery q))]).
  assert (Hretrieving : fireTimer (t + 800) (App.AfterProcessingDelay q) [] sent
                        = retrieving).
  { unfold App.fireTimer, sent, retrieving. cbn [App.fire].
    unfold App.setTimeout, App.setTimers, App.setNow. cbn.
    replace (N.max t (t + 800)) with (t + 800)%N by lia.
    replace (t + 800 + 500)%N with (t + 1300)%N by lia. reflexivity. }
  (* the retrieval delay is over: the answer message is there *)
  set (streaming :=
         App.Build_World [userMessageOf t q; answerMessageOf t q EmptyString true] None
           (map GraphNode.id (simulateGraphRetrieval q graphData)) false (t + 1300)
           [((t + 1300 + 30)%N,
             App.StreamNext (App.assistantId (t + 1300)) words 0 EmptyString)]).
  assert (Hstreaming : fireTimer (t + 1300)
                         (App.AfterRetrievalDelay q (findMatchingQuery q)) [] retrieving
                       = streaming).
  { unfold App.fireTimer, retrieving, streaming. cbn [App.fire].
    rewrite continueStream_first by apply split_not_nil.
    unfold App.setTimeout, App.setTimers, App.setIsLoading, App.setMessages,
      App.setHighlightedNodes, App.setNow, answerMessageOf. cbn.
    replace (N.max (t + 800) (t + 1300)) with (t + 1300)%N by lia. reflexivity. }
  unfold App.session. rewrite Hsent.
  rewrite (drain_step _ sent (t + 800)%N (App.AfterProcessingDelay q) []) by reflexivity.
  rewrite Hretrieving.
  destruct fuel as [|fuel]; [lia|].
  rewrite (drain_step _ retrieving (t + 1300)%N
             (App.AfterRetrievalDelay q (findMatchingQuery q)) []) by reflexivity.
  rewrite Hstreaming. unfold streaming.
  rewrite (drain_stream t q words (List.length words - 1) 0 EmptyString EmptyString
             (t + 1300 + 30)%N (t + 1300)%N); try lia.
  cbn [append]. unfold words at 1. rewrite restOf_all. do 2 f_equal. lia.
Qed.

End Facts.

(* ================================================================== *)
(** * The sample graph: concrete runs *)
(* ================================================================== *)

Lemma sample_ids_distinct : NoDup (map GraphNode.id (GraphData.nodes sampleGraphData)).
Proof.
  cbn. repeat (constructor; [cbn; intuition discriminate|]). constructor.
Qed.

(** ** C1 on the sample graph *)

Lemma retrieval_first_three_matches_witness :
  NoDup (map GraphNode.id (GraphData.nodes sampleGraphData))
  /\ map GraphNode.id
       (App.simulateGraphRetrieval JS.ascii_toLowerCase
          "how does graphrag improve accuracy" sampleGraphData)
     = ["genai"; "graphrag"; "vectordb"]
  /\ NoDup (map GraphNode.id
              (App.simulateGraphRetrieval JS.ascii_toLowerCase
                 "how does graphrag improve accuracy" sampleGraphData)).
Proof.
  split; [exact sample_ids_distinct|]. split; [reflexivity|].
  exact (proj1 (proj2 (retrieval_first_three_matches JS.ascii_toLowerCase
                         "how does graphrag improve accuracy" sampleGraphData
                         sample_ids_distinct))).
Defined.

(** ** C2: a token between line feeds is no keyword

    The query is "graphrag", a line feed, "neo4j" (a line feed is typed
    in the chat box with Shift+Enter).  Its whitespace-separated token
    "graphrag" is longer than 3 and occurs in the text of the node
    GraphRAG, yet the node is no match: the query has no space, so its
    only keyword is the whole query. *)
Lemma line_feed_separated_token_is_not_matched :
  let query := ("graphrag" ++ lineFeed ++ "neo4j")%string in
  exists node,
    In node (GraphData.nodes sampleGraphData)
    /\ GraphNode.id node = "graphrag"
    /\ In "graphrag" (Spec.whitespaceTokens (JS.ascii_toLowerCase query))
    /\ (3 < String.length "graphrag")%nat
    /\ JS.includes (App.nodeText JS.ascii_toLowerCase node) "graphrag" = true
    /\ JS.split " " (JS.ascii_toLowerCase query) = [query]
    /\ matchingNodes JS.ascii_toLowerCase query sampleGraphData = []
    /\ App.simulateGraphRetrieval JS.ascii_toLowerCase query sampleGraphData = [].
Proof.
  cbv zeta.
  exists (mkNode "graphrag" "GraphRAG" Technology
            [ ("description", JS.JsString "RAG enhanced with graph database for relationship-aware context retrieval")
            ; ("advantage", JS.JsString "Understands complex multi-hop relationships between entities") ]).
  split; [cbn; do 2 right; left; reflexivity|]. split; [reflexivity|].
  split; [vm_compute; left; reflexivity|].
  split; [cbn; lia|]. evaluate.
Qed.

(** ** C3: a selection wiped by the timeout of an earlier retrieval

    The query "cypher" is sent at 0; its answer has finished streaming
    at 2200, which sets the timeout for 5200.  At 3000 the user clicks
    the node NASA: the highlight set is its id alone, and the timeout is
    still pending.  When it fires, NASA is still the selected node, but
    the highlight set is empty. *)
Lemma selection_wiped_by_earlier_timeout :
  let schedule := [(0%N, App.SendMessage "cypher"); (3000%N, App.ClickNode nasa)] in
  let afterClick :=
    App.run JS.ascii_toLowerCase sampleGraphData 100 schedule App.initialWorld in
  let atTheEnd := App.session JS.ascii_toLowerCase sampleGraphData 100 schedule in
  option_map App.highlightedNodes afterClick = Some ["nasa"]
  /\ option_map App.selectedNode afterClick = Some (Some nasa)
  /\ option_map App.timers afterClick = Some [(5200%N, App.ClearHighlights)]
  /\ option_map App.now atTheEnd = Some 5200%N
  /\ option_map App.timers atTheEnd = Some []
  /\ option_map App.selectedNode atTheEnd = Some (Some nasa)
  /\ option_map App.highlightedNodes atTheEnd = Some [].
Proof. evaluate. Qed.

(** ** C4: the first answer is not abandoned

    "graphrag" is sent at 0 and "neo4j" at 1400, when three chunks of
    the first answer have been emitted.  The first answer goes on: at
    the end its message holds it whole, next to the message of the
    second answer. *)
Lemma first_answer_is_not_abandoned :
  let schedule := [(0%N, App.SendMessage "graphrag"); (1400%N, App.SendMessage "neo4j")] in
  let atSecondQuery :=
    App.run JS.ascii_toLowerCase sampleGraphData 100 schedule App.initialWorld in
  let atTheEnd := App.session JS.ascii_toLowerCase sampleGraphData 100 schedule in
  option_map (fun w => contentOf "msg-1300-assistant" (App.messages w)) atSecondQuery
    = Some (Some "Based on the ")
  /\ option_map App.timers atTheEnd = Some []
  /\ option_map (fun w => map Message.id (App.messages w)) atTheEnd
     = Some ["msg-0"; "msg-1300-assistant"; "msg-1400"; "msg-2700-assistant"]
  /\ option_map (fun w => contentOf "msg-1300-assistant" (App.messages w)) atTheEnd
     = Some (Some (answerOf JS.ascii_toLowerCase sampleGraphData "graphrag"))
  /\ option_map (fun w => contentOf "msg-2700-assistant" (App.messages w)) atTheEnd
     = Some (Some (answerOf JS.ascii_toLowerCase sampleGraphData "neo4j"))
  /\ answerOf JS.ascii_toLowerCase sampleGraphData "graphrag"
     = "Based on the knowledge graph, I found relevant information in GraphRAG. RAG enhanced with graph database for relationship-aware context retrieval The graph structure helps me understand these relationships and provide more accurate, explainable responses.".
Proof. evaluate. Qed.

(** Two queries sent in the same millisecond give their answer messages
    the same id, and each stream then writes into both: here both end
    with the first answer, the longer one. *)
Lemma same_millisecond_answers_share_an_id :
  let schedule := [(0%N, App.SendMessage "graphrag"); (0%N, App.SendMessage "neo4j")] in
  let atTheEnd := App.session JS.ascii_toLowerCase sampleGraphData 100 schedule in
  option_map (fun w => map Message.id (App.messages w)) atTheEnd
    = Some ["msg-0"; "msg-0"; "msg-1300-assistant"; "msg-1300-assistant"]
  /\ option_map (fun w => map Message.content
                            (filter (fun m => match Message.role m with
                                              | assistant => true
                                              | user => false
                                              end) (App.messages w))) atTheEnd
     = Some [answerOf JS.ascii_toLowerCase sampleGraphData "graphrag";
             answerOf JS.ascii_toLowerCase sampleGraphData "graphrag"].
Proof. evaluate. Qed.

Lemma overlapping_answers_both_complete_witness :
  (0 < 1400)%N
  /\ (stepsOfQuery JS.ascii_toLowerCase sampleGraphData "graphrag"
      + stepsOfQuery JS.ascii_toLowerCase sampleGraphData "neo4j" <= 100)%nat
  /\ exists wf m1 m2,
       App.session JS.ascii_toLowerCase sampleGraphData 100
         [(0%N, App.SendMessage "graphrag"); (1400%N, App.SendMessage "neo4j")] = Some wf
       /\ In m1 (App.messages wf)
       /\ Message.content m1 = answerOf JS.ascii_toLowerCase sampleGraphData "graphrag"
       /\ In m2 (App.messages wf)
       /\ Message.content m2 = answerOf JS.ascii_toLowerCase sampleGraphData "neo4j".
Proof.
  assert (H1 : (0 < 1400)%N) by reflexivity.
  assert (H2 : (stepsOfQuery JS.ascii_toLowerCase sampleGraphData "graphrag"
                + stepsOfQuery JS.ascii_toLowerCase sampleGraphData "neo4j" <= 100)%nat).
  { apply Nat.leb_le. vm_compute. reflexivity. }
  split; [exact H1|]. split; [exact H2|].
  destruct (overlapping_answers_both_complete JS.ascii_toLowerCase sampleGraphData
              "graphrag" "neo4j" 0 1400 100 H1 H2)
    as (wf & m1 & m2 & Hs & _ & Hin1 & _ & _ & Hc1 & Hin2 & _ & _ & Hc2 & _).
  exists wf, m1, m2. repeat split; assumption.
Defined.

(** ** C5: a relationship between two highlighted nodes is drawn grey

    With the highlight set {A, B}: the relationship A -> B has both its
    endpoint ids in the set, and its line is drawn in the colour of the
    relationships that are not highlighted, as is the line of A -> C.
    The same on the sample graph: the query "graphrag neo4j" retrieves
    GraphRAG, Neo4j and Cypher, and the lines of the three relationships
    between them (r4, r6, r7) are drawn grey. *)
Theorem edge_between_highlighted_nodes_is_drawn_grey :
  let highlighted :=
    map GraphNode.id
      (App.simulateGraphRetrieval JS.ascii_toLowerCase "graphrag neo4j" sampleGraphData) in
  let strokeIn data highlightedNodes relId :=
    option_map (fun drawn => GraphVisualization.strokeOf drawn relId)
      (GraphVisualization.drawnLinks data highlightedNodes) in
  JS.array_includes ["A"; "B"] "A" = true
  /\ JS.array_includes ["A"; "B"] "B" = true
  /\ strokeIn abcGraph ["A"; "B"] "ab" = Some (Some "#cbd5e1")
  /\ strokeIn abcGraph ["A"; "B"] "ac" = Some (Some "#cbd5e1")
  /\ highlighted = ["graphrag"; "neo4j"; "cypher"]
  /\ strokeIn sampleGraphData highlighted "r4" = Some (Some "#cbd5e1")
  /\ strokeIn sampleGraphData highlighted "r6" = Some (Some "#cbd5e1")
  /\ strokeIn sampleGraphData highlighted "r7" = Some (Some "#cbd5e1").
Proof. evaluate. Qed.

(** ** C6: the description of a later node is not looked for

    "siloed grounding" matches no sample question and retrieves
    Enterprise Knowledge Management, which has no description, and
    Response Accuracy, which has one.  The answer holds the fixed
    sentence, not that description. *)
Lemma later_description_is_not_used :
  let content := "siloed grounding" in
  let sources := App.simulateGraphRetrieval JS.ascii_toLowerCase content sampleGraphData in
  let narrative := App.generateResponse content sources
                     (App.findMatchingQuery JS.ascii_toLowerCase content) in
  App.findMatchingQuery JS.ascii_toLowerCase content = None
  /\ map GraphNode.id sources = ["knowledge-management"; "accuracy"]
  /\ Spec.firstAvailableDescription sources
     = Some (JS.JsString "Correctness and factual grounding of AI-generated content")
  /\ JS.includes narrative "Correctness and factual grounding of AI-generated content" = false
  /\ JS.includes narrative App.interconnected = true.
Proof. evaluate. Qed.

(** ** C7, C8, C9 on concrete inputs *)

Lemma pinned_node_stays_at_pin_witness :
  exists d',
    nth_error (Layout.nodes (Layout.ticks (fun _ _ => (1, 1)) (228 # 10000) 3 draggedLayout)) 0
      = Some d'
    /\ GraphNode.x d' = Some 5 /\ GraphNode.y d' = Some 7
    /\ GraphNode.vx d' = Some 0 /\ GraphNode.vy d' = Some 0.
Proof.
  destruct (pinned_node_stays_at_pin (fun _ _ => (1, 1)) (228 # 10000) 2 draggedLayout 0
              (GraphVisualization.setPin (Some 5) (Some 7) (mkNode "A" "A" Concept [])) 5 7
              eq_refl eq_refl eq_refl)
    as (d' & Hnth & Hx & Hy & Hvx & Hvy & _).
  exists d'. repeat split; assumption.
Defined.

Lemma settles_within_400_ticks_witness :
  1 # 50 <= 228 # 10000
  /\ 228 # 10000 <= 1
  /\ exists n,
       Layout.ticksToSettle (fun _ _ => (0, 0)) (228 # 10000) 400
         (Layout.createLayout (fun _ d => d) sampleGraphData) = Some n
       /\ (n <= 400)%nat.
Proof.
  assert (H1 : 1 # 50 <= 228 # 10000) by (unfold Qle; simpl; lia).
  assert (H2 : 228 # 10000 <= 1) by (unfold Qle; simpl; lia).
  split; [exact H1|]. split; [exact H2|].
  destruct (settles_within_400_ticks (fun _ _ => (0, 0)) (228 # 10000) (fun _ d => d)
              sampleGraphData H1 H2) as (n & Hn & Hle & _).
  exists n. split; assumption.
Defined.

(** With the decay rate 0.0228 the sample graph settles in exactly 300
    ticks. *)
Lemma sample_settles_in_300_ticks :
  Layout.ticksToSettle (fun _ _ => (0, 0)) (228 # 10000) 400
    (Layout.createLayout (fun _ d => d) sampleGraphData) = Some 300%nat.
Proof.
  rewrite (ticksToSettle_alpha _ _ _ _ (Layout.Build_Simulation 1 [])) by reflexivity.
  vm_compute. reflexivity.
Qed.

Lemma select_twice_clears_highlight_witness :
  App.isSelected nasa App.initialWorld = false
  /\ App.highlightedNodes (App.clickNode nasa App.initialWorld) = ["nasa"]
  /\ App.highlightedNodes (App.clickNode nasa (App.clickNode nasa App.initialWorld)) = [].
Proof.
  split; [reflexivity|].
  destruct (select_twice_clears_highlight App.initialWorld nasa eq_refl)
    as (_ & H1 & _ & H2).
  split; [exact H1 | exact H2].
Defined.

(* ================================================================== *)
(** * The utilities, the session and the components on concrete inputs *)
(* ================================================================== *)

(** ** [formatCypherQuery] and [debounce] *)

Lemma formatCypherQuery_leaves_plain_text_witness :
  Utils.formatCypherQuery "n.label AS name, m.id" = "n.label AS name, m.id".
Proof.
  apply formatCypherQuery_leaves_plain_text.
  - repeat (apply Forall_cons; [vm_compute; reflexivity|]). apply Forall_nil.
  - reflexivity.
  - reflexivity.
Defined.



(** ** A session of two overlapping queries *)

Lemma session_ends_idle_witness :
  exists w,
    App.session JS.ascii_toLowerCase sampleGraphData 100
      [(0%N, App.SendMessage "graphrag"); (1400%N, App.SendMessage "neo4j")] = Some w
    /\ App.timers w = []
    /\ App.isLoading w = false.
Proof.
  destruct (session_ends_idle JS.ascii_toLowerCase sampleGraphData 100
              [(0%N, App.SendMessage "graphrag"); (1400%N, App.SendMessage "neo4j")])
    as (w & Hw & Hnone & Hidle & _).
  - apply Nat.leb_le. vm_compute. reflexivity.
  - exists w. split; [exact Hw|]. split; [exact Hnone | exact Hidle].
Defined.

Lemma session_keeps_every_query_witness :
  exists w,
    App.session JS.ascii_toLowerCase sampleGraphData 100
      [(0%N, App.SendMessage "graphrag"); (1000%N, App.ClickNode nasa);
       (1400%N, App.SendMessage "neo4j")] = Some w
    /\ userContents (App.messages w) = ["graphrag"; "neo4j"]
    /\ List.length (App.messages w) = 4%nat.
Proof.
  destruct (session_keeps_every_query JS.ascii_toLowerCase sampleGraphData 100
              [(0%N, App.SendMessage "graphrag"); (1000%N, App.ClickNode nasa);
               (1400%N, App.SendMessage "neo4j")])
    as (w & Hw & Hsent & Hcount).
  - apply Nat.leb_le. vm_compute. reflexivity.
  - exists w. split; [exact Hw|]. split; [exact Hsent | exact Hcount].
Defined.

(** The state [answering] is one the application can be in. *)
Lemma answering_reachable : reachable JS.ascii_toLowerCase sampleGraphData answering.
Proof.
  unfold reachable, answering.
  set (w1 := App.handle (App.SendMessage "cypher") App.initialWorld).
  set (w2 := App.fireTimer JS.ascii_toLowerCase sampleGraphData 800
               (App.AfterProcessingDelay "cypher") [] w1).
  assert (H1 : steps JS.ascii_toLowerCase sampleGraphData App.initialWorld w1).
  { eapply steps_more; [apply steps_none | apply step_event]. }
  assert (H2 : steps JS.ascii_toLowerCase sampleGraphData App.initialWorld w2).
  { eapply steps_more; [exact H1|]. apply step_quiet, step_timer. reflexivity. }
  eapply steps_more; [exact H2|]. apply step_quiet, step_timer. reflexivity.
Qed.


Lemma cited_sources_are_nodes_of_the_graph_witness :
  exists m l,
    In m (App.messages answering)
    /\ Message.sources m = Some l
    /\ map GraphNode.id l = ["cypher"]
    /\ Message.role m = assistant
    /\ (List.length l <= 3)%nat
    /\ incl l (GraphData.nodes sampleGraphData).
Proof.
  eexists. eexists.
  split; [right; left; reflexivity|]. split; [reflexivity|]. split; [reflexivity|].
  apply (cited_sources_are_nodes_of_the_graph JS.ascii_toLowerCase sampleGraphData
           answering _ _ answering_reachable).
  - right. left. reflexivity.
  - reflexivity.
Defined.

Lemma messages_are_in_order_of_time_witness :
  map Message.timestamp (App.messages answering) = [0%N; 1300%N]
  /\ Sorted N.le (map Message.timestamp (App.messages answering)).
Proof.
  split; [reflexivity|].
  exact (proj1 (messages_are_in_order_of_time JS.ascii_toLowerCase sampleGraphData
                  answering answering_reachable)).
Defined.

(** ** The canvas and the details panel *)

Lemma clicked_node_stands_out_witness :
  GraphVisualization.radius (App.selectedNode (App.clickNode nasa App.initialWorld)) nasa
  = 28
  /\ GraphVisualization.nodeOpacity
       (App.highlightedNodes (App.clickNode nasa App.initialWorld))
       (mkNode "icij" "ICIJ" Company []) = 2 # 10.
Proof.
  split.
  - exact (proj1 (clicked_node_stands_out App.initialWorld nasa nasa eq_refl)).
  - exact (proj1 (proj2 (clicked_node_stands_out App.initialWorld nasa
                           (mkNode "icij" "ICIJ" Company []) eq_refl))).
Defined.

Lemma abcDrawn_is_drawn :
  GraphVisualization.runEffect abcGraph []
  = Some (abcDrawn, map (fun d => (d, "#cbd5e1")) (GraphData.relationships abcDrawn)).
Proof. reflexivity. Qed.


Lemma highlight_dims_every_link_witness :
  forallb (fun d => Qeq_bool (GraphVisualization.strokeOpacity ["A"; "B"] d) (1 # 10))
    (GraphData.relationships abcDrawn) = true
  /\ exists d,
       GraphRelationship.id d = "ab"
       /\ GraphVisualization.strokeOpacity ["A"; "B"] d = 1 # 10
       /\ GraphVisualization.linkLabelOpacity ["A"; "B"] d = 0.
Proof.
  split; [reflexivity|].
  exists (GraphRelationship.Build_t "ab" (EndNode (mkNode "A" "A" Concept []))
            (EndNode (mkNode "B" "B" Concept [])) "LINKS" None).
  split; [reflexivity|].
  exact (proj2 (highlight_dims_every_link abcGraph abcDrawn [] ["A"; "B"] _ _
                  abcDrawn_is_drawn ltac:(discriminate) (or_introl eq_refl))).
Defined.

(** The node A has two connections in the graph as it is written, and
    none in the graph as the canvas leaves it. *)
Lemma panel_lists_no_connection_once_drawn_witness :
  map (fun c => GraphRelationship.id (NodeDetailsPanel.Connected.relationship c))
    (NodeDetailsPanel.connectedNodes (mkNode "A" "A" Concept []) abcGraph) = ["ab"; "ac"]
  /\ NodeDetailsPanel.connectedNodes (mkNode "A" "A" Concept []) abcDrawn = [].
Proof.
  split; [reflexivity|].
  exact (proj2 (panel_lists_no_connection_once_drawn abcGraph abcDrawn [] _
                  (mkNode "A" "A" Concept []) abcDrawn_is_drawn ltac:(discriminate))).
Defined.

(** On the sample graph as it is written, the panel of NASA lists Neo4j
    and Enterprise Knowledge Management, both outgoing. *)
Lemma panel_of_nasa :
  map (fun c => (option_map GraphNode.id (NodeDetailsPanel.Connected.node c),
                 NodeDetailsPanel.Connected.direction c))
    (NodeDetailsPanel.connectedNodes nasa sampleGraphData)
  = [ (Some "neo4j", NodeDetailsPanel.outgoing);
      (Some "knowledge-management", NodeDetailsPanel.outgoing) ].
Proof. vm_compute. reflexivity. Qed.

(** ** The query builder *)

Lemma sample_query_gets_its_own_answer_witness :
  exists q,
    nth_error sampleQueries 1 = Some q
    /\ App.findMatchingQuery JS.ascii_toLowerCase
         "What companies use Neo4j and for what purpose?" = Some q
    /\ cannedAnswer q
       = Some (answerOf JS.ascii_toLowerCase sampleGraphData
                 "What companies use Neo4j and for what purpose?").
Proof.
  destruct (sample_query_gets_its_own_answer JS.ascii_toLowerCase sampleGraphData
              (Some 1%nat) 1 "What companies use Neo4j and for what purpose?"
              (fun s _ => eq_refl) eq_refl)
    as (q & Hq & _ & Hfind & Hanswer).
  exists q. split; [exact Hq|]. split; [exact Hfind | exact Hanswer].
Defined.

(** ** The chat box in the application *)

(** A query is submitted from the chat box; while it is loading, a
    second one is not sent. *)
Lemma chat_box_keeps_one_query_loading_witness :
  let w := submitChat "  graphrag " App.initialWorld in
  App.isLoading w = true
  /\ map Message.content (App.messages w) = ["graphrag"]
  /\ owed (App.timers w) = 1%nat
  /\ submitChat "neo4j" w = w.
Proof.
  cbv zeta.
  assert (Hreach : chatReachable JS.ascii_toLowerCase sampleGraphData
                     (submitChat "  graphrag " App.initialWorld)).
  { eapply chat_more; [apply chat_initial | apply chat_submit]. }
  destruct (chat_box_keeps_one_query_loading JS.ascii_toLowerCase sampleGraphData _ Hreach)
    as (_ & Hiff & Hstay).
  split; [reflexivity|]. split; [reflexivity|].
  split; [apply Hiff; reflexivity | apply Hstay; reflexivity].
Defined.

(** ** The course of a single query *)

(** "cypher" sent at 0: its answer has 30 words, so the session is over
    at 5200 ms, with two messages. *)
Lemma single_query_runs_its_course_witness :
  (stepsOfQuery JS.ascii_toLowerCase sampleGraphData "cypher" <= 100)%nat
  /\ option_map (fun w => (List.length (App.messages w), App.now w, App.highlightedNodes w))
       (App.session JS.ascii_toLowerCase sampleGraphData 100 [(0%N, App.SendMessage "cypher")])
     = Some (2%nat, 5200%N, []).
Proof.
  assert (H : (stepsOfQuery JS.ascii_toLowerCase sampleGraphData "cypher" <= 100)%nat).
  { apply Nat.leb_le. vm_compute. reflexivity. }
  split; [exact H|].
  rewrite (single_query_runs_its_course JS.ascii_toLowerCase sampleGraphData 0 "cypher" 100 H).
  vm_compute. reflexivity.
Defined.
